(** * Domino pip counter: filter, DBSCAN-light clusterer and tile summary

    A shallow embedding of the pure core of [src/app.js]:
    the contour filter of [analyzeFrame] (step 6), the clusterer [dbscan]
    with its inner [regionQuery], the per-tile bounding box of
    [drawOverlay], the summary returned by [analyzeFrame] and the [input]
    listener of the eps slider.

    Numbers.  The development has two models of the numbers of
    JavaScript.  In the first a number is a [num]: an exact rational, one
    of the two infinities, or NaN.  Arithmetic on finite values is exact;
    the special values follow the IEEE rules the source relies on: every
    comparison with NaN is false, [Infinity - Infinity] and
    [0 * Infinity] are NaN, [Math.min] and [Math.max] return NaN when an
    argument is NaN.  This model carries the properties of the filter,
    of the loops of the clusterer and of the page, which do not depend on
    how a sum or a product is rounded.  In the second, the module
    [Double], a number is a binary64 value and every operation is the
    IEEE 754 one, with its rounding, overflow, underflow and signed
    zeros; it carries what depends on the arithmetic: the boundary of
    the neighbour test, the clusterer at [eps = 0] and the sides of the
    tile box.

    The development also covers the listeners of the area sliders,
    [setAutoEps] and [resizeCanvases] (as events on the part of the page
    the analysis reads), the calls [drawOverlay] makes on the canvas, and
    the three listeners of the service worker, over a cache storage kept
    as the list of its named caches. *)

From Stdlib Require Import QArith Qround Qreals Reals Psatz ZArith List Sorted.
From Stdlib Require Floats.
From stdpp Require Import base relations list strings gmap.

Set Default Proof Using "Type".
Local Open Scope Q_scope.

(** ** JavaScript numbers *)

Inductive num : Type :=
| Fin (q : Q)
| PInf
| NInf
| NaN.

Module Num.

Definition is_fin (a : num) : bool :=
  match a with Fin _ => true | _ => false end.

(** Sign of a rational: [Lt], [Eq] or [Gt] with respect to zero. *)
Definition sgn (q : Q) : comparison := q ?= 0.

Definition neg (a : num) : num :=
  match a with
  | Fin q => Fin (- q)
  | PInf => NInf
  | NInf => PInf
  | NaN => NaN
  end.

Definition add (a b : num) : num :=
  match a, b with
  | NaN, _ | _, NaN => NaN
  | Fin x, Fin y => Fin (x + y)
  | PInf, NInf | NInf, PInf => NaN
  | PInf, _ | _, PInf => PInf
  | NInf, _ | _, NInf => NInf
  end.

Definition sub (a b : num) : num := add a (neg b).

(** An infinity times a finite value: the sign decides, zero gives NaN. *)
Definition inf_times (pos : bool) (q : Q) : num :=
  match sgn q with
  | Eq => NaN
  | Gt => if pos then PInf else NInf
  | Lt => if pos then NInf else PInf
  end.

Definition mul (a b : num) : num :=
  match a, b with
  | NaN, _ | _, NaN => NaN
  | Fin x, Fin y => Fin (x * y)
  | PInf, Fin y | Fin y, PInf => inf_times true y
  | NInf, Fin y | Fin y, NInf => inf_times false y
  | PInf, PInf | NInf, NInf => PInf
  | PInf, NInf | NInf, PInf => NInf
  end.

Definition div (a b : num) : num :=
  match a, b with
  | NaN, _ | _, NaN => NaN
  | Fin x, Fin y =>
      match sgn y with
      | Eq => inf_times true x
      | _ => Fin (x / y)
      end
  | Fin _, (PInf | NInf) => Fin 0
  | PInf, Fin y => if Qle_bool 0 y then PInf else NInf
  | NInf, Fin y => if Qle_bool 0 y then NInf else PInf
  | (PInf | NInf), (PInf | NInf) => NaN
  end.

(** [a <= b] of JavaScript. *)
Definition le (a b : num) : bool :=
  match a, b with
  | NaN, _ | _, NaN => false
  | Fin x, Fin y => Qle_bool x y
  | NInf, _ => true
  | _, PInf => true
  | _, _ => false
  end.

(** [a < b] of JavaScript. *)
Definition lt (a b : num) : bool :=
  match a, b with
  | NaN, _ | _, NaN => false
  | Fin x, Fin y => negb (Qle_bool y x)
  | NInf, NInf => false
  | PInf, PInf => false
  | NInf, _ => true
  | _, PInf => true
  | _, _ => false
  end.

Definition ge (a b : num) : bool := le b a.
Definition gt (a b : num) : bool := lt b a.

(** [Math.min(a, b)] and [Math.max(a, b)]. *)
Definition min (a b : num) : num :=
  match a, b with
  | NaN, _ | _, NaN => NaN
  | _, _ => if le a b then a else b
  end.

Definition max (a b : num) : num :=
  match a, b with
  | NaN, _ | _, NaN => NaN
  | _, _ => if le a b then b else a
  end.

End Num.

(** ** Data: dots, candidates, results of a call *)

(** A dot as [analyzeFrame] pushes it: [{x, y, r}]. *)
Record point : Type := mkPoint { px : num; py : num; pr : num }.

(** What the three OpenCV calls of step 6 return for one contour:
    [cv.contourArea], [cv.boundingRect] (width, height) and
    [cv.minEnclosingCircle] (center, radius). *)
Record candidate : Type := mkCandidate {
  c_area : num;
  c_width : num;
  c_height : num;
  c_cx : num;
  c_cy : num;
  c_radius : num
}.

(** Outcome of running a piece of the source: a value, an uncaught
    [TypeError] (a property read or a method call on [undefined]), or a
    loop that has not finished within the steps allowed to the model. *)
Inductive result (A : Type) : Type :=
| Ok (a : A)
| TypeError
| OutOfFuel.
Arguments Ok {A} a.
Arguments TypeError {A}.
Arguments OutOfFuel {A}.

#[global] Instance result_bind : MBind result := fun A B k m =>
  match m with
  | Ok a => k a
  | TypeError => TypeError
  | OutOfFuel => OutOfFuel
  end.

(** ** The clusterer: [dbscan] *)

(** The test of [regionQuery]: [(dx*dx + dy*dy) <= eps*eps]. *)
Definition within (eps : num) (p q : point) : bool :=
  let dx := Num.sub (px p) (px q) in
  let dy := Num.sub (py p) (py q) in
  Num.le (Num.add (Num.mul dx dx) (Num.mul dy dy)) (Num.mul eps eps).

(** The loop [for (let j=0; j<N; j++)] of [regionQuery], started at
    index [j] on the points that remain from there. *)
Fixpoint regionQuery_from (eps : num) (p : point) (qs : list point) (j : nat)
  : list nat :=
  match qs with
  | [] => []
  | q :: qs' =>
      if within eps p q
      then j :: regionQuery_from eps p qs' (S j)
      else regionQuery_from eps p qs' (S j)
  end.

(** [regionQuery(i)]: when [points[i]] is undefined, reading [p.x] in the
    first round of the loop throws; without points the loop has no round
    and the answer is empty. *)
Definition regionQuery (points : list point) (eps : num) (i : nat)
  : result (list nat) :=
  match points !! i with
  | Some p => Ok (regionQuery_from eps p points 0)
  | None => match points with [] => Ok [] | _ :: _ => TypeError end
  end.

(** *** Arrays and the seed set *)

(** [a[i]] for the array of booleans [visited]: a missing entry is
    [undefined], which is falsy. *)
Definition truthy_at (a : list bool) (i : nat) : bool := default false (a !! i).

(** [labels[i]]: [None] is [undefined], [Some z] the number [z]; the label
    [-1] marks noise. *)
Definition label_at (a : list (option Z)) (i : nat) : option Z :=
  default None (a !! i).

(** [a[i] = v]: in range the entry is overwritten; past the end the array
    grows and the entries in between are holes, read back as [hole]. *)
Definition array_set {A : Type} (hole : A) (i : nat) (v : A) (a : list A)
  : list A :=
  if decide (i < length a)%nat then <[i := v]> a
  else a ++ replicate (i - length a) hole ++ [v].

(** A JavaScript [Set] of indices, kept as the list of its elements in
    insertion order: this is the order in which [for (const n of seeds)]
    visits them, elements added during the loop included. *)
Definition set_add (x : nat) (s : list nat) : list nat :=
  if decide (x ∈ s) then s else s ++ [x].

Definition set_add_all (xs : list nat) (s : list nat) : list nat :=
  foldl (fun acc x => set_add x acc) s xs.

Definition set_of_array (xs : list nat) : list nat := set_add_all xs [].

Definition set_delete (x : nat) (s : list nat) : list nat :=
  filter (fun y => y ≠ x) s.

(** *** The state of one call *)

Record dbstate : Type := mkState {
  visited : list bool;
  labels : list (option Z);
  C : nat
}.

Definition noise : Z := (-1)%Z.

(** [labels[n] === undefined || labels[n] === -1] *)
Definition unlabelled (l : option Z) : bool :=
  match l with
  | None => true
  | Some z => (z =? noise)%Z
  end.

(** [visited], [labels] and [C] as the call sets them up:
    [new Array(N).fill(false)], [new Array(N).fill(undefined)] and [0]. *)
Definition initial (N : nat) : dbstate :=
  mkState (replicate N false) (replicate N None) 0.

Section Clusterer.

Variable points : list point.
Variable eps : num.
Variable minPts : Z.

(** The first statement of the expansion loop,
    [if (!visited[n]) { visited[n] = true; ... seeds.add(x) ... }]:
    the seed set and the array [visited] afterwards. *)
Definition probe (n : nat) (seeds : list nat) (visited : list bool)
  : result (list nat * list bool) :=
  if truthy_at visited n then Ok (seeds, visited)
  else
    let visited1 := array_set false n true visited in
    nbs2 ← regionQuery points eps n;
    if (minPts <=? Z.of_nat (length nbs2))%Z
    then Ok (set_add_all nbs2 seeds, visited1)
    else Ok (seeds, visited1).

(** Its second statement,
    [if (labels[n] === undefined || labels[n] === -1) labels[n] = clusterIdx]. *)
Definition claim (clusterIdx : Z) (n : nat) (labels : list (option Z))
  : list (option Z) :=
  if unlabelled (label_at labels n)
  then array_set None n (Some clusterIdx) labels
  else labels.

(** The expansion loop [for (const n of seeds)], with the iterator at
    position [k] of the set.  One unit of [fuel] is spent per element
    visited. *)
Fixpoint expand (clusterIdx : Z) (fuel : nat) (k : nat) (seeds : list nat)
  (st : dbstate) : result dbstate :=
  match seeds !! k with
  | None => Ok st
  | Some n =>
      match fuel with
      | O => OutOfFuel
      | S fuel' =>
          sv ← probe n seeds (visited st);
          expand clusterIdx fuel' (S k) (fst sv)
            (mkState (snd sv) (claim clusterIdx n (labels st)) (C st))
      end
  end.

(** The body of the main loop [for (let i=0; i<N; i++)]. *)
Definition visit (i : nat) (st : dbstate) : result dbstate :=
  if truthy_at (visited st) i then Ok st
  else
    let visited1 := array_set false i true (visited st) in
    neighbors ← regionQuery points eps i;
    if (Z.of_nat (length neighbors) <? minPts)%Z
    then Ok (mkState visited1 (array_set None i (Some noise) (labels st)) (C st))
    else
      let clusterIdx := Z.of_nat (C st) in
      let st1 := mkState visited1
                   (array_set None i (Some clusterIdx) (labels st))
                   (S (C st)) in
      let seeds := set_delete i (set_of_array neighbors) in
      expand clusterIdx (length points) 0 seeds st1.

Fixpoint scan (idxs : list nat) (st : dbstate) : result dbstate :=
  match idxs with
  | [] => Ok st
  | i :: idxs' => st' ← visit i st; scan idxs' st'
  end.

(** Labels and cluster count when the main loop is over. *)
Definition label_pass : result dbstate :=
  let N := length points in
  scan (seq 0 N) (initial N).

End Clusterer.

(** The conversion loop [for (let i=0; i<N; i++)] over the points from
    index [i] on: a point without a cluster id is pushed as a new
    one-element array, another is pushed onto [clusters[lab]], which throws
    when that entry does not exist. *)
Fixpoint collect (labels : list (option Z)) (ps : list point) (i : nat)
  (clusters : list (list point)) : result (list (list point)) :=
  match ps with
  | [] => Ok clusters
  | p :: ps' =>
      let lab := label_at labels i in
      if unlabelled lab then collect labels ps' (S i) (clusters ++ [[p]])
      else
        match lab with
        | Some z =>
            if decide (0 <= z)%Z then
              match clusters !! Z.to_nat z with
              | Some arr =>
                  collect labels ps' (S i) (<[Z.to_nat z := arr ++ [p]]> clusters)
              | None => TypeError
              end
            else TypeError
        | None => TypeError
        end
  end.

(** [dbscan(points, eps, minPts)]: the array of tiles. *)
Definition dbscan (points : list point) (eps : num) (minPts : Z)
  : result (list (list point)) :=
  st ← label_pass points eps minPts;
  clusters ← collect (labels st) points 0 (replicate (C st) []);
  Ok (filter (fun arr : list point => (0 < length arr)%nat) clusters).

(** ** The contour filter and the summary of [analyzeFrame] *)

(** The tunables: [MIN_AREA], [MAX_AREA] and [EPS], where [None] is the
    initial [null] (automatic eps). *)
Record config : Type := mkConfig {
  MIN_AREA : num;
  MAX_AREA : num;
  EPS : option num
}.

Definition MIN_PTS : Z := 1%Z.

(** The two nested tests of step 6:
    [area >= MIN_AREA && area <= MAX_AREA], then
    [ratio > 0.5 && ratio < 2.0] with [ratio = rect.width / rect.height]. *)
Definition accepts (minArea maxArea : num) (c : candidate) : bool :=
  Num.ge (c_area c) minArea && Num.le (c_area c) maxArea &&
  (let ratio := Num.div (c_width c) (c_height c) in
   Num.gt ratio (Fin (1 # 2)) && Num.lt ratio (Fin 2)).

Definition dot_of (c : candidate) : point :=
  mkPoint (c_cx c) (c_cy c) (c_radius c).

(** The loop over the contours, pushing onto [dots]. *)
Definition filterDots (minArea maxArea : num) (cands : list candidate)
  : list point :=
  foldl (fun dots c => if accepts minArea maxArea c then dots ++ [dot_of c] else dots)
        [] cands.

(** [Math.round] on a finite value: the nearest integer, halves upwards. *)
Definition round (q : Q) : Z := Qfloor (q + (1 # 2)).

(** [EPS ?? Math.round(Math.max(work.width, work.height) * 0.065)] *)
Definition effective_eps (cfg : config) (width height : Z) : num :=
  match EPS cfg with
  | Some e => e
  | None => Fin (inject_Z (round (inject_Z (Z.max width height) * (65 # 1000))))
  end.

(** What [analyzeFrame] returns, the elapsed time apart. *)
Record frameResult : Type := mkFrameResult {
  total : nat;
  clusters : list nat
}.

(** Steps 6, 7 and the summary of [analyzeFrame], from the contours the
    segmentation produced on a work canvas of the given size. *)
Definition analyzeFrame (cfg : config) (width height : Z)
  (cands : list candidate) : result frameResult :=
  let dots := filterDots (MIN_AREA cfg) (MAX_AREA cfg) cands in
  let eps := effective_eps cfg width height in
  tiles ← dbscan dots eps MIN_PTS;
  Ok (mkFrameResult (length dots) (map (fun c : list point => length c) tiles)).

(** The [input] listener of the eps slider: [EPS = +e.target.value]. *)
Definition on_eps_input (value : num) (cfg : config) : config :=
  mkConfig (MIN_AREA cfg) (MAX_AREA cfg) (Some value).

(** ** The tile box of [drawOverlay] *)

Record box : Type := mkBox { minx : num; miny : num; maxx : num; maxy : num }.

Definition pad : num := Fin 10.

(** The inner [cluster.forEach]: one member widens the box. *)
Definition widen (b : box) (p : point) : box :=
  mkBox (Num.min (minx b) (Num.sub (px p) (pr p)))
        (Num.min (miny b) (Num.sub (py p) (pr p)))
        (Num.max (maxx b) (Num.add (px p) (pr p)))
        (Num.max (maxy b) (Num.add (py p) (pr p))).

(** The box drawn around a tile: grown from
    [(Infinity, Infinity, -Infinity, -Infinity)] over the members, then
    padded. *)
Definition tile_box (cluster : list point) : box :=
  let b := foldl widen (mkBox PInf PInf NInf NInf) cluster in
  mkBox (Num.sub (minx b) pad) (Num.sub (miny b) pad)
        (Num.add (maxx b) pad) (Num.add (maxy b) pad).

(** The number written on the tile, [cluster.length]. *)
Definition pipCount (cluster : list point) : nat := length cluster.

(** ** Predicates on the state of the labelling pass *)

(** Shape of the state on [N] points: both arrays keep the length [N], a
    label is the noise mark or the id of a cluster already created, every
    cluster created so far has a member, and only visited points carry a
    label. *)
Record wf (N : nat) (st : dbstate) : Prop := mkWf {
  wf_visited : length (visited st) = N;
  wf_labels : length (labels st) = N;
  wf_range : forall j z, labels st !! j = Some (Some z) ->
               z = noise \/ (0 <= z < Z.of_nat (C st))%Z;
  wf_inhab : forall c, (c < C st)%nat ->
               exists j, labels st !! j = Some (Some (Z.of_nat c));
  wf_seen : forall j z, labels st !! j = Some (Some z) ->
              visited st !! j = Some true
}.

(** No noise mark anywhere, and every visited point carries a label. *)
Record tagged (st : dbstate) : Prop := mkTagged {
  tg_nonoise : forall j, labels st !! j <> Some (Some noise);
  tg_visited : forall j, visited st !! j = Some true ->
                 exists z, labels st !! j = Some (Some z)
}.

(** [visited] only ever gains marks. *)
Definition mono (v v' : list bool) : Prop :=
  forall j, v !! j = Some true -> v' !! j = Some true.

(** Every point has at least [minPts] points in its neighbourhood. *)
Definition all_core (points : list point) (eps : num) (minPts : Z) : Prop :=
  forall i p, points !! i = Some p ->
    (minPts <= Z.of_nat (length (regionQuery_from eps p points 0)))%Z.

(** ** Finite values *)

(** The rational a finite number stands for. *)
Definition qval (a : num) : Q :=
  match a with Fin q => q | _ => 0 end.

(** A dot whose center has finite coordinates. *)
Definition finite_center (p : point) : Prop :=
  Num.is_fin (px p) = true /\ Num.is_fin (py p) = true.

(** The state in which, of [N] points, exactly the first [i] have been
    visited and the point [j < i] is the only member of cluster [j]. *)
Definition zero_state (N i : nat) : dbstate :=
  mkState (replicate i true ++ replicate (N - i) false)
          (((fun c => Some (Z.of_nat c)) <$> seq 0 i) ++ replicate (N - i) None)
          i.

(** ** Sample data *)

(** A dot of radius 5 with integer center. *)
Definition dot5 (x y : Z) : point :=
  mkPoint (Fin (inject_Z x)) (Fin (inject_Z y)) (Fin 5).

(** A contour of area 100 in a 10 by 10 box, with the given enclosing
    circle. *)
Definition round_contour (cx cy r : num) : candidate :=
  mkCandidate (Fin 100) (Fin 10) (Fin 10) cx cy r.

(** The tunables at their initial values. *)
Definition default_config : config := mkConfig (Fin 30) (Fin 5000) None.

(** The three dots of scenario A. *)
Definition scenario_A : list point := [dot5 0 0; dot5 5 0; dot5 100 100].

(** Three dots on a line, 5 and 10 away from the first. *)
Definition on_a_line : list point := [dot5 0 0; dot5 3 4; dot5 6 8].

(** ** The tiles to be expected from the final labels *)

(** The points of [points] at the given indices, in that order. *)
Definition at_indices (points : list point) (idxs : list nat) : list point :=
  omap (fun i => points !! i) idxs.

(** Among the first [n] points, those labelled with cluster id [c], in
    input order. *)
Definition cluster_members (points : list point) (ls : list (option Z))
  (n : nat) (c : nat) : list point :=
  at_indices points
    (filter (fun i => label_at ls i = Some (Z.of_nat c)) (seq 0 n)).

(** Among the first [n] points, those without a cluster id, in input
    order, each as a tile of its own. *)
Definition promoted (points : list point) (ls : list (option Z)) (n : nat)
  : list (list point) :=
  (fun p => [p]) <$>
    at_indices points
      (filter (fun i => unlabelled (label_at ls i) = true) (seq 0 n)).

(** ** Neighbourhoods as relations between indices *)

(** [b] is in the answer of [regionQuery(a)]: both points exist and pass
    the distance test. *)
Definition near (points : list point) (eps : num) (a b : nat) : Prop :=
  exists p q, points !! a = Some p /\ points !! b = Some q /\
              within eps p q = true.

(** The point [a] has at least [minPts] points in its neighbourhood. *)
Definition core (points : list point) (eps : num) (minPts : Z) (a : nat)
  : Prop :=
  exists p, points !! a = Some p /\
    (minPts <= Z.of_nat (length (regionQuery_from eps p points 0)))%Z.

(** One step from a core point to one of its neighbours, and chains of
    such steps. *)
Definition core_step (points : list point) (eps : num) (minPts : Z)
  (a b : nat) : Prop :=
  core points eps minPts a /\ near points eps a b.

Definition reach (points : list point) (eps : num) (minPts : Z)
  : nat -> nat -> Prop :=
  rtc (core_step points eps minPts).

(** Chains of neighbours. *)
Definition linked (points : list point) (eps : num) : nat -> nat -> Prop :=
  rtc (near points eps).

(** ** Further predicates on the state of the labelling pass *)

(** The part of the invariant of the expansion loop of cluster [c] on [N]
    points that does not depend on the geometry: a well-formed state, an
    id of a cluster that exists, and a seed set that is duplicate-free and
    within the array. *)
Definition seeds_ok (N c : nat) (seeds : list nat) (st : dbstate) : Prop :=
  wf N st /\ (c < C st)%nat /\ NoDup seeds /\
  Forall (fun j => (j < N)%nat) seeds.

(** Every cluster created so far has a core point among its members from
    which each of its members is reached by steps from core points to
    their neighbours. *)
Definition rooted (points : list point) (eps : num) (minPts : Z)
  (st : dbstate) : Prop :=
  forall c, (c < C st)%nat ->
    exists s, core points eps minPts s /\
      labels st !! s = Some (Some (Z.of_nat c)) /\
      forall j, labels st !! j = Some (Some (Z.of_nat c)) ->
        reach points eps minPts s j.

(** The labels are constant on the neighbourhood of every visited
    point. *)
Definition closed (points : list point) (eps : num) (st : dbstate) : Prop :=
  forall a b, visited st !! a = Some true -> near points eps a b ->
    labels st !! b = labels st !! a.

(** Equality of numbers up to the representation of a rational. *)
Definition num_eqv (a b : num) : Prop :=
  match a, b with
  | Fin x, Fin y => x == y
  | PInf, PInf | NInf, NInf | NaN, NaN => True
  | _, _ => False
  end.

(** Every visited point carries a label, and a point marked as noise has
    fewer than [minPts] points in its neighbourhood. *)
Definition settled (points : list point) (eps : num) (minPts : Z)
  (st : dbstate) : Prop :=
  (forall j, visited st !! j = Some true ->
     exists z, labels st !! j = Some (Some z)) /\
  (forall j, labels st !! j = Some (Some noise) ->
     ~ core points eps minPts j).

(** ** The sliders, the canvases and the events of the page *)

(** The [input] listeners of the two area sliders:
    [MIN_AREA = +e.target.value] and [MAX_AREA = +e.target.value]. *)
Definition on_min_input (value : num) (cfg : config) : config :=
  mkConfig value (MAX_AREA cfg) (EPS cfg).

Definition on_max_input (value : num) (cfg : config) : config :=
  mkConfig (MIN_AREA cfg) value (EPS cfg).

(** The text of the element [epsVal]: not written yet, ["auto (n)"] or the
    explicit value of [EPS]. *)
Inductive eps_text : Type :=
| NoText
| AutoText (auto : Z)
| ValueText (value : num).

(** The part of the page the analysis depends on: the tunables, the sizes
    of the two canvases and the text shown beside the eps slider. *)
Record page : Type := mkPage {
  page_cfg : config;
  overlay_width : Z;
  overlay_height : Z;
  work_width : Z;
  work_height : Z;
  epsVal : eps_text
}.

(** [Math.round(Math.max(w, h) * 0.065)] *)
Definition auto_eps (w h : Z) : Z :=
  round (inject_Z (Z.max w h) * (65 # 1000)).

(** [setAutoEps()]: while [EPS] is [null], show the automatic value. *)
Definition setAutoEps (pg : page) : page :=
  match EPS (page_cfg pg) with
  | None =>
      mkPage (page_cfg pg) (overlay_width pg) (overlay_height pg)
             (work_width pg) (work_height pg)
             (AutoText (auto_eps (work_width pg) (work_height pg)))
  | Some _ => pg
  end.

(** [resizeCanvases()], given [video.videoWidth] and [video.videoHeight]:
    a zero is replaced ([|| 1280], [|| 720]), both canvases take the size,
    then [setAutoEps()]. *)
Definition resizeCanvases (videoWidth videoHeight : Z) (pg : page) : page :=
  let w := if (videoWidth =? 0)%Z then 1280%Z else videoWidth in
  let h := if (videoHeight =? 0)%Z then 720%Z else videoHeight in
  setAutoEps (mkPage (page_cfg pg) w h w h (epsVal pg)).

(** What can happen to the page between two analyses. *)
Inductive event : Type :=
| EpsInput (value : num)
| MinInput (value : num)
| MaxInput (value : num)
| Resize (videoWidth videoHeight : Z).

Definition handle (pg : page) (ev : event) : page :=
  match ev with
  | EpsInput v =>
      mkPage (on_eps_input v (page_cfg pg)) (overlay_width pg)
             (overlay_height pg) (work_width pg) (work_height pg) (ValueText v)
  | MinInput v =>
      mkPage (on_min_input v (page_cfg pg)) (overlay_width pg)
             (overlay_height pg) (work_width pg) (work_height pg) (epsVal pg)
  | MaxInput v =>
      mkPage (on_max_input v (page_cfg pg)) (overlay_width pg)
             (overlay_height pg) (work_width pg) (work_height pg) (epsVal pg)
  | Resize vw vh => resizeCanvases vw vh pg
  end.

(** The eps that [analyzeFrame] takes on this page. *)
Definition page_eps (pg : page) : num :=
  effective_eps (page_cfg pg) (work_width pg) (work_height pg).

(** The value of the last eps event of a list, if there is one. *)
Fixpoint last_eps_input (evs : list event) (before : option num) : option num :=
  match evs with
  | [] => before
  | EpsInput v :: evs' => last_eps_input evs' (Some v)
  | _ :: evs' => last_eps_input evs' before
  end.

(** The number that the text beside the eps slider shows. *)
Definition shown (t : eps_text) : option num :=
  match t with
  | NoText => None
  | AutoText auto => Some (Fin (inject_Z auto))
  | ValueText v => Some v
  end.

(** The text beside the eps slider agrees with [EPS] and the canvas. *)
Definition in_sync (pg : page) : Prop :=
  match EPS (page_cfg pg) with
  | None => epsVal pg = AutoText (auto_eps (work_width pg) (work_height pg))
  | Some v => epsVal pg = ValueText v
  end.

(** ** Moving and resizing dots *)

(** The dot moved by [(a, b)]. *)
Definition translate (a b : Q) (p : point) : point :=
  mkPoint (Num.add (px p) (Fin a)) (Num.add (py p) (Fin b)) (pr p).

(** A map of the dots applied to every member of every tile. *)
Definition map_tiles (f : point -> point) (tiles : list (list point))
  : list (list point) :=
  (fun tile : list point => f <$> tile) <$> tiles.

(** The dot with another radius. *)
Definition with_radius (g : point -> num) (p : point) : point :=
  mkPoint (px p) (py p) (g p).

(** ** What [drawOverlay] draws *)

(** The calls on the 2D context that put something on the overlay, styles
    apart: [clearRect], a ring ([beginPath], [arc], [fill], [stroke]),
    [strokeRect], [fillRect] and [fillText] of the text of a number. *)
Inductive command : Type :=
| ClearRect (w h : Z)
| Ring (x y r : num)
| StrokeRect (x y w h : num)
| FillRect (x y w h : num)
| FillText (txt : nat) (x y : num).

Section Drawing.

(** [octx.measureText(String(n)).width] in the font of the labels. *)
Variable measureText : nat -> num.

(** The body of [clusters.forEach]: the box, the background of the label
    and the label, which is the number of members. *)
Definition draw_tile (cluster : list point) : list command :=
  let b := tile_box cluster in
  let txt := length cluster in
  let tw := Num.add (measureText txt) (Fin 12) in
  let th := Fin 28 in
  [ StrokeRect (minx b) (miny b)
      (Num.sub (maxx b) (minx b)) (Num.sub (maxy b) (miny b));
    FillRect (minx b) (Num.sub (miny b) th) tw th;
    FillText txt (Num.add (minx b) (Fin 6))
                 (Num.add (Num.sub (miny b) th) (Fin 4)) ].

(** [drawOverlay(dots, clusters)] on an overlay of the given size. *)
Definition drawOverlay (width height : Z) (dots : list point)
  (clusters : list (list point)) : list command :=
  ClearRect width height ::
  ((fun d => Ring (px d) (py d) (pr d)) <$> dots) ++
  concat (draw_tile <$> clusters).

End Drawing.

(** The rings and the labels among the commands, in drawing order. *)
Definition rings_of (cmds : list command) : list point :=
  omap (fun c => match c with Ring x y r => Some (mkPoint x y r) | _ => None end)
       cmds.

Definition labels_of (cmds : list command) : list nat :=
  omap (fun c => match c with FillText n _ _ => Some n | _ => None end) cmds.

(** ** The service worker (offline cache) *)

Module Worker.

(** The name of the cache of this version and the files it holds. *)
Definition CACHE : string := "domino-cache-v1".

Definition ASSETS : list string :=
  ["./"; "./index.html"; "./style.css"; "./app.js"; "./opencv.js";
   "./manifest.json"; "./icon.png"].

(** A cache maps request URLs to responses; the cache storage of the
    origin holds the named caches in the order of their creation, which is
    the order in which [caches.match] searches them. *)
Abbreviation cache response := (gmap string response).
Abbreviation storage response := (list (string * gmap string response)).

(** The network at some moment: the response to a URL, or [None] when the
    request fails or the answer is not an OK response.  A request is
    identified with its URL. *)
Abbreviation network response := (string -> option response).

Section Caches.

(** What a server answers; [resolve] turns a path relative to the worker
    into the URL a request carries. *)
Variable response : Type.
Variable resolve : string -> string.

Local Abbreviation cache := (cache response).
Local Abbreviation storage := (storage response).
Local Abbreviation network := (network response).

Fixpoint find_cache (name : string) (cs : storage) : option cache :=
  match cs with
  | [] => None
  | (k, c) :: cs' => if decide (k = name) then Some c else find_cache name cs'
  end.

(** [caches.open(name)]: the cache is created, empty, when it is not
    there. *)
Definition open (name : string) (cs : storage) : storage :=
  match find_cache name cs with
  | Some _ => cs
  | None => cs ++ [(name, ∅)]
  end.

(** The fetches of [cache.addAll(urls)]: all of them, or a failure. *)
Fixpoint fetch_all (net : network) (urls : list string)
  : option (list (string * response)) :=
  match urls with
  | [] => Some []
  | u :: us =>
      r ← net u; rs ← fetch_all net us; Some ((u, r) :: rs)
  end.

Definition put_all (c : cache) (entries : list (string * response)) : cache :=
  foldl (fun acc entry => <[entry.1 := entry.2]> acc) c entries.

(** [cache.addAll(urls)] on the cache [name]: nothing is stored unless
    every fetch succeeds. *)
Definition addAll (net : network) (name : string) (urls : list string)
  (cs : storage) : option storage :=
  entries ← fetch_all net (resolve <$> urls);
  Some ((fun entry : string * cache =>
           if decide (entry.1 = name)
           then (entry.1, put_all entry.2 entries) else entry) <$> cs).

(** The [install] listener; [None] when the promise given to
    [waitUntil] is rejected (the storage is then as [open] left it). *)
Definition install (net : network) (cs : storage) : storage * bool :=
  let cs1 := open CACHE cs in
  match addAll net CACHE ASSETS cs1 with
  | Some cs2 => (cs2, true)
  | None => (cs1, false)
  end.

(** The [activate] listener: every cache with another name is deleted. *)
Definition activate (cs : storage) : storage :=
  filter (fun entry => entry.1 = CACHE) cs.

(** [caches.match(request)]: the first cache, in creation order, that has
    the URL. *)
Fixpoint caches_match (cs : storage) (url : string) : option response :=
  match cs with
  | [] => None
  | (_, c) :: cs' =>
      match c !! url with
      | Some r => Some r
      | None => caches_match cs' url
      end
  end.

(** The [fetch] listener: the cached response if there is one, the
    network otherwise. *)
Definition on_fetch (net : network) (cs : storage) (url : string)
  : option response :=
  match caches_match cs url with
  | Some r => Some r
  | None => net url
  end.

End Caches.

End Worker.

(** ** The same functions on binary64 numbers *)

(** The numbers of the source are IEEE 754 binary64 values, and every
    [+], [-], [*] and comparison of [regionQuery] and of the box of
    [drawOverlay] is the binary64 operation, rounded to nearest.  This
    module embeds these functions over the binary64 numbers themselves;
    it is the reference for what depends on rounding, overflow or
    underflow. *)
Module Double.

Import Floats.
Local Open Scope float_scope.

(** A dot [{x, y, r}]. *)
Record dot : Type := mkDot { x : float; y : float; r : float }.

(** The test of [regionQuery]: [(dx*dx + dy*dy) <= eps*eps]. *)
Definition within (eps : float) (p q : dot) : bool :=
  let dx := x p - x q in
  let dy := y p - y q in
  dx * dx + dy * dy <=? eps * eps.

(** The loop [for (let j=0; j<N; j++)] of [regionQuery], started at
    index [j] on the points that remain from there. *)
Fixpoint regionQuery_from (eps : float) (p : dot) (qs : list dot) (j : nat)
  : list nat :=
  match qs with
  | [] => []
  | q :: qs' =>
      if within eps p q
      then j :: regionQuery_from eps p qs' (S j)
      else regionQuery_from eps p qs' (S j)
  end.

(** [regionQuery(i)]; reading [p.x] of an undefined [points[i]] throws. *)
Definition regionQuery (points : list dot) (eps : float) (i : nat)
  : result (list nat) :=
  match points !! i with
  | Some p => Ok (regionQuery_from eps p points 0)
  | None => match points with [] => Ok [] | _ :: _ => TypeError end
  end.

Section Clusterer.

Variable points : list dot.
Variable eps : float.
Variable minPts : Z.

(** [if (!visited[n]) { visited[n] = true; ... seeds.add(x) ... }] *)
Definition probe (n : nat) (seeds : list nat) (visited : list bool)
  : result (list nat * list bool) :=
  if truthy_at visited n then Ok (seeds, visited)
  else
    let visited1 := array_set false n true visited in
    nbs2 ← regionQuery points eps n;
    if (minPts <=? Z.of_nat (length nbs2))%Z
    then Ok (set_add_all nbs2 seeds, visited1)
    else Ok (seeds, visited1).

(** The expansion loop [for (const n of seeds)], with the iterator at
    position [k] of the set. *)
Fixpoint expand (clusterIdx : Z) (fuel : nat) (k : nat) (seeds : list nat)
  (st : dbstate) : result dbstate :=
  match seeds !! k with
  | None => Ok st
  | Some n =>
      match fuel with
      | O => OutOfFuel
      | S fuel' =>
          sv ← probe n seeds (visited st);
          expand clusterIdx fuel' (S k) (fst sv)
            (mkState (snd sv) (claim clusterIdx n (labels st)) (C st))
      end
  end.

(** The body of the main loop [for (let i=0; i<N; i++)]. *)
Definition visit (i : nat) (st : dbstate) : result dbstate :=
  if truthy_at (visited st) i then Ok st
  else
    let visited1 := array_set false i true (visited st) in
    neighbors ← regionQuery points eps i;
    if (Z.of_nat (length neighbors) <? minPts)%Z
    then Ok (mkState visited1 (array_set None i (Some noise) (labels st)) (C st))
    else
      let clusterIdx := Z.of_nat (C st) in
      let st1 := mkState visited1
                   (array_set None i (Some clusterIdx) (labels st))
                   (S (C st)) in
      let seeds := set_delete i (set_of_array neighbors) in
      expand clusterIdx (length points) 0 seeds st1.

Fixpoint scan (idxs : list nat) (st : dbstate) : result dbstate :=
  match idxs with
  | [] => Ok st
  | i :: idxs' => st' ← visit i st; scan idxs' st'
  end.

Definition label_pass : result dbstate :=
  let N := length points in
  scan (seq 0 N) (initial N).

End Clusterer.

(** The conversion loop over the points from index [i] on. *)
Fixpoint collect (labels : list (option Z)) (ps : list dot) (i : nat)
  (clusters : list (list dot)) : result (list (list dot)) :=
  match ps with
  | [] => Ok clusters
  | p :: ps' =>
      let lab := label_at labels i in
      if unlabelled lab then collect labels ps' (S i) (clusters ++ [[p]])
      else
        match lab with
        | Some z =>
            if decide (0 <= z)%Z then
              match clusters !! Z.to_nat z with
              | Some arr =>
                  collect labels ps' (S i) (<[Z.to_nat z := arr ++ [p]]> clusters)
              | None => TypeError
              end
            else TypeError
        | None => TypeError
        end
  end.

(** [dbscan(points, eps, minPts)]: the array of tiles. *)
Definition dbscan (points : list dot) (eps : float) (minPts : Z)
  : result (list (list dot)) :=
  st ← label_pass points eps minPts;
  clusters ← collect (labels st) points 0 (replicate (C st) []);
  Ok (filter (fun arr : list dot => (0 < length arr)%nat) clusters).

(** *** The tile box *)

(** The two zeros, [+0] and [-0]. *)
Definition is_pzero (a : float) : bool :=
  match classify a with FloatClass.PZero => true | _ => false end.

Definition is_nzero (a : float) : bool :=
  match classify a with FloatClass.NZero => true | _ => false end.

(** [Math.min(a, b)]: NaN when an argument is NaN; [-0] counts as smaller
    than [+0]. *)
Definition Math_min (a b : float) : float :=
  if is_nan a || is_nan b then nan
  else if (b <? a) || (is_pzero a && is_nzero b) then b
  else a.

(** [Math.max(a, b)]: NaN when an argument is NaN; [+0] counts as larger
    than [-0]. *)
Definition Math_max (a b : float) : float :=
  if is_nan a || is_nan b then nan
  else if (a <? b) || (is_nzero a && is_pzero b) then b
  else a.

Record box : Type := mkBox {
  minx : float; miny : float; maxx : float; maxy : float
}.

Definition pad : float := 10.

(** The inner [cluster.forEach]: one member widens the box. *)
Definition widen (b : box) (p : dot) : box :=
  mkBox (Math_min (minx b) (x p - r p))
        (Math_min (miny b) (y p - r p))
        (Math_max (maxx b) (x p + r p))
        (Math_max (maxy b) (y p + r p)).

(** The box drawn around a tile: grown from
    [(Infinity, Infinity, -Infinity, -Infinity)] over the members, then
    padded. *)
Definition tile_box (cluster : list dot) : box :=
  let b := foldl widen (mkBox infinity infinity neg_infinity neg_infinity)
                 cluster in
  mkBox (minx b - pad) (miny b - pad) (maxx b + pad) (maxy b + pad).

(** The number written on the tile, [cluster.length]. *)
Definition pipCount (cluster : list dot) : nat := length cluster.

(** No side of the box of a dot is NaN. *)
Definition sides_not_nan (p : dot) : Prop :=
  is_nan (x p - r p) = false /\ is_nan (y p - r p) = false /\
  is_nan (x p + r p) = false /\ is_nan (y p + r p) = false.

(** [m] is the least of the numbers [l] in the order of [<=]: one of
    them, and below each. *)
Definition least (m : float) (l : list float) : Prop :=
  m ∈ l /\ forall v, v ∈ l -> (m <=? v) = true.

(** [m] is the greatest of the numbers [l]: one of them, and above
    each. *)
Definition greatest (m : float) (l : list float) : Prop :=
  m ∈ l /\ forall v, v ∈ l -> (v <=? m) = true.

(** *** The rational a number stands for *)

(** The exact value of a finite binary64 number, [(-1)^s * m * 2^e], as
    a fraction in lowest terms; [None] for the infinities and NaN. *)
Definition value (a : float) : option Q :=
  match Prim2SF a with
  | S754_zero _ => Some 0%Q
  | S754_finite s m e =>
      let n := cond_Zopp s (Z.pos m) in
      Some (Qred (if (0 <=? e)%Z then inject_Z (n * 2 ^ e)
                  else n # 2 ^ Z.to_pos (- e)))
  | _ => None
  end.

(** A finite number as a multiple of [2^-1074], the least positive
    binary64 number. *)
Definition scaled (f : spec_float) : Z :=
  match f with
  | S754_finite s m e => cond_Zopp s (Z.pos m * 2 ^ (e + 1074))
  | _ => 0%Z
  end.

(** A number that is neither an infinity nor NaN. *)
Definition finite (a : float) : bool :=
  match value a with Some _ => true | None => false end.

(** A dot whose center has finite coordinates. *)
Definition finite_center (p : dot) : Prop :=
  finite (x p) = true /\ finite (y p) = true.

(** No two different points pass the test of [regionQuery] at [eps = 0]:
    the computed [dx*dx + dy*dy] is above zero. *)
Definition isolated (points : list dot) : Prop :=
  forall i j p q, points !! i = Some p -> points !! j = Some q ->
    i <> j -> within 0 p q = false.

(** *** The test of [regionQuery] without rounding *)

(** The exact square of the distance between two centers. *)
Definition exact_d2 (p q : dot) : option Q :=
  match value (x p), value (y p), value (x q), value (y q) with
  | Some xp, Some yp, Some xq, Some yq =>
      Some ((xp - xq) * (xp - xq) + (yp - yq) * (yp - yq))%Q
  | _, _, _, _ => None
  end.

(** The exact square of [eps]. *)
Definition exact_sq (eps : float) : option Q :=
  match value eps with
  | Some e => Some (e * e)%Q
  | None => None
  end.

(** The two sides of the test are computed without rounding error: the
    computed [dx*dx + dy*dy] has the exact value [D] of the squared
    distance, and the computed [eps*eps] the exact value [E] of the
    square of [eps]. *)
Definition unrounded (eps : float) (p q : dot) (D E : Q) : Prop :=
  let dx := x p - x q in
  let dy := y p - y q in
  exact_d2 p q = Some D /\ exact_sq eps = Some E /\
  exists d e, value (dx * dx + dy * dy) = Some d /\
              value (eps * eps) = Some e /\ (d == D)%Q /\ (e == E)%Q.

(** The Euclidean distance between two centers with finite coordinates,
    as a real number. *)
Definition distance (p q : dot) : R :=
  match exact_d2 p q with
  | Some D => R_sqrt.sqrt (Q2R D)
  | None => 0%R
  end.

(** *** Sample data *)

Definition dot5 (a b : float) : dot := mkDot a b 5.

(** Scenario D of the specification. *)
Definition four_dots : list dot :=
  [dot5 0 0; dot5 5 0; dot5 0 5; dot5 100 100].

(** Three dots on a line, 5 and 10 away from the first. *)
Definition on_a_line : list dot := [dot5 0 0; dot5 3 4; dot5 6 8].

End Double.

(** * Properties *)

(** Case analysis on two indices of an array: the same entry, or another
    one (the inequality is named [Hne]). *)
Ltac same_or_other j i := destruct (decide (j = i)) as [->|Hne].

(** ** Arrays *)

Lemma array_set_in_range {A : Type} (hole : A) (i : nat) (v : A) (a : list A) :
  (i < length a)%nat -> array_set hole i v a = <[i := v]> a.
Proof. intros Hi. unfold array_set. by rewrite decide_True. Qed.

Lemma truthy_at_true (a : list bool) (i : nat) :
  truthy_at a i = true <-> a !! i = Some true.
Proof.
  unfold truthy_at. destruct (a !! i) as [[]|]; simpl; split; congruence.
Qed.

Lemma label_at_lookup (a : list (option Z)) (i : nat) (l : option Z) :
  a !! i = Some l -> label_at a i = l.
Proof. unfold label_at. by intros ->. Qed.

Lemma unlabelled_cluster (c : nat) : unlabelled (Some (Z.of_nat c)) = false.
Proof. unfold unlabelled, noise. apply Z.eqb_neq. lia. Qed.

Lemma unlabelled_false (l : option Z) :
  unlabelled l = false -> exists z, l = Some z /\ z <> noise.
Proof.
  destruct l as [z|]; simpl; [|done].
  intros H%Z.eqb_neq. eauto.
Qed.

Lemma filter_all {A : Type} (P : A -> Prop) `{!forall x, Decision (P x)}
    (l : list A) :
  Forall P l -> filter P l = l.
Proof.
  induction 1 as [|x l Hx _ IH]; [done|].
  by rewrite filter_cons_True, IH.
Qed.

(** ** The neighbour query *)

Lemma elem_of_regionQuery_from eps p qs j x :
  x ∈ regionQuery_from eps p qs j <->
  exists q, (j <= x)%nat /\ qs !! (x - j)%nat = Some q /\ within eps p q = true.
Proof.
  revert j. induction qs as [|q0 qs IH]; intros j; simpl.
  - split; [by intros ?%elem_of_nil | by intros (? & _ & ? & _)].
  - assert (Hrec : x ∈ regionQuery_from eps p qs (S j) <->
                   exists q, (S j <= x)%nat /\ (q0 :: qs) !! (x - j)%nat = Some q
                             /\ within eps p q = true).
    { rewrite IH. split; intros (q & Hle & Hq & Hw); exists q;
        (split; [done|]); (split; [|done]).
      - replace (x - j)%nat with (S (x - S j)) by lia. done.
      - replace (x - j)%nat with (S (x - S j)) in Hq by lia. done. }
    destruct (within eps p q0) eqn:Hq0.
    + rewrite elem_of_cons, Hrec. split.
      * intros [->|(q & Hle & Hq & Hw)].
        -- exists q0. rewrite Nat.sub_diag. done.
        -- exists q. split; [lia|done].
      * intros (q & Hle & Hq & Hw).
        same_or_other x j; [by left|right].
        exists q. split; [lia|done].
    + rewrite Hrec. split.
      * intros (q & Hle & Hq & Hw). exists q. split; [lia|done].
      * intros (q & Hle & Hq & Hw).
        same_or_other x j.
        -- rewrite Nat.sub_diag in Hq. simpl in Hq. congruence.
        -- exists q. split; [lia|done].
Qed.

Lemma regionQuery_from_bounds eps p qs j x :
  x ∈ regionQuery_from eps p qs j -> (j <= x < j + length qs)%nat.
Proof.
  rewrite elem_of_regionQuery_from. intros (q & Hle & Hq & _).
  apply lookup_lt_Some in Hq. lia.
Qed.

Lemma regionQuery_from_NoDup eps p qs j : NoDup (regionQuery_from eps p qs j).
Proof.
  revert j. induction qs as [|q0 qs IH]; intros j; simpl; [constructor|].
  destruct (within eps p q0); [|done].
  constructor; [|done].
  intros Hin%regionQuery_from_bounds. lia.
Qed.

(** Membership in the answer of [regionQuery(i)]. *)
Lemma elem_of_regionQuery points eps i p nbs j :
  points !! i = Some p ->
  regionQuery points eps i = Ok nbs ->
  j ∈ nbs <-> exists q, points !! j = Some q /\ within eps p q = true.
Proof.
  unfold regionQuery. intros -> [= <-].
  rewrite elem_of_regionQuery_from. setoid_rewrite Nat.sub_0_r.
  split; intros (q & H); exists q; intuition lia.
Qed.

Lemma regionQuery_in_range points eps i :
  (i < length points)%nat ->
  exists nbs, regionQuery points eps i = Ok nbs /\ NoDup nbs /\
              Forall (fun j => (j < length points)%nat) nbs.
Proof.
  intros Hi. destruct (lookup_lt_is_Some_2 points i Hi) as [p Hp].
  unfold regionQuery. rewrite Hp. eexists. split; [done|].
  split; [apply regionQuery_from_NoDup|].
  apply Forall_forall. intros j Hj%regionQuery_from_bounds. lia.
Qed.

(** ** The seed set *)

Lemma elem_of_set_add x y s : x ∈ set_add y s <-> x ∈ s \/ x = y.
Proof.
  unfold set_add. destruct (decide (y ∈ s)).
  - split; [by left|]. intros [?| ->]; done.
  - rewrite elem_of_app, list_elem_of_singleton. done.
Qed.

Lemma set_add_NoDup y s : NoDup s -> NoDup (set_add y s).
Proof.
  unfold set_add. destruct (decide (y ∈ s)); [done|].
  intros Hs. apply NoDup_app. split; [done|].
  split; [|apply NoDup_singleton].
  intros x Hx ->%list_elem_of_singleton. done.
Qed.

Lemma elem_of_set_add_all x xs s : x ∈ set_add_all xs s <-> x ∈ s \/ x ∈ xs.
Proof.
  unfold set_add_all. revert s. induction xs as [|y xs IH]; intros s; simpl.
  - rewrite elem_of_nil. tauto.
  - rewrite IH, elem_of_set_add, elem_of_cons. tauto.
Qed.

Lemma set_add_all_NoDup xs s : NoDup s -> NoDup (set_add_all xs s).
Proof.
  unfold set_add_all. revert s. induction xs as [|y xs IH]; intros s Hs; simpl.
  - done.
  - apply IH, set_add_NoDup, Hs.
Qed.

Lemma set_delete_NoDup x s : NoDup s -> NoDup (set_delete x s).
Proof. apply NoDup_filter. Qed.

Lemma elem_of_set_delete y x s : y ∈ set_delete x s <-> y ≠ x /\ y ∈ s.
Proof. unfold set_delete. by rewrite list_elem_of_filter. Qed.

(** A set of indices below [N] has at most [N] elements. *)
Lemma bounded_NoDup_length (N : nat) (s : list nat) :
  NoDup s -> Forall (fun j => (j < N)%nat) s -> (length s <= N)%nat.
Proof.
  intros Hnd Hall.
  assert (Hsub : s ⊆ seq 0 N).
  { intros x Hx. apply elem_of_seq. rewrite Forall_forall in Hall.
    specialize (Hall x Hx). lia. }
  apply NoDup_submseteq in Hsub; [|done].
  apply submseteq_length in Hsub. by rewrite length_seq in Hsub.
Qed.

(** ** Invariants of the labelling pass *)

Section Invariants.

Variable points : list point.
Variable eps : num.
Variable minPts : Z.

Let N := length points.

Lemma mark_mono (v : list bool) (n : nat) :
  (n < length v)%nat -> mono v (array_set false n true v).
Proof.
  intros Hn j Hj. rewrite array_set_in_range by done.
  same_or_other n j.
  - by rewrite list_lookup_insert_eq.
  - by rewrite list_lookup_insert_ne.
Qed.

Lemma probe_ok n seeds v :
  (n < N)%nat -> length v = N ->
  NoDup seeds -> Forall (fun j => (j < N)%nat) seeds ->
  exists seeds' v',
    probe points eps minPts n seeds v = Ok (seeds', v') /\
    NoDup seeds' /\ Forall (fun j => (j < N)%nat) seeds' /\
    (forall k x, seeds !! k = Some x -> seeds' !! k = Some x) /\
    length v' = N /\ mono v v' /\ v' !! n = Some true /\
    (forall j, j <> n -> v' !! j = v !! j).
Proof.
  intros Hn Hv Hnd Hall. unfold probe.
  destruct (truthy_at v n) eqn:Ht.
  - exists seeds, v. apply truthy_at_true in Ht.
    repeat split; [done|done|done|done|by intros j Hj|done].
  - destruct (regionQuery_in_range points eps n Hn) as (nbs & -> & Hnbs & Hlt).
    assert (Hset : array_set false n true v !! n = Some true).
    { rewrite array_set_in_range by lia. apply list_lookup_insert_eq. lia. }
    assert (Hoth : forall j, j <> n -> array_set false n true v !! j = v !! j).
    { intros j Hj. rewrite array_set_in_range by lia.
      by apply list_lookup_insert_ne. }
    assert (Hlen : length (array_set false n true v) = N).
    { rewrite array_set_in_range by lia. by rewrite length_insert. }
    simpl. destruct (minPts <=? Z.of_nat (length nbs))%Z.
    + eexists _, _. split; [done|].
      split; [by apply set_add_all_NoDup|].
      split.
      { apply Forall_forall. intros x [Hx|Hx]%elem_of_set_add_all.
        - by eapply Forall_forall in Hall.
        - by eapply Forall_forall in Hlt. }
      split.
      { clear. unfold set_add_all. revert seeds.
        induction nbs as [|y ys IH]; intros seeds k x Hk; simpl; [done|].
        apply IH. unfold set_add. destruct (decide (y ∈ seeds)); [done|].
        by apply lookup_app_l_Some. }
      split; [done|]. split; [apply mark_mono; lia|]. done.
    + eexists _, _. split; [done|].
      repeat split; try done. apply mark_mono; lia.
Qed.

Lemma claim_length cid n ls : (n < length ls)%nat ->
  length (claim cid n ls) = length ls.
Proof.
  intros Hn. unfold claim. destruct (unlabelled _); [|done].
  rewrite array_set_in_range by done. by rewrite length_insert.
Qed.

Lemma claim_other cid n ls j : (n < length ls)%nat -> j <> n ->
  claim cid n ls !! j = ls !! j.
Proof.
  intros Hn Hj. unfold claim. destruct (unlabelled _); [|done].
  rewrite array_set_in_range by done. by apply list_lookup_insert_ne.
Qed.

(** After [claim] the point [n] carries the new id, or keeps the id of
    the cluster that had it before. *)
Lemma claim_same cid n ls : (n < length ls)%nat ->
  (unlabelled (label_at ls n) = true /\ claim cid n ls !! n = Some (Some cid)) \/
  (exists z, z <> noise /\ ls !! n = Some (Some z) /\ claim cid n ls = ls).
Proof.
  intros Hn. unfold claim. destruct (unlabelled (label_at ls n)) eqn:Hu.
  - left. split; [done|]. rewrite array_set_in_range by done.
    by apply list_lookup_insert_eq.
  - right. apply unlabelled_false in Hu as (z & Hz & Hne).
    exists z. split; [done|]. split; [|done].
    destruct (lookup_lt_is_Some_2 ls n Hn) as [l Hl].
    rewrite (label_at_lookup _ _ _ Hl) in Hz. by subst.
Qed.

Lemma claim_wf c n st v' :
  (n < N)%nat -> (c < C st)%nat -> wf N st -> length v' = N ->
  mono (visited st) v' -> v' !! n = Some true ->
  wf N (mkState v' (claim (Z.of_nat c) n (labels st)) (C st)).
Proof.
  intros Hn Hc [Hv Hl Hr Hi Hs] Hv' Hmono Hvn.
  assert (Hn' : (n < length (labels st))%nat) by lia.
  split; simpl.
  - done.
  - by rewrite claim_length.
  - intros j z Hj. same_or_other j n.
    + destruct (claim_same (Z.of_nat c) n (labels st) Hn')
        as [[_ Hc']|(z' & _ & Hc' & Heq)].
      * rewrite Hc' in Hj. injection Hj as <-. right. lia.
      * rewrite Heq in Hj. by eapply Hr.
    + rewrite claim_other in Hj by done. by eapply Hr.
  - intros c' Hc'. destruct (Hi c' Hc') as [j Hj]. exists j.
    same_or_other j n.
    + destruct (claim_same (Z.of_nat c) n (labels st) Hn')
        as [[Hu _]|(z' & _ & _ & Heq)].
      * rewrite (label_at_lookup _ _ _ Hj), unlabelled_cluster in Hu. done.
      * by rewrite Heq.
    + by rewrite claim_other.
  - intros j z Hj. same_or_other j n; [done|].
    rewrite claim_other in Hj by done. by eapply Hmono, Hs.
Qed.

Lemma claim_tagged c n st v' :
  (n < N)%nat -> wf N st -> tagged st -> v' !! n = Some true ->
  (forall j, j <> n -> v' !! j = visited st !! j) ->
  tagged (mkState v' (claim (Z.of_nat c) n (labels st)) (C st)).
Proof.
  intros Hn [Hv Hl Hr Hi _] [Hnn Hvis] Hvn Hoth.
  assert (Hn' : (n < length (labels st))%nat) by lia.
  split; simpl.
  - intros j Hj. same_or_other j n.
    + destruct (claim_same (Z.of_nat c) n (labels st) Hn')
        as [[_ Hs]|(z' & Hz' & Hs & Heq)].
      * rewrite Hs in Hj. injection Hj as Hj. unfold noise in Hj. lia.
      * rewrite Heq in Hj. by eapply Hnn.
    + rewrite claim_other in Hj by done. by eapply Hnn.
  - intros j Hj. same_or_other j n.
    + destruct (claim_same (Z.of_nat c) n (labels st) Hn')
        as [[_ Hs]|(z' & Hz' & Hs & Heq)]; [by eauto|].
      rewrite Heq. by eauto.
    + rewrite claim_other by done. apply Hvis. by rewrite <- Hoth.
Qed.

(** The expansion loop ends within [N] steps, whatever the state it
    starts from, and keeps the invariants. *)
Lemma expand_ok fuel : forall k seeds st c,
  wf N st -> (c < C st)%nat ->
  NoDup seeds -> Forall (fun j => (j < N)%nat) seeds ->
  (N <= fuel + k)%nat ->
  exists st',
    expand points eps minPts (Z.of_nat c) fuel k seeds st = Ok st' /\
    wf N st' /\ C st' = C st /\ mono (visited st) (visited st') /\
    (tagged st -> tagged st').
Proof.
  induction fuel as [|fuel IH]; intros k seeds st c Hwf Hc Hnd Hall Hfuel;
    simpl; destruct (seeds !! k) as [n|] eqn:Hk;
    try (exists st; split; [done|]; split; [done|]; split; [done|];
         split; [by intros j Hj|done]).
  - apply lookup_lt_Some in Hk.
    pose proof (bounded_NoDup_length N seeds Hnd Hall). lia.
  - assert (Hn : (n < N)%nat).
    { rewrite Forall_forall in Hall. apply Hall. by eapply list_elem_of_lookup_2. }
    destruct (probe_ok n seeds (visited st) Hn (wf_visited _ _ Hwf) Hnd Hall)
      as (seeds' & v' & -> & Hnd' & Hall' & _ & Hlen & Hmono & Hvn & Hoth).
    simpl.
    destruct (IH (S k) seeds'
                (mkState v' (claim (Z.of_nat c) n (labels st)) (C st)) c)
      as (st' & Hrun & Hwf' & HC & Hmono' & Htag); try done.
    + by apply claim_wf.
    + lia.
    + exists st'. split; [done|]. split; [done|]. split; [done|].
      split.
      * intros j Hj. by apply Hmono', Hmono.
      * intros Ht. apply Htag. by apply claim_tagged.
Qed.

Lemma visit_ok i st :
  (i < N)%nat -> wf N st ->
  exists st',
    visit points eps minPts i st = Ok st' /\
    wf N st' /\ mono (visited st) (visited st') /\
    visited st' !! i = Some true /\
    (all_core points eps minPts -> tagged st -> tagged st').
Proof.
  intros Hi Hwf. unfold visit.
  destruct (truthy_at (visited st) i) eqn:Ht.
  { exists st. apply truthy_at_true in Ht.
    split; [done|]. split; [done|]. split; [by intros j Hj|]. done. }
  pose proof Hwf as [Hv Hl Hr Hinh Hseen].
  assert (Hnot : visited st !! i <> Some true).
  { intros H%truthy_at_true. congruence. }
  assert (Hnone : labels st !! i = Some None).
  { destruct (lookup_lt_is_Some_2 (labels st) i) as [[z|] Hz]; [lia| |done].
    by apply Hseen in Hz. }
  destruct (lookup_lt_is_Some_2 points i Hi) as [p Hp].
  unfold regionQuery. rewrite Hp. simpl.
  set (nbs := regionQuery_from eps p points 0).
  assert (Hvlen : length (array_set false i true (visited st)) = N).
  { rewrite array_set_in_range by lia. by rewrite length_insert. }
  assert (Hvi : array_set false i true (visited st) !! i = Some true).
  { rewrite array_set_in_range by lia. apply list_lookup_insert_eq. lia. }
  assert (Hvo : forall j, j <> i ->
            array_set false i true (visited st) !! j = visited st !! j).
  { intros j Hj. rewrite array_set_in_range by lia.
    by apply list_lookup_insert_ne. }
  assert (Hmono : mono (visited st) (array_set false i true (visited st))).
  { apply mark_mono. lia. }
  assert (Hli : forall l, array_set None i (Some l) (labels st) !! i = Some (Some l)).
  { intros l. rewrite array_set_in_range by lia. apply list_lookup_insert_eq. lia. }
  assert (Hlo : forall l j, j <> i ->
            array_set None i (Some l) (labels st) !! j = labels st !! j).
  { intros l j Hj. rewrite array_set_in_range by lia.
    by apply list_lookup_insert_ne. }
  assert (Hllen : forall l, length (array_set None i (Some l) (labels st)) = N).
  { intros l. rewrite array_set_in_range by lia. by rewrite length_insert. }
  destruct (Z.of_nat (length nbs) <? minPts)%Z eqn:Hcmp.
  - (* noise *)
    eexists. split; [done|]. split; [|split; [done|split; [done|]]].
    + split; simpl; try done.
      * intros j z Hj. same_or_other j i.
        -- rewrite Hli in Hj. injection Hj as <-. by left.
        -- rewrite Hlo in Hj by done. by eapply Hr.
      * intros c Hc. destruct (Hinh c Hc) as [j Hj]. exists j.
        rewrite Hlo; [done|]. intros ->. congruence.
      * intros j z Hj. same_or_other j i; [done|].
        rewrite Hlo in Hj by done. rewrite Hvo by done. by eapply Hseen.
    + intros Hcore _. specialize (Hcore i p Hp). fold nbs in Hcore.
      apply Z.ltb_lt in Hcmp. lia.
  - (* a new cluster *)
    set (st1 := mkState _ _ _).
    assert (Hwf1 : wf N st1).
    { split; subst st1; simpl; try done.
      - intros j z Hj. same_or_other j i.
        + rewrite Hli in Hj. injection Hj as <-. right. lia.
        + rewrite Hlo in Hj by done.
          destruct (Hr j z Hj) as [?|?]; [by left|right; lia].
      - intros c Hc. destruct (decide (c = C st)) as [->|Hne].
        + exists i. apply Hli.
        + destruct (Hinh c) as [j Hj]; [lia|]. exists j.
          rewrite Hlo; [done|]. intros ->. congruence.
      - intros j z Hj. same_or_other j i; [done|].
        rewrite Hlo in Hj by done. rewrite Hvo by done. by eapply Hseen. }
    destruct (expand_ok (length points) 0
                (set_delete i (set_of_array nbs)) st1 (C st))
      as (st' & Hrun & Hwf' & HC & Hmono' & Htag); try done.
    + subst st1. simpl. lia.
    + apply set_delete_NoDup, set_add_all_NoDup, NoDup_nil_2.
    + apply Forall_forall.
      intros x (_ & [Hx%elem_of_nil|Hx]%elem_of_set_add_all)%elem_of_set_delete;
        [done|].
      apply regionQuery_from_bounds in Hx. unfold N. lia.
    + unfold N. lia.
    + exists st'. split; [done|]. split; [done|].
      split; [intros j Hj; by apply Hmono', Hmono|].
      split; [by apply Hmono'|].
      intros _ [Hnn Hvis]. apply Htag. split; subst st1; simpl.
      * intros j Hj. same_or_other j i.
        -- rewrite Hli in Hj. injection Hj as Hj. unfold noise in Hj. lia.
        -- rewrite Hlo in Hj by done. by eapply Hnn.
      * intros j Hj. same_or_other j i; [by eauto|].
        rewrite Hlo by done. apply Hvis. by rewrite <- Hvo.
Qed.

Lemma scan_ok idxs : forall st,
  Forall (fun j => (j < N)%nat) idxs -> wf N st ->
  exists st',
    scan points eps minPts idxs st = Ok st' /\
    wf N st' /\ mono (visited st) (visited st') /\
    (forall i, i ∈ idxs -> visited st' !! i = Some true) /\
    (all_core points eps minPts -> tagged st -> tagged st').
Proof.
  induction idxs as [|i idxs IH]; intros st Hall Hwf; simpl.
  - exists st. split; [done|]. split; [done|]. split; [by intros j Hj|].
    split; [|done]. by intros i ?%elem_of_nil.
  - apply Forall_cons in Hall as [Hi Hall].
    destruct (visit_ok i st Hi Hwf) as (st1 & -> & Hwf1 & Hm1 & Hvi & Ht1).
    simpl.
    destruct (IH st1 Hall Hwf1) as (st' & Hrun & Hwf' & Hm' & Hvis & Ht').
    exists st'. split; [done|]. split; [done|].
    split; [intros j Hj; by apply Hm', Hm1|].
    split.
    + intros j [->|Hj]%elem_of_cons; [by apply Hm'|by apply Hvis].
    + intros Hcore Ht. by apply Ht', Ht1.
Qed.

Lemma initial_wf : wf N (initial N).
Proof.
  split; simpl.
  - by rewrite length_replicate.
  - by rewrite length_replicate.
  - intros j z (H & _)%lookup_replicate. done.
  - intros c Hc. lia.
  - intros j z (H & _)%lookup_replicate. done.
Qed.

Lemma initial_tagged : tagged (initial N).
Proof.
  split; simpl.
  - intros j (H & _)%lookup_replicate. done.
  - intros j (H & _)%lookup_replicate. done.
Qed.

(** The labelling pass always ends with a well-formed state in which every
    point has been visited. *)
Lemma label_pass_ok :
  exists st,
    label_pass points eps minPts = Ok st /\ wf N st /\
    (forall i, (i < N)%nat -> visited st !! i = Some true) /\
    (all_core points eps minPts -> tagged st).
Proof.
  unfold label_pass. fold N.
  destruct (scan_ok (seq 0 N) (initial N)) as (st & Hrun & Hwf & _ & Hvis & Ht).
  - apply Forall_forall. intros j Hj%elem_of_seq. lia.
  - apply initial_wf.
  - exists st. split; [done|]. split; [done|]. split.
    + intros i Hi. apply Hvis, elem_of_seq. lia.
    + intros Hcore. apply Ht; [done|]. apply initial_tagged.
Qed.

End Invariants.

(** ** From labels to tiles *)

Lemma cluster_members_S points ls n c :
  cluster_members points ls (S n) c =
  cluster_members points ls n c ++
  (if decide (label_at ls n = Some (Z.of_nat c))
   then at_indices points [n] else []).
Proof.
  unfold cluster_members, at_indices.
  rewrite seq_S, filter_app, omap_app. simpl. f_equal.
  rewrite filter_cons, filter_nil. by destruct (decide _).
Qed.

Lemma promoted_S points ls n :
  promoted points ls (S n) =
  promoted points ls n ++
  (if unlabelled (label_at ls n)
   then (fun p => [p]) <$> at_indices points [n] else []).
Proof.
  unfold promoted, at_indices.
  rewrite seq_S, filter_app, omap_app, fmap_app. simpl. f_equal.
  rewrite filter_cons, filter_nil.
  destruct (unlabelled (label_at ls n)); by destruct (decide _).
Qed.

Lemma at_indices_here pre p ps :
  at_indices (pre ++ p :: ps) [length pre] = [p].
Proof.
  unfold at_indices. simpl. by rewrite list_lookup_middle.
Qed.

(** The conversion loop does not throw when every label is the noise mark
    or an index of [clusters], and it builds the expected tiles. *)
Lemma collect_closed points ls Cn :
  (forall j z, label_at ls j = Some z ->
     z = noise \/ (0 <= z < Z.of_nat Cn)%Z) ->
  forall ps pre, points = pre ++ ps ->
    collect ls ps (length pre)
      ((cluster_members points ls (length pre) <$> seq 0 Cn)
        ++ promoted points ls (length pre))
    = Ok ((cluster_members points ls (length points) <$> seq 0 Cn)
        ++ promoted points ls (length points)).
Proof.
  intros Hrange ps. induction ps as [|p ps IH]; intros pre Hpts.
  - simpl. rewrite app_nil_r in Hpts. by subst.
  - simpl.
    assert (Hpts' : points = (pre ++ [p]) ++ ps) by by rewrite <- app_assoc.
    specialize (IH _ Hpts'). rewrite length_app in IH. simpl in IH.
    rewrite Nat.add_1_r in IH.
    assert (Hhere : at_indices points [length pre] = [p])
      by (rewrite Hpts; apply at_indices_here).
    destruct (unlabelled (label_at ls (length pre))) eqn:Hu.
    + rewrite <- IH. f_equal. rewrite promoted_S, Hu, Hhere. simpl.
      rewrite app_assoc. f_equal. f_equal.
      apply list_fmap_ext. intros _ c _.
      rewrite cluster_members_S. destruct (decide _) as [Heq|_];
        [|by rewrite app_nil_r].
      rewrite Heq, unlabelled_cluster in Hu. done.
    + destruct (unlabelled_false _ Hu) as (z & Hz & Hne). rewrite Hz.
      destruct (Hrange _ _ Hz) as [?|Hz']; [done|].
      rewrite decide_True by lia.
      assert (Hlt : (Z.to_nat z < Cn)%nat) by lia.
      rewrite lookup_app_l by (by rewrite length_fmap, length_seq).
      rewrite list_lookup_fmap, lookup_seq_lt by done. simpl.
      rewrite <- IH. f_equal.
      rewrite insert_app_l by (by rewrite length_fmap, length_seq).
      rewrite promoted_S, Hu, app_nil_r. f_equal.
      apply list_eq. intros c.
      destruct (decide (c < Cn)%nat) as [Hc|Hc].
      * rewrite list_lookup_fmap, lookup_seq_lt by done. simpl.
        rewrite cluster_members_S, Hhere, Hz.
        destruct (decide (Z.to_nat z = c)) as [<-|Hcz].
        -- rewrite list_lookup_insert_eq by (by rewrite length_fmap, length_seq).
           rewrite decide_True by (f_equal; lia). done.
        -- rewrite list_lookup_insert_ne by done.
           rewrite list_lookup_fmap, lookup_seq_lt by done. simpl.
           rewrite decide_False, app_nil_r; [done|].
           intros [= ->]. lia.
      * rewrite !lookup_ge_None_2;
          [done|by rewrite length_fmap, length_seq; lia
               |by rewrite length_insert, length_fmap, length_seq; lia].
Qed.

Lemma concat_insert_snoc (cl : list (list point)) k arr p :
  cl !! k = Some arr ->
  concat (<[k := arr ++ [p]]> cl) ≡ₚ concat cl ++ [p].
Proof.
  revert k. induction cl as [|a cl IH]; intros [|k] Hk; simpl in *; try done.
  - injection Hk as ->. rewrite <- !app_assoc.
    apply Permutation_app_head, Permutation_app_comm.
  - rewrite (IH _ Hk). by rewrite app_assoc.
Qed.

(** Whatever the labels, a conversion loop that ends has put every point
    into exactly one array. *)
Lemma collect_perm ls ps : forall i cl cl',
  collect ls ps i cl = Ok cl' -> concat cl' ≡ₚ concat cl ++ ps.
Proof.
  induction ps as [|p ps IH]; intros i cl cl'; simpl.
  - intros [= <-]. by rewrite app_nil_r.
  - destruct (unlabelled (label_at ls i)).
    + intros H%IH. rewrite H, concat_app. simpl.
      by rewrite <- !app_assoc.
    + destruct (label_at ls i) as [z|]; [|done].
      destruct (decide (0 <= z)%Z); [|done].
      destruct (cl !! Z.to_nat z) as [arr|] eqn:Harr; [|done].
      intros H%IH. rewrite H, (concat_insert_snoc _ _ _ _ Harr).
      by rewrite <- !app_assoc.
Qed.

Lemma concat_filter_nonempty (cl : list (list point)) :
  concat (filter (fun arr : list point => (0 < length arr)%nat) cl) = concat cl.
Proof.
  induction cl as [|a cl IH]; [done|].
  rewrite filter_cons. destruct (decide _) as [|Hn]; simpl; [by f_equal|].
  destruct a; simpl in *; [done|lia].
Qed.

Lemma filter_nonempty_id (cl : list (list point)) :
  Forall (fun arr => arr <> []) cl ->
  filter (fun arr : list point => (0 < length arr)%nat) cl = cl.
Proof.
  induction 1 as [|a cl Ha _ IH]; [done|].
  rewrite filter_cons, IH, decide_True; [done|].
  destruct a; simpl; [done|lia].
Qed.

Lemma fmap_seq_const {A : Type} (f : nat -> A) (n : nat) (a : A) :
  (forall c, f c = a) -> forall j, f <$> seq j n = replicate n a.
Proof.
  intros Hf. induction n as [|n IH]; intros j; simpl; [done|].
  by rewrite Hf, IH.
Qed.

(** The tiles of [dbscan] in closed form: one tile per cluster created, in
    the order of the ids, then one tile per point left without an id. *)
Lemma dbscan_closed points eps minPts :
  exists st,
    label_pass points eps minPts = Ok st /\ wf (length points) st /\
    (forall i, (i < length points)%nat -> visited st !! i = Some true) /\
    (all_core points eps minPts -> tagged st) /\
    Forall (fun arr => arr <> [])
      (cluster_members points (labels st) (length points) <$> seq 0 (C st)) /\
    dbscan points eps minPts =
      Ok ((cluster_members points (labels st) (length points) <$> seq 0 (C st))
          ++ promoted points (labels st) (length points)).
Proof.
  destruct (label_pass_ok points eps minPts) as (st & Hrun & Hwf & Hvis & Htag).
  exists st. split; [done|]. split; [done|]. split; [done|]. split; [done|].
  assert (Hne : Forall (fun arr => arr <> [])
      (cluster_members points (labels st) (length points) <$> seq 0 (C st))).
  { apply Forall_fmap, Forall_forall. intros c Hc%elem_of_seq. simpl.
    destruct (wf_inhab _ _ Hwf c) as [j Hj]; [lia|].
    assert (Hjn : (j < length points)%nat).
    { apply lookup_lt_Some in Hj. by rewrite (wf_labels _ _ Hwf) in Hj. }
    destruct (lookup_lt_is_Some_2 points j Hjn) as [p Hp].
    assert (Hin : p ∈ cluster_members points (labels st) (length points) c).
    { unfold cluster_members, at_indices. apply list_elem_of_omap.
      exists j. split; [|done]. apply list_elem_of_filter.
      split; [by apply label_at_lookup|]. apply elem_of_seq. lia. }
    intros Heq. rewrite Heq in Hin. by apply elem_of_nil in Hin. }
  split; [done|].
  assert (Hrange : forall j z, label_at (labels st) j = Some z ->
            z = noise \/ (0 <= z < Z.of_nat (C st))%Z).
  { intros j z Hz. unfold label_at in Hz.
    destruct (labels st !! j) as [l|] eqn:Hl; simpl in Hz; [|done].
    subst l. by apply (wf_range _ _ Hwf j). }
  pose proof (collect_closed points (labels st) (C st) Hrange points [] eq_refl)
    as Hcol.
  simpl in Hcol. rewrite app_nil_r in Hcol.
  rewrite (fmap_seq_const _ _ []) in Hcol by done.
  unfold dbscan. rewrite Hrun. simpl. rewrite Hcol. simpl. f_equal.
  apply filter_nonempty_id, Forall_app. split; [done|].
  unfold promoted. apply Forall_fmap, Forall_forall. by intros p _.
Qed.

(** ** The tiles as a rearrangement of the input *)

Lemma dbscan_perm (points : list point) (eps : num) (minPts : Z) :
  exists tiles,
    dbscan points eps minPts = Ok tiles /\ concat tiles ≡ₚ points.
Proof.
  destruct (dbscan_closed points eps minPts)
    as (st & Hrun & _ & _ & _ & _ & Hdb).
  eexists. split; [exact Hdb|].
  unfold dbscan in Hdb. rewrite Hrun in Hdb. simpl in Hdb.
  destruct (collect (labels st) points 0 (replicate (C st) [])) as [cl| |] eqn:Hcl;
    simpl in Hdb; try done.
  injection Hdb as <-. rewrite concat_filter_nonempty.
  rewrite (collect_perm _ _ _ _ _ Hcl).
  assert (Hnil : forall n, concat (replicate n (@nil point)) = []).
  { induction n; simpl; done. }
  by rewrite Hnil.
Qed.

(** ** Finite coordinates *)

Lemma fin_inv (a : num) : Num.is_fin a = true -> a = Fin (qval a).
Proof. by destruct a. Qed.

(** A point with a finite center lies within any radius of itself, the
    radius NaN apart. *)
Lemma within_self (eps : num) (p : point) :
  finite_center p -> eps <> NaN -> within eps p p = true.
Proof.
  intros [Hx Hy] He. unfold within.
  rewrite (fin_inv _ Hx), (fin_inv _ Hy). simpl.
  destruct eps as [e| | |]; simpl; try done.
  apply Qle_bool_iff. nra.
Qed.

Lemma NoDup_only (l : list nat) (i : nat) :
  NoDup l -> (forall x, x ∈ l <-> x = i) -> l = [i].
Proof.
  intros Hnd Hl. apply Permutation_singleton_r.
  apply NoDup_Permutation; [done|apply NoDup_singleton|].
  intros x. by rewrite Hl, list_elem_of_singleton.
Qed.

Lemma expand_nil points eps minPts cid fuel st :
  expand points eps minPts cid fuel 0 [] st = Ok st.
Proof. by destruct fuel. Qed.

(** ** The contour filter *)

Lemma Num_le_fin (x y : Q) : Num.le (Fin x) (Fin y) = true <-> x <= y.
Proof. apply Qle_bool_iff. Qed.

Lemma Num_lt_fin (x y : Q) : Num.lt (Fin x) (Fin y) = true <-> x < y.
Proof.
  simpl. rewrite negb_true_iff. split.
  - intros H. apply Qnot_le_lt. intros Hle%Qle_bool_iff. congruence.
  - intros H. destruct (Qle_bool y x) eqn:Hle; [|done].
    apply Qle_bool_iff in Hle. lra.
Qed.

Lemma Num_div_fin (x y : Q) : 0 < y -> Num.div (Fin x) (Fin y) = Fin (x / y).
Proof.
  intros Hy. unfold Num.div, Num.sgn.
  apply Qgt_alt in Hy. by rewrite Hy.
Qed.

Lemma filterDots_acc lo hi cands : forall acc,
  foldl (fun dots c => if accepts lo hi c then dots ++ [dot_of c] else dots)
        acc cands
  = acc ++ (dot_of <$> filter (fun c => accepts lo hi c = true) cands).
Proof.
  induction cands as [|c cands IH]; intros acc; simpl.
  - by rewrite app_nil_r.
  - rewrite IH, filter_cons. destruct (accepts lo hi c) eqn:Hc.
    + rewrite decide_True by done. by rewrite <- app_assoc.
    + rewrite decide_False by (by intros ?). done.
Qed.

(** The loop emits, in order, the dots of the contours that pass the
    tests. *)
Lemma filterDots_filter lo hi cands :
  filterDots lo hi cands =
  dot_of <$> filter (fun c => accepts lo hi c = true) cands.
Proof. unfold filterDots. by rewrite filterDots_acc. Qed.

Lemma filterDots_app lo hi l1 l2 :
  filterDots lo hi (l1 ++ l2) = filterDots lo hi l1 ++ filterDots lo hi l2.
Proof. by rewrite !filterDots_filter, filter_app, fmap_app. Qed.

(** ** The same tiles for [eps] and [-eps] *)

Section SameTest.

Variable points : list point.
Variables eps1 eps2 : num.
Variable minPts : Z.
Hypothesis Hsame : forall p q, within eps1 p q = within eps2 p q.

Lemma regionQuery_from_ext p qs : forall j,
  regionQuery_from eps1 p qs j = regionQuery_from eps2 p qs j.
Proof using Hsame.
  induction qs as [|q qs IH]; intros j; simpl; [done|].
  by rewrite Hsame, !IH.
Qed.

Lemma regionQuery_ext i :
  regionQuery points eps1 i = regionQuery points eps2 i.
Proof using Hsame.
  unfold regionQuery. destruct (points !! i); [|done].
  by rewrite regionQuery_from_ext.
Qed.

Lemma expand_ext cid fuel : forall k seeds st,
  expand points eps1 minPts cid fuel k seeds st =
  expand points eps2 minPts cid fuel k seeds st.
Proof using Hsame.
  induction fuel as [|fuel IH]; intros k seeds st; simpl; [done|].
  destruct (seeds !! k) as [n|]; [|done].
  unfold probe. rewrite regionQuery_ext.
  destruct (truthy_at (visited st) n); simpl; [apply IH|].
  destruct (regionQuery points eps2 n) as [nbs| |]; simpl; try done.
  destruct (minPts <=? Z.of_nat (length nbs))%Z; simpl; apply IH.
Qed.

Lemma visit_ext i st :
  visit points eps1 minPts i st = visit points eps2 minPts i st.
Proof using Hsame.
  unfold visit. rewrite regionQuery_ext.
  destruct (truthy_at (visited st) i); [done|].
  destruct (regionQuery points eps2 i) as [nbs| |]; simpl; try done.
  destruct (Z.of_nat (length nbs) <? minPts)%Z; [done|].
  apply expand_ext.
Qed.

Lemma scan_ext idxs : forall st,
  scan points eps1 minPts idxs st = scan points eps2 minPts idxs st.
Proof using Hsame.
  induction idxs as [|i idxs IH]; intros st; simpl; [done|].
  rewrite visit_ext.
  destruct (visit points eps2 minPts i st); simpl; [apply IH|done|done].
Qed.

Lemma dbscan_ext :
  dbscan points eps1 minPts = dbscan points eps2 minPts.
Proof using Hsame.
  unfold dbscan, label_pass. by rewrite scan_ext.
Qed.

End SameTest.

Lemma Num_le_proper (x : num) (y y' : Q) :
  y == y' -> Num.le x (Fin y) = Num.le x (Fin y').
Proof.
  intros Hy. destruct x as [q| | |]; simpl; try done.
  apply eq_true_iff_eq. rewrite !Qle_bool_iff. by rewrite Hy.
Qed.

Lemma within_neg (e : Q) (p q : point) :
  within (Fin (- e)) p q = within (Fin e) p q.
Proof. unfold within. simpl. apply Num_le_proper. ring. Qed.

(** ** The tile box *)

Lemma foldl_widen l : forall b,
  foldl widen b l =
  mkBox (foldl (fun a p => Num.min a (Num.sub (px p) (pr p))) (minx b) l)
        (foldl (fun a p => Num.min a (Num.sub (py p) (pr p))) (miny b) l)
        (foldl (fun a p => Num.max a (Num.add (px p) (pr p))) (maxx b) l)
        (foldl (fun a p => Num.max a (Num.add (py p) (pr p))) (maxy b) l).
Proof.
  induction l as [|p l IH]; intros b; simpl; [by destruct b|].
  by rewrite IH.
Qed.

(** ** The source on inputs outside the hypotheses of the claims *)

(** Two dots with the same center are neighbours even for [eps = 0], and
    share a tile. *)
Example coincident_dots_share_a_tile :
  dbscan [dot5 0 0; dot5 0 0] (Fin 0) MIN_PTS = Ok [[dot5 0 0; dot5 0 0]].
Proof. reflexivity. Qed.

(** Without points the call returns no tile. *)
Example no_points_no_tiles (eps : num) (minPts : Z) :
  dbscan [] eps minPts = Ok [].
Proof. reflexivity. Qed.

(** * The binary64 model *)

Section DoubleOrder.

Import Floats.
Local Open Scope float_scope.

(** ** The order of binary64 numbers *)

Lemma SFcompare_antisym (a b : spec_float) :
  SFcompare b a = CompOpp <$> SFcompare a b.
Proof.
  destruct a as [sa|sa| |sa ma ea], b as [sb|sb| |sb mb eb]; simpl;
    try done; try (by destruct sa); try (by destruct sb);
    try (by destruct sa, sb).
  rewrite !Pos.compare_cont_spec, (Z.compare_antisym ea eb),
    (Pos.compare_antisym ma mb).
  destruct sa, sb; simpl; try done;
    destruct (ea ?= eb)%Z; simpl; try done;
    by destruct (ma ?= mb)%positive.
Qed.

Lemma SFleb_trans (a b c : spec_float) :
  SFleb a b = true -> SFleb b c = true -> SFleb a c = true.
Proof.
  unfold SFleb.
  destruct a as [sa|sa| |sa ma ea], b as [sb|sb| |sb mb eb],
    c as [sc|sc| |sc mc ec]; simpl; try done;
    try (by destruct sa); try (by destruct sb); try (by destruct sc);
    try (by destruct sa, sb); try (by destruct sa, sc);
    try (by destruct sb, sc); try (by destruct sa, sb, sc).
  rewrite !Pos.compare_cont_spec.
  destruct sa, sb, sc; simpl; try done;
    destruct (Z.compare_spec ea eb), (Z.compare_spec eb ec),
      (Z.compare_spec ea ec); simpl; try done; try lia;
    destruct (Pos.compare_spec ma mb), (Pos.compare_spec mb mc),
      (Pos.compare_spec ma mc); simpl; try done; try lia.
Qed.

Lemma is_nan_false (a : float) :
  is_nan a = false <-> SFcompare (Prim2SF a) (Prim2SF a) = Some Eq.
Proof.
  unfold is_nan. rewrite negb_false_iff, eqb_spec. unfold SFeqb.
  destruct (SFcompare _ _) as [[| |]|]; split; congruence.
Qed.

Lemma is_nan_Prim2SF (a : float) :
  is_nan a = false <-> Prim2SF a <> S754_nan.
Proof.
  rewrite is_nan_false. split.
  - intros H E. by rewrite E in H.
  - intros H. destruct (Prim2SF a) as [s|s| |s m e]; simpl; try done.
    + by destruct s.
    + rewrite Pos.compare_cont_spec, Z.compare_refl, Pos.compare_refl.
      by destruct s.
Qed.

Lemma SFcompare_some (a b : spec_float) :
  a <> S754_nan -> b <> S754_nan -> exists c, SFcompare a b = Some c.
Proof.
  destruct a, b; simpl; try done; eauto.
Qed.

(** [a <= a] holds for every number but NaN. *)
Lemma leb_refl (a : float) : is_nan a = false -> (a <=? a) = true.
Proof.
  intros Ha%is_nan_false. rewrite leb_spec. unfold SFleb. by rewrite Ha.
Qed.

Lemma leb_trans (a b c : float) :
  (a <=? b) = true -> (b <=? c) = true -> (a <=? c) = true.
Proof. rewrite !leb_spec. apply SFleb_trans. Qed.

Lemma ltb_leb (a b : float) : (a <? b) = true -> (a <=? b) = true.
Proof.
  rewrite ltb_spec, leb_spec. unfold SFltb, SFleb.
  by destruct (SFcompare _ _) as [[| |]|].
Qed.

Lemma eqb_leb (a b : float) : (a =? b) = true -> (a <=? b) = true.
Proof.
  rewrite eqb_spec, leb_spec. unfold SFeqb, SFleb.
  by destruct (SFcompare _ _) as [[| |]|].
Qed.

(** [a < b] excludes [b <= a]. *)
Lemma ltb_not_leb (a b : float) : (a <? b) = true -> (b <=? a) = false.
Proof.
  rewrite ltb_spec, leb_spec. unfold SFltb, SFleb.
  rewrite (SFcompare_antisym (Prim2SF a) (Prim2SF b)).
  by destruct (SFcompare _ _) as [[| |]|].
Qed.

(** Of two numbers other than NaN, one is below the other. *)
Lemma leb_total (a b : float) :
  is_nan a = false -> is_nan b = false ->
  (b <? a) = false -> (a <=? b) = true.
Proof.
  intros Ha%is_nan_Prim2SF Hb%is_nan_Prim2SF.
  rewrite ltb_spec, leb_spec. unfold SFltb, SFleb.
  rewrite (SFcompare_antisym (Prim2SF a) (Prim2SF b)).
  destruct (SFcompare_some _ _ Ha Hb) as [c ->]. by destruct c.
Qed.

End DoubleOrder.

Section DoubleValue.

Import Floats.
Local Open Scope float_scope.

(** ** The order of binary64 numbers is the order of their values *)

Lemma digits2_pos_size (m : positive) : digits2_pos m = Pos.size m.
Proof. induction m as [m IH|m IH|]; simpl; by rewrite ?IH. Qed.

(** The mantissa and exponent of a binary64 number: at most 53 binary
    digits, exactly 53 above the least exponent. *)
Lemma valid_finite (s : bool) (m : positive) (e : Z) :
  valid_binary (S754_finite s m e) = true ->
  (-1074 <= e)%Z /\ (Z.pos m < 2 ^ 53)%Z /\
  ((-1074 < e)%Z -> (2 ^ 52 <= Z.pos m)%Z).
Proof.
  unfold SpecFloat.valid_binary, bounded, canonical_mantissa, fexp,
    SpecFloat.emin, prec, emax.
  rewrite digits2_pos_size.
  intros [Hc%Z.eqb_eq _]%andb_true_iff.
  pose proof (Pos.size_gt m) as Hgt. pose proof (Pos.size_le m) as Hle.
  apply Pos2Z.pos_lt_pos in Hgt. apply Pos2Z.pos_le_pos in Hle.
  rewrite Pos2Z.inj_pow in Hgt, Hle. rewrite Pos2Z.inj_xO in Hle.
  set (d := Z.pos (Pos.size m)) in *.
  assert (Hd : (0 < d)%Z) by done.
  split; [lia|]. split.
  - assert (d <= 53)%Z by lia.
    assert (2 ^ d <= 2 ^ 53)%Z by (apply Z.pow_le_mono_r; lia). lia.
  - intros He. assert (d = 53)%Z as Hd53 by lia. rewrite Hd53 in Hle.
    change (2 ^ 53)%Z with (2 * 2 ^ 52)%Z in Hle. lia.
Qed.

Lemma scaled_pos (m : positive) (e : Z) :
  (-1074 <= e)%Z -> (0 < Z.pos m * 2 ^ (e + 1074))%Z.
Proof.
  intros He. apply Z.mul_pos_pos; [done|]. apply Z.pow_pos_nonneg; lia.
Qed.

(** Comparing two valid positive numbers by exponent, then mantissa, is
    comparing their values. *)
Lemma compare_scaled (m1 m2 : positive) (e1 e2 : Z) :
  valid_binary (S754_finite false m1 e1) = true ->
  valid_binary (S754_finite false m2 e2) = true ->
  match (e1 ?= e2)%Z with
  | Eq => Pos.compare_cont Eq m1 m2
  | Lt => Lt
  | Gt => Gt
  end = (Z.pos m1 * 2 ^ (e1 + 1074) ?= Z.pos m2 * 2 ^ (e2 + 1074))%Z.
Proof.
  intros (He1 & Hm1 & Hn1)%valid_finite (He2 & Hm2 & Hn2)%valid_finite.
  assert (Hstep : forall m m' e e',
            (-1074 <= e)%Z -> (e < e')%Z -> (Z.pos m < 2 ^ 53)%Z ->
            (2 ^ 52 <= Z.pos m')%Z ->
            (Z.pos m * 2 ^ (e + 1074) < Z.pos m' * 2 ^ (e' + 1074))%Z).
  { intros m m' e e' He Hlt Hm Hm'.
    replace (e' + 1074)%Z with ((e + 1074) + (e' - e))%Z by lia.
    rewrite (Z.pow_add_r 2 (e + 1074) (e' - e)) by lia.
    assert (Hp : (0 < 2 ^ (e + 1074))%Z) by (apply Z.pow_pos_nonneg; lia).
    assert (Hq : (2 ^ 1 <= 2 ^ (e' - e))%Z) by (apply Z.pow_le_mono_r; lia).
    change (2 ^ 1)%Z with 2%Z in Hq.
    change (2 ^ 53)%Z with (2 * 2 ^ 52)%Z in Hm.
    set (P := (2 ^ (e + 1074))%Z) in *. set (D := (2 ^ (e' - e))%Z) in *.
    set (T := (2 ^ 52)%Z) in *.
    assert (H1 : (Z.pos m * P < 2 * T * P)%Z)
      by (apply Z.mul_lt_mono_pos_r; done).
    assert (H2 : (T * (2 * P) <= Z.pos m' * (2 * P))%Z)
      by (apply Z.mul_le_mono_nonneg_r; lia).
    assert (H3 : (Z.pos m' * P * 2 <= Z.pos m' * P * D)%Z)
      by (apply Z.mul_le_mono_nonneg_l; lia).
    lia. }
  rewrite Pos.compare_cont_spec. cbn [Pos.switch_Eq].
  destruct (Z.compare_spec e1 e2) as [->|Hlt|Hgt].
  - assert (Hp : (0 < 2 ^ (e2 + 1074))%Z) by (apply Z.pow_pos_nonneg; lia).
    symmetry. destruct (Pos.compare_spec m1 m2) as [->|Hlt|Hgt].
    + apply Z.compare_refl.
    + apply Z.compare_lt_iff, Z.mul_lt_mono_pos_r; [done|lia].
    + apply Z.compare_gt_iff, Z.mul_lt_mono_pos_r; [done|lia].
  - symmetry. apply Z.compare_lt_iff. apply Hstep; [done|done|done|].
    apply Hn2. lia.
  - symmetry. apply Z.compare_gt_iff. apply Hstep; [done|done|done|].
    apply Hn1. lia.
Qed.

(** The comparison of two valid numbers, neither an infinity nor NaN. *)
Lemma SFcompare_scaled (a b : spec_float) :
  valid_binary a = true -> valid_binary b = true ->
  (exists s, a = S754_zero s) \/ (exists s m e, a = S754_finite s m e) ->
  (exists s, b = S754_zero s) \/ (exists s m e, b = S754_finite s m e) ->
  SFcompare a b = Some (Double.scaled a ?= Double.scaled b)%Z.
Proof.
  intros Va Vb [[sa ->]|(sa & ma & ea & ->)] [[sb ->]|(sb & mb & eb & ->)];
    cbn [SFcompare Double.scaled].
  - done.
  - pose proof (scaled_pos mb eb (proj1 (valid_finite _ _ _ Vb))) as Hb.
    f_equal. symmetry.
    destruct sb; cbn [cond_Zopp];
      [apply Z.compare_gt_iff|apply Z.compare_lt_iff]; lia.
  - pose proof (scaled_pos ma ea (proj1 (valid_finite _ _ _ Va))) as Ha.
    f_equal. symmetry.
    destruct sa; cbn [cond_Zopp];
      [apply Z.compare_lt_iff|apply Z.compare_gt_iff]; lia.
  - pose proof (scaled_pos ma ea (proj1 (valid_finite _ _ _ Va))) as Ha.
    pose proof (scaled_pos mb eb (proj1 (valid_finite _ _ _ Vb))) as Hb.
    f_equal. destruct sa, sb; cbn [cond_Zopp].
    + rewrite Z.compare_opp.
      rewrite <- (compare_scaled mb ma eb ea) by done.
      rewrite !Pos.compare_cont_spec. cbn [Pos.switch_Eq].
      rewrite (Z.compare_antisym ea eb), (Pos.compare_antisym ma mb).
      destruct (ea ?= eb)%Z; simpl; try done.
      by destruct (ma ?= mb)%positive.
    + symmetry. apply Z.compare_lt_iff. lia.
    + symmetry. apply Z.compare_gt_iff. lia.
    + by apply compare_scaled.
Qed.

(** The value of a finite number is its multiple of [2^-1074]. *)
Lemma value_scaled (a : float) (u : Q) :
  Double.value a = Some u ->
  ((exists s, Prim2SF a = S754_zero s) \/
   (exists s m e, Prim2SF a = S754_finite s m e)) /\
  (u == Double.scaled (Prim2SF a) # 2 ^ 1074)%Q.
Proof.
  unfold Double.value. pose proof (Prim2SF_valid a) as Hv.
  destruct (Prim2SF a) as [s|s| |s m e]; try done; intros [= <-].
  - split; [left; by exists s|]. done.
  - split; [right; by exists s, m, e|].
    destruct (valid_finite _ _ _ Hv) as (He & _).
    cbn [Double.scaled]. rewrite Qred_correct. unfold Qeq.
    destruct (0 <=? e)%Z eqn:Hsign; cbn [Qnum Qden inject_Z];
      rewrite !Pos2Z.inj_pow.
    + apply Z.leb_le in Hsign.
      rewrite (Z.pow_add_r 2 e 1074) by lia.
      destruct s; cbn [cond_Zopp]; lia.
    + apply Z.leb_gt in Hsign. rewrite Z2Pos.id by lia.
      assert (Hpow : (Z.pos 2 ^ Z.pos 1074
                      = 2 ^ (e + 1074) * Z.pos 2 ^ (- e))%Z).
      { rewrite <- Z.pow_add_r by lia. f_equal. lia. }
      rewrite Hpow.
      destruct s; cbn [cond_Zopp]; lia.
Qed.

(** [a <= b] on two finite numbers compares their values. *)
Lemma leb_value (a b : float) (u v : Q) :
  Double.value a = Some u -> Double.value b = Some v ->
  (a <=? b) = true <-> (u <= v)%Q.
Proof.
  intros [Ha Hu]%value_scaled [Hb Hv]%value_scaled.
  rewrite leb_spec. unfold SFleb.
  rewrite (SFcompare_scaled _ _ (Prim2SF_valid a) (Prim2SF_valid b) Ha Hb).
  rewrite Hu, Hv. unfold Qle. cbn [Qnum Qden].
  rewrite <- Z.mul_le_mono_pos_r by done.
  destruct (Z.compare_spec (Double.scaled (Prim2SF a))
              (Double.scaled (Prim2SF b)));
    split; intros; try done; lia.
Qed.

End DoubleValue.

(** ** Squared distances and the Euclidean distance *)

Lemma sqrt_le_iff (s e : R) :
  (0 <= s)%R -> (0 <= e)%R -> (sqrt s <= e)%R <-> (s <= e * e)%R.
Proof.
  intros Hs He. split; intros H.
  - rewrite <- (sqrt_sqrt s Hs).
    pose proof (sqrt_pos s). nra.
  - rewrite <- (sqrt_square e He). apply sqrt_le_1; [done|nra|done].
Qed.

(** For a number [eps >= 0] of value [e], the exact squared distance is
    at most the exact square of [eps] exactly when the Euclidean distance
    is at most [e]. *)
Lemma distance_le eps (p q : Double.dot) (D E e : Q) :
  Double.exact_d2 p q = Some D -> Double.exact_sq eps = Some E ->
  Double.value eps = Some e -> 0 <= e ->
  D <= E <-> (Double.distance p q <= Q2R e)%R.
Proof.
  unfold Double.distance, Double.exact_sq, Double.exact_d2.
  intros HD HE Hv He. rewrite Hv in HE. injection HE as <-.
  destruct (Double.value (Double.x p)) as [a|]; [|done].
  destruct (Double.value (Double.y p)) as [b|]; [|done].
  destruct (Double.value (Double.x q)) as [c|]; [|done].
  destruct (Double.value (Double.y q)) as [d|]; [|done].
  injection HD as <-.
  assert (He' : (0 <= Q2R e)%R).
  { rewrite <- RMicromega.Q2R_0. by apply Qle_Rle. }
  rewrite sqrt_le_iff; [| |done].
  - rewrite <- Q2R_mult. split; [apply Qle_Rle|apply Rle_Qle].
  - rewrite Q2R_plus, !Q2R_mult, !Q2R_minus.
    apply Rplus_le_le_0_compat; apply Rle_0_sqr.
Qed.

Section DoubleDistance.

Import Floats.
Local Open Scope float_scope.

Lemma distance_on_a_line_1 :
  Double.distance (Double.dot5 0 0) (Double.dot5 3 4) = Q2R 5.
Proof.
  unfold Double.distance.
  change (Double.exact_d2 _ _) with (Some 25%Q).
  unfold Q2R. simpl.
  replace (25 * / 1)%R with (5 * 5)%R by lra.
  rewrite sqrt_square by lra. lra.
Qed.

Lemma distance_on_a_line_2 :
  Double.distance (Double.dot5 0 0) (Double.dot5 6 8) = (Q2R 5 + 5)%R.
Proof.
  unfold Double.distance.
  change (Double.exact_d2 _ _) with (Some 100%Q).
  unfold Q2R. simpl.
  replace (100 * / 1)%R with (10 * 10)%R by lra.
  rewrite sqrt_square by lra. lra.
Qed.

End DoubleDistance.

Section DoubleQuery.

Import Floats.
Local Open Scope float_scope.

(** ** The neighbour query on binary64 numbers *)

Lemma double_elem_of_regionQuery_from eps p qs j x :
  x ∈ Double.regionQuery_from eps p qs j <->
  exists q, (j <= x)%nat /\ qs !! (x - j)%nat = Some q /\
            Double.within eps p q = true.
Proof.
  revert j. induction qs as [|q0 qs IH]; intros j; simpl.
  - split; [by intros ?%elem_of_nil | by intros (? & _ & ? & _)].
  - assert (Hrec : x ∈ Double.regionQuery_from eps p qs (S j) <->
                   exists q, (S j <= x)%nat /\ (q0 :: qs) !! (x - j)%nat = Some q
                             /\ Double.within eps p q = true).
    { rewrite IH. split; intros (q & Hle & Hq & Hw); exists q;
        (split; [done|]); (split; [|done]).
      - replace (x - j)%nat with (S (x - S j)) by lia. done.
      - replace (x - j)%nat with (S (x - S j)) in Hq by lia. done. }
    destruct (Double.within eps p q0) eqn:Hq0.
    + rewrite elem_of_cons, Hrec. split.
      * intros [->|(q & Hle & Hq & Hw)].
        -- exists q0. rewrite Nat.sub_diag. done.
        -- exists q. split; [lia|done].
      * intros (q & Hle & Hq & Hw).
        same_or_other x j; [by left|right].
        exists q. split; [lia|done].
    + rewrite Hrec. split.
      * intros (q & Hle & Hq & Hw). exists q. split; [lia|done].
      * intros (q & Hle & Hq & Hw).
        same_or_other x j.
        -- rewrite Nat.sub_diag in Hq. simpl in Hq. congruence.
        -- exists q. split; [lia|done].
Qed.

Lemma double_regionQuery_from_NoDup eps p qs j :
  NoDup (Double.regionQuery_from eps p qs j).
Proof.
  revert j. induction qs as [|q0 qs IH]; intros j; simpl; [constructor|].
  destruct (Double.within eps p q0); [|done].
  constructor; [|done].
  intros (q & Hle & _)%double_elem_of_regionQuery_from. lia.
Qed.

(** Membership in the answer of [regionQuery(i)]. *)
Lemma double_elem_of_regionQuery points eps i p nbs j :
  points !! i = Some p ->
  Double.regionQuery points eps i = Ok nbs ->
  j ∈ nbs <-> exists q, points !! j = Some q /\ Double.within eps p q = true.
Proof.
  unfold Double.regionQuery. intros -> [= <-].
  rewrite double_elem_of_regionQuery_from. setoid_rewrite Nat.sub_0_r.
  split; intros (q & H); exists q; intuition lia.
Qed.

(** ** A finite number minus itself *)

Lemma finite_Prim2SF (a : float) :
  Double.finite a = true ->
  (exists s, Prim2SF a = S754_zero s) \/
  (exists s m e, Prim2SF a = S754_finite s m e).
Proof.
  unfold Double.finite, Double.value.
  destruct (Prim2SF a) as [s|s| |s m e]; try done; eauto.
Qed.

(** [a - a] is [+0] for every finite [a]: no rounding is involved. *)
Lemma sub_self (a : float) : Double.finite a = true -> a - a = 0.
Proof.
  intros Ha. apply Prim2SF_inj. rewrite sub_spec.
  change (Prim2SF 0) with (S754_zero false).
  destruct (finite_Prim2SF a Ha) as [[s ->]|(s & m & e & ->)].
  - by destruct s.
  - unfold SF64sub, SFsub. rewrite Z.min_id.
    unfold shl_align. by rewrite !Z.sub_diag.
Qed.

(** With [eps = 0] a dot with a finite center passes the test with
    itself. *)
Lemma double_within_self_zero (p : Double.dot) :
  Double.finite (Double.x p) = true -> Double.finite (Double.y p) = true ->
  Double.within 0 p p = true.
Proof.
  intros Hx Hy. unfold Double.within.
  by rewrite (sub_self _ Hx), (sub_self _ Hy).
Qed.

End DoubleQuery.

(** ** Isolated points at [eps = 0] *)

Lemma zero_state_step (N i : nat) :
  (i < N)%nat ->
  zero_state N (S i) =
  mkState (<[i := true]> (visited (zero_state N i)))
          (<[i := Some (Z.of_nat i)]> (labels (zero_state N i)))
          (S i).
Proof.
  intros Hi. unfold zero_state. cbn [visited labels].
  assert (Hsplit : (N - i = S (N - S i))%nat) by lia.
  rewrite Hsplit. f_equal.
  - rewrite insert_app_r_alt by (by rewrite length_replicate).
    rewrite length_replicate, Nat.sub_diag. cbn [replicate insert list_insert].
    by rewrite replicate_cons_app, <- app_assoc.
  - rewrite insert_app_r_alt by (by rewrite length_fmap, length_seq).
    rewrite length_fmap, length_seq, Nat.sub_diag.
    cbn [replicate insert list_insert].
    by rewrite seq_S, fmap_app, <- app_assoc.
Qed.

Lemma zero_state_length (N i : nat) :
  (i <= N)%nat ->
  length (visited (zero_state N i)) = N /\ length (labels (zero_state N i)) = N.
Proof.
  intros Hi. unfold zero_state. cbn [visited labels].
  rewrite !length_app, length_fmap, length_seq, !length_replicate. lia.
Qed.

Lemma zero_state_unvisited (N i : nat) :
  (i < N)%nat -> truthy_at (visited (zero_state N i)) i = false.
Proof.
  intros Hi. unfold truthy_at, zero_state. cbn [visited].
  rewrite lookup_app_r by (by rewrite length_replicate).
  rewrite length_replicate, Nat.sub_diag.
  by replace (N - i)%nat with (S (N - S i)) by lia.
Qed.

Lemma zero_state_label (N i : nat) :
  (i < N)%nat -> label_at (labels (zero_state N N)) i = Some (Z.of_nat i).
Proof.
  intros Hi. apply label_at_lookup. unfold zero_state. cbn [labels].
  rewrite lookup_app_l by (by rewrite length_fmap, length_seq).
  by rewrite list_lookup_fmap, lookup_seq_lt.
Qed.

Lemma seeds_of_self (i : nat) : set_delete i (set_of_array [i]) = [].
Proof.
  unfold set_of_array, set_add_all, set_delete. cbn [foldl].
  unfold set_add. rewrite decide_False by (by intros ?%elem_of_nil).
  cbn [app]. by rewrite filter_cons, decide_False, filter_nil by (by intros ?).
Qed.

Section DoubleEpsZero.

Import Floats.
Local Open Scope float_scope.

Variable points : list Double.dot.
Hypothesis Hfin : Forall Double.finite_center points.
Hypothesis Hapart : Double.isolated points.

Let N := length points.

Lemma double_regionQuery_zero i :
  (i < N)%nat -> Double.regionQuery points 0 i = Ok [i].
Proof using Hfin Hapart.
  intros Hi. destruct (lookup_lt_is_Some_2 points i Hi) as [p Hp].
  unfold Double.regionQuery. rewrite Hp. f_equal.
  apply NoDup_only; [apply double_regionQuery_from_NoDup|].
  intros x. rewrite double_elem_of_regionQuery_from.
  rewrite Forall_forall in Hfin.
  split.
  - intros (q & _ & Hq & Hw). rewrite Nat.sub_0_r in Hq.
    destruct (decide (x = i)) as [|Hne]; [done|].
    rewrite (Hapart i x p q Hp Hq) in Hw by done. done.
  - intros ->. exists p. rewrite Nat.sub_0_r. split; [lia|]. split; [done|].
    destruct (Hfin p) as [Hx Hy]; [by eapply list_elem_of_lookup_2|].
    by apply double_within_self_zero.
Qed.

Lemma double_expand_nil eps minPts cid fuel st :
  Double.expand points eps minPts cid fuel 0 [] st = Ok st.
Proof using Type. by destruct fuel. Qed.

Lemma double_visit_zero i :
  (i < N)%nat ->
  Double.visit points 0 MIN_PTS i (zero_state N i) = Ok (zero_state N (S i)).
Proof using Hfin Hapart.
  intros Hi. rewrite zero_state_step by done.
  destruct (zero_state_length N i) as [Hv Hl]; [lia|].
  unfold Double.visit.
  rewrite zero_state_unvisited, double_regionQuery_zero by done.
  cbn [mbind result_bind length Z.of_nat].
  replace (Z.pos (Pos.of_succ_nat 0) <? MIN_PTS)%Z with false by done.
  rewrite seeds_of_self, double_expand_nil.
  by rewrite !array_set_in_range by lia.
Qed.

Lemma double_scan_zero k : forall i,
  (i + k = N)%nat ->
  Double.scan points 0 MIN_PTS (seq i k) (zero_state N i)
  = Ok (zero_state N N).
Proof using Hfin Hapart.
  induction k as [|k IH]; intros i Hik; simpl.
  - by replace i with N by lia.
  - rewrite double_visit_zero by lia. simpl. apply IH. lia.
Qed.

Lemma double_label_pass_zero :
  Double.label_pass points 0 MIN_PTS = Ok (zero_state N N).
Proof using Hfin Hapart.
  unfold Double.label_pass. fold N.
  replace (initial N) with (zero_state N 0).
  - by apply double_scan_zero.
  - unfold zero_state, initial. simpl. by rewrite Nat.sub_0_r.
Qed.

(** The conversion loop on these labels: the point [i] is pushed onto
    the empty array of cluster [i]. *)
Lemma double_collect_zero (done_ rest : list Double.dot) :
  points = done_ ++ rest ->
  Double.collect (labels (zero_state N N)) rest (length done_)
    (((fun p => [p]) <$> done_) ++ replicate (length rest) [])
  = Ok ((fun p => [p]) <$> points).
Proof using Type.
  revert done_. induction rest as [|p rest IH]; intros done_ Hpts.
  - simpl. by rewrite Hpts, !app_nil_r.
  - cbn [Double.collect].
    assert (Hlen : (length done_ < N)%nat).
    { unfold N. rewrite Hpts, length_app. simpl. lia. }
    rewrite zero_state_label, unlabelled_cluster by done.
    rewrite decide_True by lia. rewrite Nat2Z.id.
    rewrite lookup_app_r by (by rewrite length_fmap).
    rewrite length_fmap, Nat.sub_diag. cbn [length replicate lookup list_lookup].
    rewrite insert_app_r_alt by (by rewrite length_fmap).
    rewrite length_fmap, Nat.sub_diag. cbn [insert list_insert app].
    specialize (IH (done_ ++ [p])).
    rewrite length_app, fmap_app in IH. cbn [length fmap list_fmap] in IH.
    rewrite Nat.add_1_r, <- !app_assoc in IH. by apply IH.
Qed.

Lemma double_dbscan_zero :
  Double.dbscan points 0 MIN_PTS = Ok ((fun p => [p]) <$> points).
Proof using Hfin Hapart.
  unfold Double.dbscan. rewrite double_label_pass_zero.
  cbn [mbind result_bind]. cbn [C zero_state].
  pose proof (double_collect_zero [] points eq_refl) as Hc.
  cbn [length fmap list_fmap app] in Hc. fold N in Hc. rewrite Hc.
  cbn [mbind result_bind]. f_equal.
  apply filter_all, Forall_fmap, Forall_forall. intros p _. simpl. lia.
Qed.

End DoubleEpsZero.

Section DoubleBox.

Import Floats.
Local Open Scope float_scope.

(** ** [Math.min] and [Math.max] on binary64 numbers *)

Lemma is_pzero_Prim2SF (a : float) :
  Double.is_pzero a = true -> Prim2SF a = S754_zero false.
Proof.
  unfold Double.is_pzero. rewrite classify_spec.
  unfold SF64classify, SFclassify.
  destruct (Prim2SF a) as [[|]|[|]| |[|] m e]; try done;
    by destruct (Z.pos (digits2_pos m) =? prec)%Z.
Qed.

Lemma is_nzero_Prim2SF (a : float) :
  Double.is_nzero a = true -> Prim2SF a = S754_zero true.
Proof.
  unfold Double.is_nzero. rewrite classify_spec.
  unfold SF64classify, SFclassify.
  destruct (Prim2SF a) as [[|]|[|]| |[|] m e]; try done;
    by destruct (Z.pos (digits2_pos m) =? prec)%Z.
Qed.

(** The two zeros are below each other. *)
Lemma zeros_leb (a b : float) (s t : bool) :
  Prim2SF a = S754_zero s -> Prim2SF b = S754_zero t -> (a <=? b) = true.
Proof. intros Ha Hb. by rewrite leb_spec, Ha, Hb. Qed.

(** Of two numbers other than NaN, [Math.min] returns one, and it is
    below both. *)
Lemma Math_min_spec (a b : float) :
  is_nan a = false -> is_nan b = false ->
  let m := Double.Math_min a b in
  (m = a \/ m = b) /\ (m <=? a) = true /\ (m <=? b) = true.
Proof.
  intros Ha Hb. unfold Double.Math_min. rewrite Ha, Hb. cbn [orb].
  destruct (b <? a) eqn:Hlt; cbn [orb].
  { split; [by right|]. split; [by apply ltb_leb|by apply leb_refl]. }
  destruct (Double.is_pzero a && Double.is_nzero b) eqn:Hz.
  - apply andb_true_iff in Hz as [Hza%is_pzero_Prim2SF Hzb%is_nzero_Prim2SF].
    split; [by right|]. split; [by eapply zeros_leb|by apply leb_refl].
  - split; [by left|]. split; [by apply leb_refl|by apply leb_total].
Qed.

(** Of two numbers other than NaN, [Math.max] returns one, and it is
    above both. *)
Lemma Math_max_spec (a b : float) :
  is_nan a = false -> is_nan b = false ->
  let m := Double.Math_max a b in
  (m = a \/ m = b) /\ (a <=? m) = true /\ (b <=? m) = true.
Proof.
  intros Ha Hb. unfold Double.Math_max. rewrite Ha, Hb. cbn [orb].
  destruct (a <? b) eqn:Hlt; cbn [orb].
  { split; [by right|]. split; [by apply ltb_leb|by apply leb_refl]. }
  destruct (Double.is_nzero a && Double.is_pzero b) eqn:Hz.
  - apply andb_true_iff in Hz as [Hza%is_nzero_Prim2SF Hzb%is_pzero_Prim2SF].
    split; [by right|]. split; [by eapply zeros_leb|by apply leb_refl].
  - split; [by left|]. split; [by apply leb_refl|by apply leb_total].
Qed.

Lemma infinity_leb (v : float) : (infinity <=? v) = true -> v = infinity.
Proof.
  rewrite leb_spec. intros H. apply Prim2SF_inj.
  change (Prim2SF infinity) with (S754_infinity false) in *.
  destruct (Prim2SF v) as [s|[|]| |s m e]; try done; by destruct s.
Qed.

Lemma leb_neg_infinity (v : float) :
  (v <=? neg_infinity) = true -> v = neg_infinity.
Proof.
  rewrite leb_spec. intros H. apply Prim2SF_inj.
  change (Prim2SF neg_infinity) with (S754_infinity true) in *.
  destruct (Prim2SF v) as [s|[|]| |s m e]; try done; by destruct s.
Qed.

(** ** The extremes the box is grown from *)

Lemma fold_Math_min (l : list float) : forall init,
  is_nan init = false -> Forall (fun v => is_nan v = false) l ->
  let m := foldl Double.Math_min init l in
  is_nan m = false /\ (m = init \/ m ∈ l) /\
  (m <=? init) = true /\ (forall v, v ∈ l -> (m <=? v) = true).
Proof.
  induction l as [|v l IH]; intros init Hi Hl; simpl.
  - split; [done|]. split; [by left|]. split; [by apply leb_refl|].
    by intros v ?%elem_of_nil.
  - apply Forall_cons in Hl as [Hv Hl].
    destruct (Math_min_spec init v Hi Hv) as (Hor & Hmi & Hmv).
    assert (Hm : is_nan (Double.Math_min init v) = false)
      by (by destruct Hor as [->| ->]).
    destruct (IH _ Hm Hl) as (Hn & Hin & Hle & Hall).
    split; [done|]. split; [|split].
    + destruct Hin as [->|Hin]; [|right; by right].
      destruct Hor as [->| ->]; [by left|right; by left].
    + by eapply leb_trans.
    + intros w [->|Hw]%elem_of_cons; [by eapply leb_trans|by apply Hall].
Qed.

Lemma fold_Math_max (l : list float) : forall init,
  is_nan init = false -> Forall (fun v => is_nan v = false) l ->
  let m := foldl Double.Math_max init l in
  is_nan m = false /\ (m = init \/ m ∈ l) /\
  (init <=? m) = true /\ (forall v, v ∈ l -> (v <=? m) = true).
Proof.
  induction l as [|v l IH]; intros init Hi Hl; simpl.
  - split; [done|]. split; [by left|]. split; [by apply leb_refl|].
    by intros v ?%elem_of_nil.
  - apply Forall_cons in Hl as [Hv Hl].
    destruct (Math_max_spec init v Hi Hv) as (Hor & Hmi & Hmv).
    assert (Hm : is_nan (Double.Math_max init v) = false)
      by (by destruct Hor as [->| ->]).
    destruct (IH _ Hm Hl) as (Hn & Hin & Hle & Hall).
    split; [done|]. split; [|split].
    + destruct Hin as [->|Hin]; [|right; by right].
      destruct Hor as [->| ->]; [by left|right; by left].
    + by eapply leb_trans.
    + intros w [->|Hw]%elem_of_cons; [by eapply leb_trans|by apply Hall].
Qed.

(** Grown from [Infinity] over a non-empty list without NaN, the
    minimum is the least element of the list. *)
Lemma fold_Math_min_least (l : list float) :
  l <> [] -> Forall (fun v => is_nan v = false) l ->
  Double.least (foldl Double.Math_min infinity l) l.
Proof.
  intros Hne Hl.
  destruct (fold_Math_min l infinity eq_refl Hl) as (_ & Hin & _ & Hall).
  split; [|done].
  destruct Hin as [Hm|Hin]; [|done].
  destruct l as [|v l]; [done|].
  rewrite Hm in Hall |- *.
  rewrite (infinity_leb v) at 1; [by left|]. apply Hall. by left.
Qed.

Lemma fold_Math_max_greatest (l : list float) :
  l <> [] -> Forall (fun v => is_nan v = false) l ->
  Double.greatest (foldl Double.Math_max neg_infinity l) l.
Proof.
  intros Hne Hl.
  destruct (fold_Math_max l neg_infinity eq_refl Hl) as (_ & Hin & _ & Hall).
  split; [|done].
  destruct Hin as [Hm|Hin]; [|done].
  destruct l as [|v l]; [done|].
  rewrite Hm in Hall |- *.
  rewrite (leb_neg_infinity v) at 1; [by left|]. apply Hall. by left.
Qed.

(** The four sides of the box are grown independently. *)
Lemma double_foldl_widen (tile : list Double.dot) : forall b,
  foldl Double.widen b tile =
  Double.mkBox
    (foldl Double.Math_min (Double.minx b)
       ((fun p => Double.x p - Double.r p) <$> tile))
    (foldl Double.Math_min (Double.miny b)
       ((fun p => Double.y p - Double.r p) <$> tile))
    (foldl Double.Math_max (Double.maxx b)
       ((fun p => Double.x p + Double.r p) <$> tile))
    (foldl Double.Math_max (Double.maxy b)
       ((fun p => Double.y p + Double.r p) <$> tile)).
Proof.
  induction tile as [|p tile IH]; intros b; simpl.
  - by destruct b.
  - by rewrite IH.
Qed.

End DoubleBox.

(** * The claims *)

(** C1 (partition).  For every list of observations, every [eps] and every
    [minPts] (in particular for [eps >= 0] and [minPts >= 1]) the call
    [dbscan(points, eps, minPts)] returns, and the tiles it returns
    partition the input: taken together, the members of the tiles are the
    input observations, each one exactly once (as multisets, so that none
    is duplicated and none is dropped). *)
Theorem dbscan_partition (points : list point) (eps : num) (minPts : Z) :
  exists tiles,
    dbscan points eps minPts = Ok tiles /\ concat tiles ≡ₚ points.
Proof. apply dbscan_perm. Qed.

(** C2 (scenario A).  On the dots (0,0), (5,0) and (100,100), each of
    radius 5, [dbscan] with [eps = 10] and [minPts = 1] returns two tiles,
    the first with (0,0) and (5,0), the second with (100,100); when these
    are the dots that pass the filter and the eps slider is at 10,
    [analyzeFrame] reports 3 dots in all and the tile counts [2, 1]. *)
Theorem scenario_A_tiles (cfg : config) (width height : Z)
    (cands : list candidate) :
  EPS cfg = Some (Fin 10) ->
  filterDots (MIN_AREA cfg) (MAX_AREA cfg) cands = scenario_A ->
  dbscan scenario_A (Fin 10) 1 =
    Ok [[dot5 0 0; dot5 5 0]; [dot5 100 100]] /\
  analyzeFrame cfg width height cands = Ok (mkFrameResult 3 [2%nat; 1%nat]).
Proof.
  intros Heps Hdots. split; [reflexivity|].
  unfold analyzeFrame, effective_eps. rewrite Heps, Hdots. reflexivity.
Qed.

Lemma scenario_A_tiles_witness :
  analyzeFrame (on_eps_input (Fin 10) default_config) 1280 720
    [round_contour (Fin 0) (Fin 0) (Fin 5);
     round_contour (Fin 5) (Fin 0) (Fin 5);
     round_contour (Fin 100) (Fin 100) (Fin 5)]
  = Ok (mkFrameResult 3 [2%nat; 1%nat]).
Proof.
  apply (scenario_A_tiles (on_eps_input (Fin 10) default_config) 1280 720);
    reflexivity.
Defined.

(** C4 (the observation filter).  For a contour with finite area and a
    bounding box of finite width and positive finite height, and finite
    bounds [minArea] and [maxArea], the filter accepts the contour if and
    only if [minArea <= area <= maxArea] and [0.5 < width/height < 2.0],
    and it emits the contour's dot exactly in that case.  In particular
    (when [minArea <= maxArea] and the ratio is within its bounds) an area
    equal to [minArea] or to [maxArea] is accepted, and a contour with
    [width/height] exactly [0.5] is rejected. *)
Theorem filter_accepts_iff (lo hi a w h : Q) (cx cy r : num) :
  0 < h ->
  let c := mkCandidate (Fin a) (Fin w) (Fin h) cx cy r in
  (accepts (Fin lo) (Fin hi) c = true <->
     (lo <= a /\ a <= hi) /\ ((1 # 2) < w / h /\ w / h < 2)) /\
  filterDots (Fin lo) (Fin hi) [c] =
    (if accepts (Fin lo) (Fin hi) c then [mkPoint cx cy r] else []) /\
  (lo <= hi -> (1 # 2) < w / h -> w / h < 2 -> a == lo \/ a == hi ->
     accepts (Fin lo) (Fin hi) c = true) /\
  (w / h == 1 # 2 -> accepts (Fin lo) (Fin hi) c = false).
Proof.
  intros Hh c.
  assert (Hiff : accepts (Fin lo) (Fin hi) c = true <->
            (lo <= a /\ a <= hi) /\ ((1 # 2) < w / h /\ w / h < 2)).
  { unfold accepts, c, Num.ge, Num.gt. cbn [c_area c_width c_height].
    rewrite Num_div_fin by done.
    rewrite !andb_true_iff, !Num_le_fin, !Num_lt_fin. tauto. }
  split; [done|]. split; [|split].
  - unfold filterDots. simpl. by destruct (accepts (Fin lo) (Fin hi) c).
  - intros Hlohi H1 H2 Ha. apply Hiff. split; [|done].
    destruct Ha as [Ha|Ha]; rewrite Ha; split; lra.
  - intros Hr. apply not_true_is_false. intros Hacc.
    apply Hiff in Hacc as (_ & Hlt & _). rewrite Hr in Hlt. lra.
Qed.

Lemma filter_accepts_iff_witness :
  accepts (Fin 30) (Fin 5000) (round_contour (Fin 1) (Fin 2) (Fin 5)) = true <->
  (30 <= 100 /\ 100 <= 5000) /\ ((1 # 2) < 10 / 10 /\ 10 / 10 < 2).
Proof.
  exact (proj1 (filter_accepts_iff 30 5000 100 10 10 (Fin 1) (Fin 2) (Fin 5)
                  ltac:(reflexivity))).
Defined.

(** C6 (order of the output).  The output of [dbscan] is the list of the
    cluster tiles, one for each cluster id [0, 1, ..., C-1] in ascending
    order of the ids (the order in which the clusters were created), each
    holding the points labelled with that id in input order, followed by
    the singleton tiles of the points left without a cluster id, in
    input order; no tile of the output is empty. *)
Theorem dbscan_output_order (points : list point) (eps : num) (minPts : Z) :
  exists st,
    label_pass points eps minPts = Ok st /\
    let N := length points in
    let groups := cluster_members points (labels st) N <$> seq 0 (C st) in
    let singles := promoted points (labels st) N in
    dbscan points eps minPts = Ok (groups ++ singles) /\
    Forall (fun tile => tile <> []) (groups ++ singles) /\
    Forall (fun tile => length tile = 1%nat) singles.
Proof.
  destruct (dbscan_closed points eps minPts)
    as (st & Hrun & _ & _ & _ & Hne & Hdb).
  exists st. split; [done|]. simpl. split; [done|].
  assert (Hs : Forall (fun tile : list point => length tile = 1%nat)
                 (promoted points (labels st) (length points))).
  { unfold promoted. apply Forall_fmap, Forall_forall. by intros p _. }
  split; [|done].
  apply Forall_app. split; [done|].
  eapply Forall_impl; [exact Hs|]. intros [|p t]; simpl; done.
Qed.

(** C8, as the source has it.  The listener of the eps slider stores the
    value it is given as it is, whatever its sign, and [analyzeFrame]
    then clusters with that value; since the neighbour test compares with
    [eps * eps], a negative [eps] yields the tiles of its absolute
    value. *)
Theorem negative_eps_accepted :
  (forall value cfg width height,
     EPS (on_eps_input value cfg) = Some value /\
     effective_eps (on_eps_input value cfg) width height = value) /\
  (forall points e minPts,
     dbscan points (Fin (- e)) minPts = dbscan points (Fin e) minPts).
Proof.
  split; [done|].
  intros points e minPts. apply dbscan_ext. apply within_neg.
Qed.

(** C8 fails on the source: the value [-5] given to the listener becomes
    the eps of the configuration, no error is raised, and the next frame
    is clustered with it (two dots 5 apart end up in one tile). *)
Lemma negative_eps_is_used :
  let cfg := on_eps_input (Fin (-5)) default_config in
  EPS cfg = Some (Fin (-5)) /\
  effective_eps cfg 1280 720 = Fin (-5) /\
  analyzeFrame cfg 1280 720
    [round_contour (Fin 0) (Fin 0) (Fin 5);
     round_contour (Fin 3) (Fin 4) (Fin 5)]
  = Ok (mkFrameResult 2 [2%nat]).
Proof. repeat split. Qed.

(** C9, as the source has it.  The filter tests the area and the aspect
    ratio only: replacing the center and the radius of a contour by any
    other values, finite or not, does not change whether it is accepted;
    the dots emitted are those of the accepted contours, in order and
    with the center and radius as given; and each contour is decided on
    its own, whatever the contours before and after it. *)
Theorem filter_ignores_center (lo hi : num) :
  (forall a w h cx cy r cx' cy' r',
     accepts lo hi (mkCandidate a w h cx cy r) =
     accepts lo hi (mkCandidate a w h cx' cy' r')) /\
  (forall cands,
     filterDots lo hi cands =
     dot_of <$> filter (fun c => accepts lo hi c = true) cands) /\
  (forall before c after,
     filterDots lo hi (before ++ c :: after) =
     filterDots lo hi before ++
     (if accepts lo hi c then [dot_of c] else []) ++
     filterDots lo hi after).
Proof.
  split; [done|]. split; [apply filterDots_filter|].
  intros before c after.
  rewrite filterDots_app. f_equal.
  change (c :: after) with ([c] ++ after). by rewrite filterDots_app.
Qed.

(** C9 fails on the source: a contour whose enclosing circle has a NaN
    center abscissa passes the filter and its dot is emitted, between
    those of two ordinary contours. *)
Lemma nan_center_is_emitted :
  let bad := round_contour NaN (Fin 7) (Fin 5) in
  Num.is_fin (c_cx bad) = false /\
  filterDots (Fin 30) (Fin 5000)
    [round_contour (Fin 1) (Fin 2) (Fin 5); bad;
     round_contour (Fin 40) (Fin 2) (Fin 5)]
  = [mkPoint (Fin 1) (Fin 2) (Fin 5); mkPoint NaN (Fin 7) (Fin 5);
     mkPoint (Fin 40) (Fin 2) (Fin 5)].
Proof. split; reflexivity. Qed.

(** C10, as the source has it.  Let the centers of the points be
    finite and [eps] be a number other than NaN, and let [minPts] be
    [MIN_PTS = 1].  Then every point lies in its own neighbourhood, so
    the test [neighbors.length < minPts] that guards the noise branch is
    false at every point; after any number of iterations of the main loop
    no label is the noise mark [-1]; when the loop is over every point
    carries a cluster id; the conversion loop promotes no point to a
    singleton; and every observation is a member of some tile. *)
Theorem minPts_one_no_noise (points : list point) (eps : num) :
  Forall finite_center points -> eps <> NaN ->
  let N := length points in
  (forall i p, points !! i = Some p ->
     i ∈ regionQuery_from eps p points 0) /\
  (forall i, (i < N)%nat ->
     exists nbs, regionQuery points eps i = Ok nbs /\
                 (Z.of_nat (length nbs) <? MIN_PTS)%Z = false) /\
  (forall k, (k <= N)%nat ->
     exists st, scan points eps MIN_PTS (seq 0 k) (initial N) = Ok st /\
                forall j, labels st !! j <> Some (Some noise)) /\
  exists st tiles,
    label_pass points eps MIN_PTS = Ok st /\
    (forall i, (i < N)%nat ->
       exists c, (c < C st)%nat /\ labels st !! i = Some (Some (Z.of_nat c))) /\
    promoted points (labels st) N = [] /\
    dbscan points eps MIN_PTS = Ok tiles /\
    tiles = (cluster_members points (labels st) N <$> seq 0 (C st)) /\
    (forall p, p ∈ points -> exists tile, tile ∈ tiles /\ p ∈ tile).
Proof.
  intros Hfin Heps N.
  assert (Hself : forall i p, points !! i = Some p ->
            i ∈ regionQuery_from eps p points 0).
  { intros i p Hp. apply elem_of_regionQuery_from. exists p.
    rewrite Nat.sub_0_r. split; [lia|]. split; [done|].
    apply within_self; [|done].
    rewrite Forall_forall in Hfin. apply Hfin. by eapply list_elem_of_lookup_2. }
  assert (Hcore : all_core points eps MIN_PTS).
  { intros i p Hp. specialize (Hself i p Hp).
    destruct (regionQuery_from eps p points 0); [by apply elem_of_nil in Hself|].
    unfold MIN_PTS. simpl. lia. }
  split; [done|]. split; [|split].
  - intros i Hi. destruct (lookup_lt_is_Some_2 points i Hi) as [p Hp].
    unfold regionQuery. rewrite Hp. eexists. split; [done|].
    apply Z.ltb_ge, (Hcore i p Hp).
  - intros k Hk.
    destruct (scan_ok points eps MIN_PTS (seq 0 k) (initial N))
      as (st & Hrun & _ & _ & _ & Ht).
    + apply Forall_forall. intros j Hj%elem_of_seq. lia.
    + apply initial_wf.
    + exists st. split; [done|].
      apply Ht; [done|apply initial_tagged].
  - destruct (dbscan_closed points eps MIN_PTS)
      as (st & Hrun & Hwf & Hvis & Htag & _ & Hdb).
    specialize (Htag Hcore).
    assert (Hlab : forall i, (i < N)%nat ->
              exists c, (c < C st)%nat /\
                        labels st !! i = Some (Some (Z.of_nat c))).
    { intros i Hi.
      destruct (tg_visited _ Htag i (Hvis i Hi)) as [z Hz].
      destruct (wf_range _ _ Hwf i z Hz) as [->|Hr].
      - by apply (tg_nonoise _ Htag) in Hz.
      - exists (Z.to_nat z). split; [lia|]. rewrite Hz. do 2 f_equal. lia. }
    assert (Hprom : promoted points (labels st) N = []).
    { unfold promoted, at_indices.
      replace (filter _ (seq 0 N)) with (@nil nat); [done|].
      symmetry. apply elem_of_nil_inv.
      intros i (Hu & Hi%elem_of_seq)%list_elem_of_filter.
      destruct (Hlab i) as (c & _ & Hc); [lia|].
      rewrite (label_at_lookup _ _ _ Hc), unlabelled_cluster in Hu. done. }
    fold N in Hdb. rewrite Hprom, app_nil_r in Hdb.
    eexists st, _. split; [done|]. split; [done|]. split; [done|].
    split; [exact Hdb|]. split; [done|].
    intros p Hp.
    destruct (dbscan_perm points eps MIN_PTS) as (tiles & Hrun' & Hperm).
    rewrite Hdb in Hrun'. injection Hrun' as <-.
    rewrite <- Hperm in Hp. apply list_elem_of_In, in_concat in Hp.
    destruct Hp as (tile & Ht & Hp). exists tile.
    by rewrite !list_elem_of_In.
Qed.

Lemma minPts_one_no_noise_witness :
  exists tiles,
    dbscan on_a_line (Fin 5) MIN_PTS = Ok tiles /\
    (forall p, p ∈ on_a_line -> exists tile, tile ∈ tiles /\ p ∈ tile).
Proof.
  destruct (minPts_one_no_noise on_a_line (Fin 5))
    as (_ & _ & _ & st & tiles & _ & _ & _ & Hrun & _ & Hall).
  - repeat constructor.
  - discriminate.
  - exists tiles. split; [exact Hrun|exact Hall].
Defined.

(** C10 fails on the source: a dot with a NaN abscissa is not in its own
    neighbourhood, so with [minPts = 1] the main loop takes the noise
    branch and marks it [-1]; no cluster is created, and the conversion
    loop promotes the dot to a singleton tile. *)
Lemma nan_dot_is_marked_noise :
  let nan_dot := mkPoint NaN (Fin 0) (Fin 5) in
  regionQuery [nan_dot] (Fin 10) 0 = Ok [] /\
  label_pass [nan_dot] (Fin 10) MIN_PTS = Ok (mkState [true] [Some noise] 0) /\
  promoted [nan_dot] [Some noise] 1 = [[nan_dot]] /\
  dbscan [nan_dot] (Fin 10) MIN_PTS = Ok [[nan_dot]].
Proof. split; [|split; [|split]]; reflexivity. Qed.

(** ** The claims that depend on the arithmetic of the numbers *)

Section DoubleClaims.

Import Floats.
Local Open Scope float_scope.

(** C3, as the source has it.  The neighbour query compares the computed
    value of [dx*dx + dy*dy] with the computed value of [eps*eps], every
    operation being the binary64 one: the point [j] is in the answer of
    [regionQuery(i)] exactly when the first is at most the second.  The
    comparison is inclusive (equal computed values give a neighbour), a
    larger computed squared distance gives none, and on finite values it
    is the comparison of the rationals the two computed numbers stand
    for.  When both sides are computed without rounding error, the point
    [j] is a neighbour exactly when the squared distance is at most the
    square of [eps]; then, for [eps >= 0], two points whose Euclidean
    distance is [eps] are neighbours, and two points at the distance
    [eps + ε] are not, whatever [ε > 0]. *)
Theorem neighbour_test_computed (points : list Double.dot) (eps : float)
    (i j : nat) (p q : Double.dot) :
  points !! i = Some p -> points !! j = Some q ->
  let dx := Double.x p - Double.x q in
  let dy := Double.y p - Double.y q in
  let d2 := dx * dx + dy * dy in
  let e2 := eps * eps in
  exists nbs,
    Double.regionQuery points eps i = Ok nbs /\
    (j ∈ nbs <-> (d2 <=? e2) = true) /\
    ((d2 =? e2) = true -> j ∈ nbs) /\
    ((e2 <? d2) = true -> j ∉ nbs) /\
    (forall d e, Double.value d2 = Some d -> Double.value e2 = Some e ->
       j ∈ nbs <-> (d <= e)%Q) /\
    (forall D E, Double.unrounded eps p q D E ->
       (j ∈ nbs <-> (D <= E)%Q) /\
       (forall e, Double.value eps = Some e -> (0 <= e)%Q ->
          (Double.distance p q = Q2R e -> j ∈ nbs) /\
          (forall ε : R, (0 < ε)%R ->
             Double.distance p q = (Q2R e + ε)%R -> j ∉ nbs))).
Proof.
  intros Hp Hq dx dy d2 e2.
  destruct (Double.regionQuery points eps i) as [nbs| |] eqn:Hrun;
    try (unfold Double.regionQuery in Hrun; by rewrite Hp in Hrun).
  exists nbs. split; [done|].
  assert (Hin : j ∈ nbs <-> (d2 <=? e2) = true).
  { rewrite (double_elem_of_regionQuery _ _ _ _ _ _ Hp Hrun). split.
    - intros (q' & Hq' & Hw). by replace q' with q in Hw by congruence.
    - intros Hw. by exists q. }
  split; [done|]. split; [|split; [|split]].
  - intros He. by apply Hin, eqb_leb.
  - intros Hlt Hj%Hin. by rewrite (ltb_not_leb _ _ Hlt) in Hj.
  - intros d e Hd He. etransitivity; [exact Hin|].
    exact (leb_value _ _ _ _ Hd He).
  - intros D E (HD & HE & d & e & Hd & He & HdD & HeE).
    assert (Hiff : j ∈ nbs <-> (D <= E)%Q).
    { etransitivity; [exact Hin|].
      etransitivity; [exact (leb_value _ _ _ _ Hd He)|].
      by rewrite HdD, HeE. }
    split; [done|]. intros v Hv Hv0.
    pose proof (distance_le eps p q D E v HD HE Hv Hv0) as Hdist.
    split.
    + intros Heq. apply Hiff, Hdist. rewrite Heq. apply Rle_refl.
    + intros ε Hε Heq Hj%Hiff%Hdist. rewrite Heq in Hj. lra.
Qed.

Lemma neighbour_test_computed_witness :
  exists nbs,
    Double.regionQuery Double.on_a_line 5 0 = Ok nbs /\
    1%nat ∈ nbs /\ 2%nat ∉ nbs.
Proof.
  destruct (neighbour_test_computed Double.on_a_line 5 0 1
              (Double.dot5 0 0) (Double.dot5 3 4) eq_refl eq_refl)
    as (nbs & Hrun & _ & _ & _ & _ & Hin).
  destruct (neighbour_test_computed Double.on_a_line 5 0 2
              (Double.dot5 0 0) (Double.dot5 6 8) eq_refl eq_refl)
    as (nbs' & Hrun' & _ & _ & _ & _ & Hout).
  exists nbs. split; [exact Hrun|]. split.
  - refine (proj1 (proj2 (Hin 25%Q 25%Q _) 5%Q eq_refl _) distance_on_a_line_1).
    + split; [reflexivity|]. split; [reflexivity|].
      exists 25%Q, 25%Q. repeat split; reflexivity.
    + discriminate.
  - rewrite Hrun in Hrun'. injection Hrun' as <-.
    refine (proj2 (proj2 (Hout 100%Q 25%Q _) 5%Q eq_refl _) 5%R _
              distance_on_a_line_2).
    + split; [reflexivity|]. split; [reflexivity|].
      exists 100%Q, 25%Q. repeat split; reflexivity.
    + discriminate.
    + lra.
Defined.

(** C3 fails on the source.  The dots [(10, 5)] and [(93, 5 + 2^-21)]
    are farther apart than [eps = 83] (the squared distance exceeds
    [83^2] by [2^-42]) and yet each is in the answer of the other: the
    sum [6889 + 2^-42] is rounded to [6889].  The dots [(0, 0)] and
    [(276319131, 260313140)] are at the distance [379625069] exactly and
    yet not neighbours at that [eps]: the sum of the two rounded squares
    is above the rounded square of [eps]. *)
Lemma rounding_moves_the_boundary :
  (let p := Double.dot5 10 5 in
   let q := Double.dot5 93 (5 + 0x1p-21) in
   exists D,
     Double.exact_d2 p q = Some D /\
     Double.exact_sq 83 = Some 6889%Q /\ (6889 < D)%Q /\
     Double.regionQuery [p; q] 83 0 = Ok [0; 1]%nat /\
     Double.regionQuery [p; q] 83 1 = Ok [0; 1]%nat) /\
  (let p := Double.dot5 0 0 in
   let q := Double.dot5 276319131 260313140 in
   exists D E,
     Double.exact_d2 p q = Some D /\
     Double.exact_sq 379625069 = Some E /\ (D == E)%Q /\
     Double.regionQuery [p; q] 379625069 0 = Ok [0]%nat /\
     Double.regionQuery [p; q] 379625069 1 = Ok [1]%nat).
Proof.
  split.
  - eexists. split; [vm_compute; reflexivity|].
    split; [reflexivity|]. split; [reflexivity|].
    split; vm_compute; reflexivity.
  - eexists _, _. split; [vm_compute; reflexivity|].
    split; [vm_compute; reflexivity|]. split; [reflexivity|].
    split; vm_compute; reflexivity.
Qed.

Lemma four_dots_isolated : Double.isolated Double.four_dots.
Proof.
  intros i j p q Hp Hq Hij.
  destruct i as [|[|[|[|i]]]]; try discriminate Hp;
    destruct j as [|[|[|[|j]]]]; try discriminate Hq; try (by destruct Hij);
    injection Hp as <-; injection Hq as <-; vm_compute; reflexivity.
Defined.




(** C7, as the source has it.  For every non-empty tile in which no
    [x - r], [y - r], [x + r] or [y + r] is NaN, the box of [drawOverlay]
    is [minX = m1 - 10], [minY = m2 - 10], [maxX = m3 + 10] and
    [maxY = m4 + 10], where [m1] is the least over the members of the
    computed [x - r], [m2] the least computed [y - r], [m3] the greatest
    computed [x + r] and [m4] the greatest computed [y + r], and every
    [-] and [+], the padding included, is the binary64 operation with
    its rounding; the count written on the tile is the number of its
    members, and so is the count [analyzeFrame] reports for the tile. *)
Theorem tile_box_computed (tile : list Double.dot) :
  tile <> [] -> Forall Double.sides_not_nan tile ->
  (exists m1 m2 m3 m4 : float,
     Double.least m1 ((fun p => Double.x p - Double.r p) <$> tile) /\
     Double.least m2 ((fun p => Double.y p - Double.r p) <$> tile) /\
     Double.greatest m3 ((fun p => Double.x p + Double.r p) <$> tile) /\
     Double.greatest m4 ((fun p => Double.y p + Double.r p) <$> tile) /\
     Double.tile_box tile =
       Double.mkBox (m1 - 10) (m2 - 10) (m3 + 10) (m4 + 10)) /\
  Double.pad = 10 /\
  Double.pipCount tile = length tile /\
  (forall cfg width height cands tiles,
     dbscan (filterDots (MIN_AREA cfg) (MAX_AREA cfg) cands)
            (effective_eps cfg width height) MIN_PTS = Ok tiles ->
     exists n, analyzeFrame cfg width height cands
               = Ok (mkFrameResult n (pipCount <$> tiles))).
Proof.
  intros Hne Hnan. split; [|split; [done|split; [done|]]].
  - assert (Hne' : forall f : Double.dot -> float, f <$> tile <> []).
    { intros f. by destruct tile. }
    assert (Hf : forall f : Double.dot -> float,
              (forall p, Double.sides_not_nan p -> is_nan (f p) = false) ->
              Forall (fun v => is_nan v = false) (f <$> tile)).
    { intros f Hfp. apply Forall_fmap. eapply Forall_impl; [exact Hnan|].
      intros p Hp. by apply Hfp. }
    eexists _, _, _, _.
    do 2 (split; [apply fold_Math_min_least;
                    [apply Hne'|apply Hf; by intros p (?&?&?&?)]|]).
    do 2 (split; [apply fold_Math_max_greatest;
                    [apply Hne'|apply Hf; by intros p (?&?&?&?)]|]).
    unfold Double.tile_box. by rewrite double_foldl_widen.
  - intros cfg width height cands tiles Hrun. unfold analyzeFrame.
    rewrite Hrun. by eexists.
Qed.

Lemma tile_box_computed_witness :
  let tile := [Double.dot5 0 0; Double.dot5 5 0] in
  exists m1 m2 m3 m4 : float,
    Double.least m1 ((fun p => Double.x p - Double.r p) <$> tile) /\
    Double.least m2 ((fun p => Double.y p - Double.r p) <$> tile) /\
    Double.greatest m3 ((fun p => Double.x p + Double.r p) <$> tile) /\
    Double.greatest m4 ((fun p => Double.y p + Double.r p) <$> tile) /\
    Double.tile_box tile =
      Double.mkBox (m1 - 10) (m2 - 10) (m3 + 10) (m4 + 10).
Proof.
  refine (proj1 (tile_box_computed [Double.dot5 0 0; Double.dot5 5 0] _ _)).
  - discriminate.
  - repeat constructor.
Defined.

(** C7 fails on the source.  For the tile of the one dot [x = 2^53],
    [y = 0], [r = 1] the right side of the box is [2^53 + 10], below
    [(x + r) + 10 = 2^53 + 11]: the sum [2^53 + 1] is rounded to
    [2^53]. *)
Lemma box_side_is_rounded :
  let d := Double.mkDot 0x1p53 0 1 in
  Double.value (Double.x d) = Some 9007199254740992%Q /\
  Double.value (Double.r d) = Some 1%Q /\
  Double.value (Double.maxx (Double.tile_box [d]))
    = Some 9007199254741002%Q /\
  (9007199254741002 < (9007199254740992 + 1) + 10)%Q.
Proof. split; [|split; [|split]]; vm_compute; reflexivity. Qed.

End DoubleClaims.

(** * Further properties of the source *)

(** ** Reasoning rules for the two loops of the labelling pass *)

Section Rules.

Variable points : list point.
Variable eps : num.
Variable minPts : Z.

Let N := length points.

Lemma near_regionQuery a b p :
  points !! a = Some p ->
  near points eps a b <-> b ∈ regionQuery_from eps p points 0.
Proof.
  intros Hp. rewrite elem_of_regionQuery_from. unfold near.
  setoid_rewrite Nat.sub_0_r. split.
  - intros (p' & q & Hp' & Hq & Hw). exists q.
    rewrite Hp in Hp'. injection Hp' as <-. split; [lia|done].
  - intros (q & _ & Hq & Hw). by exists p, q.
Qed.

Lemma near_lt a b : near points eps a b -> (a < N)%nat /\ (b < N)%nat.
Proof.
  intros (p & q & Hp & Hq & _). split; by eapply lookup_lt_Some.
Qed.

(** What one run of the first statement of the expansion loop does. *)
Lemma probe_cases n seeds v seeds' v' :
  (n < N)%nat -> length v = N ->
  probe points eps minPts n seeds v = Ok (seeds', v') ->
  (v !! n = Some true /\ seeds' = seeds /\ v' = v) \/
  (v !! n = Some false /\ v' = <[n := true]> v /\
   exists p, points !! n = Some p /\
     let nbs := regionQuery_from eps p points 0 in
     ((minPts <= Z.of_nat (length nbs))%Z /\ seeds' = set_add_all nbs seeds \/
      (Z.of_nat (length nbs) < minPts)%Z /\ seeds' = seeds)).
Proof.
  intros Hn Hv. unfold probe, truthy_at.
  destruct (lookup_lt_is_Some_2 v n) as [[] Hvn]; [lia| |]; rewrite Hvn; simpl.
  - intros [= <- <-]. by left.
  - destruct (lookup_lt_is_Some_2 points n Hn) as [p Hp].
    unfold regionQuery. rewrite Hp. simpl.
    rewrite array_set_in_range by lia.
    destruct (minPts <=? _)%Z eqn:Hcmp; intros [= <- <-]; right;
      (split; [done|]); (split; [done|]); exists p; (split; [done|]); simpl.
    + left. split; [by apply Z.leb_le|done].
    + right. split; [by apply Z.leb_gt|done].
Qed.

(** Loop rule for the expansion loop: a property of the iterator
    position, the seed set and the state that every round keeps holds
    when the loop is left. *)
Lemma expand_rule (cid : Z) (P : nat -> list nat -> dbstate -> Prop) :
  (forall k seeds st n seeds' v',
     P k seeds st -> seeds !! k = Some n ->
     probe points eps minPts n seeds (visited st) = Ok (seeds', v') ->
     P (S k) seeds' (mkState v' (claim cid n (labels st)) (C st))) ->
  forall fuel k seeds st st',
    P k seeds st ->
    expand points eps minPts cid fuel k seeds st = Ok st' ->
    exists k' seeds', P k' seeds' st' /\ seeds' !! k' = None.
Proof.
  intros Hstep fuel.
  induction fuel as [|fuel IH]; intros k seeds st st' HP; simpl;
    destruct (seeds !! k) as [n|] eqn:Hk; try done;
    try (intros [= <-]; by exists k, seeds).
  destruct (probe points eps minPts n seeds (visited st)) as [[seeds1 v1]| |]
    eqn:Hprobe; simpl; try done.
  apply IH. by eapply Hstep.
Qed.

(** What one round of the main loop does. *)
Lemma visit_cases i st st' :
  (i < N)%nat -> wf N st ->
  visit points eps minPts i st = Ok st' ->
  (visited st !! i = Some true /\ st' = st) \/
  (visited st !! i = Some false /\ labels st !! i = Some None /\
   exists p, points !! i = Some p /\
     let nbs := regionQuery_from eps p points 0 in
     let v1 := <[i := true]> (visited st) in
     ((Z.of_nat (length nbs) < minPts)%Z /\
      st' = mkState v1 (<[i := Some noise]> (labels st)) (C st) \/
      (minPts <= Z.of_nat (length nbs))%Z /\
      expand points eps minPts (Z.of_nat (C st)) N 0
        (set_delete i (set_of_array nbs))
        (mkState v1 (<[i := Some (Z.of_nat (C st))]> (labels st)) (S (C st)))
      = Ok st')).
Proof.
  intros Hi Hwf. unfold visit, truthy_at.
  pose proof (wf_visited _ _ Hwf) as Hv. pose proof (wf_labels _ _ Hwf) as Hl.
  destruct (lookup_lt_is_Some_2 (visited st) i) as [[] Hvi]; [lia| |];
    rewrite Hvi; simpl.
  - intros [= <-]. by left.
  - assert (Hnone : labels st !! i = Some None).
    { destruct (lookup_lt_is_Some_2 (labels st) i) as [[z|] Hz]; [lia| |done].
      apply (wf_seen _ _ Hwf) in Hz. congruence. }
    destruct (lookup_lt_is_Some_2 points i Hi) as [p Hp].
    unfold regionQuery. rewrite Hp. simpl.
    rewrite !array_set_in_range by lia.
    intros Hrun. right. split; [done|]. split; [done|].
    exists p. split; [done|]. simpl.
    destruct (_ <? minPts)%Z eqn:Hcmp.
    + left. split; [by apply Z.ltb_lt|]. by injection Hrun as <-.
    + right. split; [by apply Z.ltb_ge|done].
Qed.

(** Loop rule for the main loop. *)
Lemma scan_rule (P : dbstate -> Prop) :
  (forall i st st', (i < N)%nat -> P st ->
     visit points eps minPts i st = Ok st' -> P st') ->
  forall idxs st st',
    Forall (fun j => (j < N)%nat) idxs -> P st ->
    scan points eps minPts idxs st = Ok st' -> P st'.
Proof.
  intros Hstep idxs.
  induction idxs as [|i idxs IH]; intros st st' Hall HP; simpl.
  - by intros [= <-].
  - apply Forall_cons in Hall as [Hi Hall].
    destruct (visit points eps minPts i st) as [st1| |] eqn:Hvisit;
      simpl; try done.
    apply IH; [done|]. by eapply Hstep.
Qed.

Lemma label_pass_rule (P : dbstate -> Prop) :
  (forall i st st', (i < N)%nat -> P st ->
     visit points eps minPts i st = Ok st' -> P st') ->
  P (initial N) ->
  forall st, label_pass points eps minPts = Ok st -> P st.
Proof.
  intros Hstep H0 st. unfold label_pass. fold N.
  apply scan_rule; [done| |done].
  apply Forall_forall. intros j Hj%elem_of_seq. lia.
Qed.

End Rules.

(** ** What the loops keep, whatever [minPts] *)

Section Shape.

Variable points : list point.
Variable eps : num.
Variable minPts : Z.

Let N := length points.

Lemma seeds_ok_step c k seeds st n seeds' v' :
  seeds_ok N c seeds st -> seeds !! k = Some n ->
  probe points eps minPts n seeds (visited st) = Ok (seeds', v') ->
  seeds_ok N c seeds' (mkState v' (claim (Z.of_nat c) n (labels st)) (C st)) /\
  (n < N)%nat /\ (n < length (labels st))%nat /\
  (forall m x, seeds !! m = Some x -> seeds' !! m = Some x) /\
  mono (visited st) v' /\ v' !! n = Some true /\
  (forall j, j <> n -> v' !! j = visited st !! j).
Proof.
  intros (Hwf & Hc & Hnd & Hall) Hk Hprobe.
  assert (Hn : (n < N)%nat).
  { rewrite Forall_forall in Hall. apply Hall. by eapply list_elem_of_lookup_2. }
  destruct (probe_ok points eps minPts n seeds (visited st) Hn
              (wf_visited _ _ Hwf) Hnd Hall)
    as (s1 & v1 & Hp1 & Hnd' & Hall' & Hpre & Hlen & Hmono & Hvn & Hoth).
  rewrite Hprobe in Hp1. injection Hp1 as <- <-.
  split; [|split; [done|split; [by rewrite (wf_labels _ _ Hwf)|done]]].
  split; [by apply claim_wf|done].
Qed.

(** The state in which the expansion of a new cluster starts. *)
Lemma seed_state_wf i st :
  (i < N)%nat -> wf N st ->
  visited st !! i = Some false -> labels st !! i = Some None ->
  wf N (mkState (<[i := true]> (visited st))
                (<[i := Some (Z.of_nat (C st))]> (labels st)) (S (C st))).
Proof.
  intros Hi [Hv Hl Hr Hinh Hseen] Hvi Hli. split; simpl.
  - by rewrite length_insert.
  - by rewrite length_insert.
  - intros j z Hj. same_or_other j i.
    + rewrite list_lookup_insert_eq in Hj by lia. injection Hj as <-. right. lia.
    + rewrite list_lookup_insert_ne in Hj by done.
      destruct (Hr j z Hj) as [?|?]; [by left|right; lia].
  - intros c Hc. destruct (decide (c = C st)) as [->|Hne].
    + exists i. apply list_lookup_insert_eq. lia.
    + destruct (Hinh c) as [j Hj]; [lia|]. exists j.
      rewrite list_lookup_insert_ne; [done|]. intros ->. congruence.
  - intros j z Hj. same_or_other j i.
    + apply list_lookup_insert_eq. lia.
    + rewrite list_lookup_insert_ne in Hj by done.
      rewrite list_lookup_insert_ne by done. by eapply Hseen.
Qed.

Lemma seed_set_ok i p :
  points !! i = Some p ->
  let seeds := set_delete i (set_of_array (regionQuery_from eps p points 0)) in
  NoDup seeds /\ Forall (fun j => (j < N)%nat) seeds /\
  (forall x, x ∈ seeds <-> x <> i /\ near points eps i x).
Proof.
  intros Hp seeds. split; [|split].
  - apply set_delete_NoDup, set_add_all_NoDup, NoDup_nil_2.
  - apply Forall_forall.
    intros x (_ & [Hx%elem_of_nil|Hx]%elem_of_set_add_all)%elem_of_set_delete;
      [done|].
    apply regionQuery_from_bounds in Hx. unfold N. lia.
  - intros x. unfold seeds, set_of_array.
    rewrite elem_of_set_delete, elem_of_set_add_all, (near_regionQuery _ _ _ _ _ Hp).
    rewrite elem_of_nil. tauto.
Qed.

Lemma visit_wf i st st' :
  (i < N)%nat -> wf N st -> visit points eps minPts i st = Ok st' -> wf N st'.
Proof.
  intros Hi Hwf Hrun.
  destruct (visit_ok points eps minPts i st Hi Hwf) as (st1 & Hrun1 & Hwf1 & _).
  rewrite Hrun in Hrun1. by injection Hrun1 as <-.
Qed.

(** *** Members of a cluster are reachable from its seed *)

Lemma claim_lookup_inv cid n ls j z :
  (n < length ls)%nat ->
  claim cid n ls !! j = Some (Some z) ->
  ls !! j = Some (Some z) \/ (j = n /\ z = cid).
Proof.
  intros Hn Hj. same_or_other j n.
  - destruct (claim_same cid n ls Hn) as [[_ Hs]|(z' & _ & _ & Heq)].
    + rewrite Hs in Hj. injection Hj as <-. by right.
    + rewrite Heq in Hj. by left.
  - rewrite claim_other in Hj by done. by left.
Qed.

(** A point that carries a cluster id keeps it. *)
Lemma claim_keeps cid n ls j c :
  (n < length ls)%nat ->
  ls !! j = Some (Some (Z.of_nat c)) ->
  claim cid n ls !! j = Some (Some (Z.of_nat c)).
Proof.
  intros Hn Hj. same_or_other j n.
  - destruct (claim_same cid n ls Hn) as [[Hu _]|(_ & _ & _ & ->)]; [|done].
    by rewrite (label_at_lookup _ _ _ Hj), unlabelled_cluster in Hu.
  - by rewrite claim_other.
Qed.

Lemma visit_rooted i st st' :
  (i < N)%nat -> wf N st /\ rooted points eps minPts st ->
  visit points eps minPts i st = Ok st' ->
  wf N st' /\ rooted points eps minPts st'.
Proof.
  intros Hi [Hwf Hroot] Hrun. split; [by eapply visit_wf|].
  destruct (visit_cases points eps minPts i st st' Hi Hwf Hrun)
    as [[_ ->]|(Hvi & Hli & p & Hp & Hcase)]; [done|].
  simpl in Hcase. destruct Hcase as [[_ ->]|[Hcore Hexp]].
  - (* noise *)
    intros c Hc. destruct (Hroot c Hc) as (s & Hs & Hsl & Hreach). exists s.
    split; [done|]. simpl. split.
    { rewrite list_lookup_insert_ne; [done|]. intros ->. congruence. }
    intros j Hj. apply Hreach.
    same_or_other j i.
    + rewrite list_lookup_insert_eq in Hj
        by (rewrite (wf_labels _ _ Hwf); lia).
      injection Hj as Hj. unfold noise in Hj. lia.
    + by rewrite list_lookup_insert_ne in Hj.
  - (* a new cluster, seeded at [i] *)
    set (c := C st) in *.
    assert (Hicore : core points eps minPts i) by by exists p.
    set (P := fun (k : nat) (seeds : list nat) (st1 : dbstate) =>
      seeds_ok N c seeds st1 /\ C st1 = S c /\
      (forall n, n ∈ seeds -> reach points eps minPts i n) /\
      (labels st1 !! i = Some (Some (Z.of_nat c)) /\
       forall j, labels st1 !! j = Some (Some (Z.of_nat c)) ->
         reach points eps minPts i j) /\
      (forall c', (c' < c)%nat ->
         exists s, core points eps minPts s /\
           labels st1 !! s = Some (Some (Z.of_nat c')) /\
           forall j, labels st1 !! j = Some (Some (Z.of_nat c')) ->
             reach points eps minPts s j)).
    destruct (seed_set_ok i p Hp) as (Hnd & Hall & Hseeds).
    destruct (expand_rule points eps minPts (Z.of_nat c) P) with
      (fuel := N) (k := 0%nat)
      (seeds := set_delete i (set_of_array (regionQuery_from eps p points 0)))
      (st := mkState (<[i := true]> (visited st))
               (<[i := Some (Z.of_nat c)]> (labels st)) (S c))
      (st' := st')
      as (k' & seeds' & (_ & HC & _ & Hmine & Hold) & _); [| |done|].
    + (* one round *)
      clear Hexp. intros k seeds st1 n seeds1 v1
        (Hok & HC1 & Hs & [Hil Hmine] & Hold) Hk Hprobe.
      destruct (seeds_ok_step c k seeds st1 n seeds1 v1 Hok Hk Hprobe)
        as (Hok' & Hn & Hnl & _ & _ & _ & _).
      assert (Hrn : reach points eps minPts i n).
      { apply Hs. by eapply list_elem_of_lookup_2. }
      split; [done|]. split; [done|]. simpl. split; [|split].
      * destruct Hok as (Hwf1 & _).
        destruct (probe_cases points eps minPts n seeds (visited st1) seeds1 v1
                    Hn (wf_visited _ _ Hwf1) Hprobe)
          as [(_ & -> & _)|(_ & _ & q & Hq & [[Hqc ->]|[_ ->]])]; try done.
        intros x [Hx|Hx]%elem_of_set_add_all; [by apply Hs|].
        eapply rtc_r; [exact Hrn|]. split; [by exists q|].
        by apply (near_regionQuery _ _ _ _ _ Hq).
      * split; [by apply claim_keeps|].
        intros j [Hj|[-> _]]%claim_lookup_inv; [by apply Hmine|done|done].
      * intros c' Hc'. destruct (Hold c' Hc') as (s & Hsc & Hsl & Hr).
        exists s. split; [done|]. split; [by apply claim_keeps|].
        intros j [Hj|[_ Hj]]%claim_lookup_inv; [by apply Hr|lia|done].
    + (* at the start *)
      split; [|split; [done|split; [|split]]].
      * split; [by apply seed_state_wf|]. simpl. split; [lia|done].
      * intros n (_ & Hn)%Hseeds. apply rtc_once. by split.
      * simpl. split.
        { apply list_lookup_insert_eq. rewrite (wf_labels _ _ Hwf). lia. }
        intros j Hj. same_or_other j i; [apply rtc_refl|].
        rewrite list_lookup_insert_ne in Hj by done.
        destruct (wf_range _ _ Hwf j _ Hj) as [Hz|Hz];
          unfold noise in *; fold c in Hz; lia.
      * simpl. intros c' Hc'.
        destruct (Hroot c') as (s & Hs & Hsl & Hr); [done|].
        exists s. split; [done|]. split.
        { rewrite list_lookup_insert_ne; [done|]. intros ->. congruence. }
        intros j Hj. apply Hr.
        same_or_other j i.
        -- rewrite list_lookup_insert_eq in Hj
             by (rewrite (wf_labels _ _ Hwf); lia).
           injection Hj as Hj. lia.
        -- by rewrite list_lookup_insert_ne in Hj.
    + (* when the loop is left *)
      intros c' Hc'. rewrite HC in Hc'.
      destruct (decide (c' = c)) as [->|Hne].
      * exists i. by destruct Hmine.
      * apply Hold. lia.
Qed.

Lemma label_pass_rooted st :
  label_pass points eps minPts = Ok st ->
  wf N st /\ rooted points eps minPts st.
Proof.
  apply (label_pass_rule points eps minPts
           (fun st => wf N st /\ rooted points eps minPts st)).
  - apply visit_rooted.
  - split; [apply initial_wf|]. intros c Hc. simpl in Hc. lia.
Qed.

End Shape.

(** ** The neighbour test is symmetric *)

Lemma num_eqv_add a a' b b' :
  num_eqv a a' -> num_eqv b b' -> num_eqv (Num.add a b) (Num.add a' b').
Proof.
  destruct a, a', b, b'; simpl; try done. intros -> ->. reflexivity.
Qed.

Lemma num_eqv_le a a' b :
  num_eqv a a' -> Num.le a b = Num.le a' b.
Proof.
  destruct a, a', b; simpl; try done. intros Ha.
  apply eq_true_iff_eq. rewrite !Qle_bool_iff. by rewrite Ha.
Qed.

Lemma sq_sub_sym a b :
  num_eqv (Num.mul (Num.sub a b) (Num.sub a b))
          (Num.mul (Num.sub b a) (Num.sub b a)).
Proof. destruct a, b; simpl; try done. ring. Qed.

Lemma within_sym eps p q : within eps p q = within eps q p.
Proof.
  unfold within. apply num_eqv_le, num_eqv_add; apply sq_sub_sym.
Qed.

Lemma near_sym points eps a b : near points eps a b -> near points eps b a.
Proof.
  intros (p & q & Hp & Hq & Hw). exists q, p. by rewrite within_sym.
Qed.

Lemma linked_sym points eps a b :
  linked points eps a b -> linked points eps b a.
Proof.
  induction 1 as [|a b c Hab _ IH]; [apply rtc_refl|].
  eapply rtc_r; [exact IH|]. by apply near_sym.
Qed.

Lemma reach_linked points eps minPts a b :
  reach points eps minPts a b -> linked points eps a b.
Proof.
  induction 1 as [|a b c [_ Hab] _ IH]; [apply rtc_refl|].
  by eapply rtc_l.
Qed.

(** ** When every point is a core point *)

Section Closure.

Variable points : list point.
Variable eps : num.
Variable minPts : Z.
Hypothesis Hcore : all_core points eps minPts.

Let N := length points.

Lemma lookup_bool (v : list bool) (n : nat) :
  (n < length v)%nat -> v !! n = Some true \/ v !! n = Some false.
Proof using Type.
  intros Hn. destruct (lookup_lt_is_Some_2 v n Hn) as [[] ->]; auto.
Qed.

Lemma visit_closed i st st' :
  (i < N)%nat ->
  wf N st /\ tagged st /\ closed points eps st ->
  visit points eps minPts i st = Ok st' ->
  wf N st' /\ tagged st' /\ closed points eps st'.
Proof using Hcore.
  intros Hi (Hwf & Htag & Hcl) Hrun.
  assert (Hwf' : wf N st') by by eapply visit_wf.
  assert (Htag' : tagged st').
  { destruct (visit_ok points eps minPts i st Hi Hwf)
      as (st1 & Hrun1 & _ & _ & _ & Ht).
    rewrite Hrun in Hrun1. injection Hrun1 as <-. by apply Ht. }
  split; [done|]. split; [done|].
  destruct (visit_cases points eps minPts i st st' Hi Hwf Hrun)
    as [[_ ->]|(Hvi & Hli & p & Hp & Hcase)]; [done|].
  simpl in Hcase. destruct Hcase as [[Hlt _]|[_ Hexp]].
  { specialize (Hcore i p Hp). lia. }
  set (c := C st) in *.
  (* a point that was visited before this round has all its neighbours
     visited and labelled before this round *)
  assert (Hfresh : forall a n, visited st !! a = Some false ->
            near points eps a n -> visited st !! n = Some false).
  { intros a n Ha Han.
    destruct (near_lt _ _ _ _ Han) as [_ Hn].
    destruct (lookup_bool (visited st) n) as [Hvn|Hvn];
      [by rewrite (wf_visited _ _ Hwf)| |done].
    pose proof (Hcl n a Hvn (near_sym _ _ _ _ Han)) as Heq.
    destruct (tg_visited _ Htag n Hvn) as [z Hz]. rewrite Hz in Heq.
    apply (wf_seen _ _ Hwf) in Heq. congruence. }
  set (P := fun (k : nat) (seeds : list nat) (st1 : dbstate) =>
    seeds_ok N c seeds st1 /\ tagged st1 /\
    (forall j z, labels st !! j = Some (Some z) ->
       labels st1 !! j = Some (Some z)) /\
    mono (visited st) (visited st1) /\
    (forall a, visited st1 !! a = Some true -> visited st !! a = Some false ->
       labels st1 !! a = Some (Some (Z.of_nat c))) /\
    (forall a b, visited st1 !! a = Some true ->
       visited st !! a = Some false -> near points eps a b ->
       b = i \/ b ∈ seeds) /\
    (forall n, n ∈ seeds ->
       exists a, visited st1 !! a = Some true /\
                 visited st !! a = Some false /\ near points eps a n) /\
    (forall m n, (m < k)%nat -> seeds !! m = Some n ->
       visited st1 !! n = Some true) /\
    visited st1 !! i = Some true).
  destruct (seed_set_ok points eps i p Hp) as (Hnd & Hall & Hseeds).
  assert (Hleni : (i < length (visited st))%nat)
    by (rewrite (wf_visited _ _ Hwf); done).
  assert (Hlenl : (i < length (labels st))%nat)
    by (rewrite (wf_labels _ _ Hwf); done).
  destruct (expand_rule points eps minPts (Z.of_nat c) P) with
    (fuel := N) (k := 0%nat)
    (seeds := set_delete i (set_of_array (regionQuery_from eps p points 0)))
    (st := mkState (<[i := true]> (visited st))
             (<[i := Some (Z.of_nat c)]> (labels st)) (S c))
    (st' := st')
    as (k' & seeds' &
        (_ & _ & Hkeep & Hmono & Hnew & Hnbs & Hsrc & Hdone & Hvi') & Hend);
    [| |done|].
  - (* one round *)
    clear Hexp. intros k seeds st1 n seeds1 v1
      (Hok & Htag1 & Hkeep & Hmono & Hnew & Hnbs & Hsrc & Hdone & Hvi1)
      Hk Hprobe.
    destruct (seeds_ok_step points eps minPts c k seeds st1 n seeds1 v1
                Hok Hk Hprobe)
      as (Hok' & Hn & Hnl & Hpre & Hmono1 & Hvn & Hoth).
    pose proof Hok as (Hwf1 & _).
    assert (Hnin : n ∈ seeds) by by eapply list_elem_of_lookup_2.
    assert (Hnfresh : visited st !! n = Some false).
    { destruct (Hsrc n Hnin) as (a & _ & Ha & Han). by eapply Hfresh. }
    assert (Hlab : claim (Z.of_nat c) n (labels st1) !! n
                   = Some (Some (Z.of_nat c))).
    { destruct (claim_same (Z.of_nat c) n (labels st1) Hnl)
        as [[_ Hs]|(z & Hz & Hlz & Heq)]; [done|].
      rewrite Heq.
      rewrite (Hnew n); [done| |done].
      by apply (wf_seen _ _ Hwf1 n z). }
    assert (Hlabo : forall j, j <> n ->
              claim (Z.of_nat c) n (labels st1) !! j = labels st1 !! j).
    { intros j Hj. by apply claim_other. }
    split; [done|]. split; [by apply (claim_tagged points)|]. simpl.
    split; [|split; [|split; [|split; [|split; [|split]]]]].
    + intros j z Hj. same_or_other j n.
      * apply (wf_seen _ _ Hwf) in Hj. congruence.
      * rewrite Hlabo by done. by apply Hkeep.
    + intros j Hj. by apply Hmono1, Hmono.
    + intros a Ha Ha0. same_or_other a n; [done|].
      rewrite Hlabo by done. apply Hnew; [|done]. by rewrite <- Hoth.
    + intros a b Ha Ha0 Hab.
      destruct (probe_cases points eps minPts n seeds (visited st1) seeds1 v1
                  Hn (wf_visited _ _ Hwf1) Hprobe)
        as [(Hvn1 & -> & ->)|(Hvn1 & -> & q & Hq & Hsub)].
      * exact (Hnbs a b Ha Ha0 Hab).
      * simpl in Hsub. destruct Hsub as [[_ ->]|[Hlt _]];
          [|specialize (Hcore n q Hq); lia].
        same_or_other a n.
        -- right. apply elem_of_set_add_all. right.
           by apply (near_regionQuery _ _ _ _ _ Hq).
        -- rewrite list_lookup_insert_ne in Ha by done.
           destruct (Hnbs a b Ha Ha0 Hab) as [?|?]; [by left|right].
           apply elem_of_set_add_all. by left.
    + intros x Hx.
      destruct (probe_cases points eps minPts n seeds (visited st1) seeds1 v1
                  Hn (wf_visited _ _ Hwf1) Hprobe)
        as [(Hvn1 & -> & ->)|(Hvn1 & -> & q & Hq & Hsub)].
      * by apply Hsrc.
      * simpl in Hsub. destruct Hsub as [[_ ->]|[_ ->]].
        -- apply elem_of_set_add_all in Hx as [Hx|Hx].
           ++ destruct (Hsrc x Hx) as (a & Ha & Ha0 & Hax). exists a.
              split; [by apply Hmono1|done].
           ++ exists n. split; [done|]. split; [done|].
              by apply (near_regionQuery _ _ _ _ _ Hq).
        -- destruct (Hsrc x Hx) as (a & Ha & Ha0 & Hax). exists a.
           split; [by apply Hmono1|done].
    + intros m x Hm Hx.
      destruct (decide (m = k)) as [->|Hmk].
      * rewrite (Hpre _ _ Hk) in Hx. by injection Hx as <-.
      * apply Hmono1. apply (Hdone m); [lia|].
        assert (Hmlt : (m < length seeds)%nat)
          by (apply lookup_lt_Some in Hk; lia).
        destruct (lookup_lt_is_Some_2 seeds m Hmlt) as [y Hy].
        rewrite (Hpre _ _ Hy) in Hx. by injection Hx as <-.
    + by apply Hmono1.
  - (* at the start *)
    split; [|split; [|split; [|split; [|split; [|split; [|split; [|split]]]]]]];
      simpl.
    + split; [by apply seed_state_wf|]. simpl. split; [lia|done].
    + destruct Htag as [Hnn Hvis]. split; simpl.
      * intros j Hj. same_or_other j i.
        -- rewrite list_lookup_insert_eq in Hj by done.
           injection Hj as Hj. unfold noise in Hj. lia.
        -- rewrite list_lookup_insert_ne in Hj by done. by eapply Hnn.
      * intros j Hj. same_or_other j i.
        -- rewrite list_lookup_insert_eq by done. by eauto.
        -- rewrite list_lookup_insert_ne in Hj by done.
           rewrite list_lookup_insert_ne by done. by apply Hvis.
    + intros j z Hj. rewrite list_lookup_insert_ne; [done|].
      intros ->. congruence.
    + intros j Hj. rewrite list_lookup_insert_ne; [done|].
      intros ->. congruence.
    + intros a Ha Ha0. same_or_other a i.
      * by apply list_lookup_insert_eq.
      * rewrite list_lookup_insert_ne in Ha by done. congruence.
    + intros a b Ha Ha0 Hab. same_or_other a i.
      * destruct (decide (b = i)) as [|Hb]; [by left|right].
        by apply Hseeds.
      * rewrite list_lookup_insert_ne in Ha by done. congruence.
    + intros n (_ & Hn)%Hseeds. exists i.
      split; [by apply list_lookup_insert_eq|done].
    + intros m n Hm. lia.
    + by apply list_lookup_insert_eq.
  - (* when the loop is left *)
    intros a b Ha Hab.
    destruct (near_lt _ _ _ _ Hab) as [Han Hbn].
    destruct (lookup_bool (visited st) a) as [Ha0|Ha0];
      [by rewrite (wf_visited _ _ Hwf)| |].
    + destruct (tg_visited _ Htag a Ha0) as [z Hz].
      pose proof (Hcl a b Ha0 Hab) as Hb. rewrite Hz in Hb.
      by rewrite (Hkeep a z Hz), (Hkeep b z Hb).
    + rewrite (Hnew a Ha Ha0).
      destruct (Hnbs a b Ha Ha0 Hab) as [->|Hb]; [by apply Hnew|].
      pose proof Hb as [m Hm]%list_elem_of_lookup.
      apply Hnew.
      * apply (Hdone m); [|done].
        apply lookup_lt_Some in Hm. apply lookup_ge_None in Hend. lia.
      * destruct (Hsrc b Hb) as (a' & _ & Ha' & Hab'). by eapply Hfresh.
Qed.

(** Neighbours carry the same label when the pass is over, and so do
    points linked by a chain of neighbours. *)
Lemma label_pass_closed st :
  label_pass points eps minPts = Ok st ->
  wf N st /\ tagged st /\
  forall a b, linked points eps a b -> (a < N)%nat ->
    labels st !! b = labels st !! a.
Proof using Hcore.
  intros Hrun.
  destruct (label_pass_ok points eps minPts) as (st1 & Hrun1 & _ & Hvis & _).
  rewrite Hrun in Hrun1. injection Hrun1 as <-.
  assert (Hinv : wf N st /\ tagged st /\ closed points eps st).
  { revert Hrun.
    apply (label_pass_rule points eps minPts
             (fun st => wf N st /\ tagged st /\ closed points eps st)).
    - apply visit_closed.
    - split; [apply initial_wf|]. split; [apply initial_tagged|].
      intros a b (Ha & _)%lookup_replicate. done. }
  destruct Hinv as (Hwf & Htag & Hcl). split; [done|]. split; [done|].
  induction 1 as [a|a b c Hab _ IH]; intros Ha; [done|].
  destruct (near_lt _ _ _ _ Hab) as [_ Hb].
  rewrite IH by done. apply Hcl; [|done]. by apply Hvis.
Qed.

End Closure.

(** ** Consequences for the tiles *)

Lemma finite_all_core points eps minPts :
  Forall finite_center points -> eps <> NaN -> (minPts <= 1)%Z ->
  all_core points eps minPts.
Proof.
  intros Hfin Heps Hm i p Hp.
  assert (Hself : i ∈ regionQuery_from eps p points 0).
  { apply elem_of_regionQuery_from. exists p.
    rewrite Nat.sub_0_r. split; [lia|]. split; [done|].
    apply within_self; [|done].
    rewrite Forall_forall in Hfin. apply Hfin. by eapply list_elem_of_lookup_2. }
  destruct (regionQuery_from eps p points 0); [by apply elem_of_nil in Hself|].
  simpl. lia.
Qed.

Lemma nonpositive_all_core points eps minPts :
  (minPts <= 0)%Z -> all_core points eps minPts.
Proof. intros Hm i p Hp. lia. Qed.

(** Without a noise mark and with every point visited, each point carries
    the id of a cluster and no point is promoted. *)
Lemma tagged_all_clustered points st :
  wf (length points) st -> tagged st ->
  (forall i, (i < length points)%nat -> visited st !! i = Some true) ->
  (forall i, (i < length points)%nat ->
     exists c, (c < C st)%nat /\ labels st !! i = Some (Some (Z.of_nat c))) /\
  promoted points (labels st) (length points) = [].
Proof.
  intros Hwf Htag Hvis.
  assert (Hlab : forall i, (i < length points)%nat ->
            exists c, (c < C st)%nat /\
                      labels st !! i = Some (Some (Z.of_nat c))).
  { intros i Hi.
    destruct (tg_visited _ Htag i (Hvis i Hi)) as [z Hz].
    destruct (wf_range _ _ Hwf i z Hz) as [->|Hr].
    - by apply (tg_nonoise _ Htag) in Hz.
    - exists (Z.to_nat z). split; [lia|]. rewrite Hz. do 2 f_equal. lia. }
  split; [done|].
  unfold promoted, at_indices.
  replace (filter _ (seq 0 (length points))) with (@nil nat); [done|].
  symmetry. apply elem_of_nil_inv.
  intros i (Hu & Hi%elem_of_seq)%list_elem_of_filter.
  destruct (Hlab i) as (c & _ & Hc); [lia|].
  rewrite (label_at_lookup _ _ _ Hc), unlabelled_cluster in Hu. done.
Qed.

Lemma at_indices_seq points :
  at_indices points (seq 0 (length points)) = points.
Proof.
  unfold at_indices.
  induction points as [|p ps IH] using rev_ind; [done|].
  rewrite length_app. simpl. rewrite Nat.add_1_r, seq_S, omap_app. simpl.
  rewrite list_lookup_middle by done. simpl. f_equal.
  rewrite <- IH at 2. apply list_omap_ext, Forall2_same_length_lookup_2; [done|].
  intros i x y Hx Hy. rewrite Hx in Hy. injection Hy as <-.
  apply lookup_seq in Hx as [-> Hi]. simpl. by rewrite lookup_app_l.
Qed.

(** The whole pass at once: result, shape, and what the closed form of
    [dbscan] is built from. *)
Lemma pass_summary points eps minPts :
  exists st,
    label_pass points eps minPts = Ok st /\ wf (length points) st /\
    (forall i, (i < length points)%nat -> visited st !! i = Some true) /\
    dbscan points eps minPts =
      Ok ((cluster_members points (labels st) (length points) <$> seq 0 (C st))
          ++ promoted points (labels st) (length points)).
Proof.
  destruct (dbscan_closed points eps minPts)
    as (st & Hrun & Hwf & Hvis & _ & _ & Hdb).
  by exists st.
Qed.

Lemma label_at_lt (ls : list (option Z)) (i : nat) :
  (i < length ls)%nat -> ls !! i = Some (label_at ls i).
Proof.
  intros Hi. destruct (lookup_lt_is_Some_2 ls i Hi) as [l Hl].
  by rewrite (label_at_lookup _ _ _ Hl).
Qed.




(** ** Noise marks, whatever [minPts] *)

Section Noise.

Variable points : list point.
Variable eps : num.
Variable minPts : Z.

Let N := length points.

Lemma visit_settled i st st' :
  (i < N)%nat -> wf N st /\ settled points eps minPts st ->
  visit points eps minPts i st = Ok st' ->
  wf N st' /\ settled points eps minPts st'.
Proof.
  intros Hi [Hwf [Hlab Hnoise]] Hrun. split; [by eapply visit_wf|].
  destruct (visit_cases points eps minPts i st st' Hi Hwf Hrun)
    as [[_ ->]|(Hvi & Hli & p & Hp & Hcase)]; [done|].
  assert (Hleni : (i < length (visited st))%nat)
    by (rewrite (wf_visited _ _ Hwf); done).
  assert (Hlenl : (i < length (labels st))%nat)
    by (rewrite (wf_labels _ _ Hwf); done).
  simpl in Hcase. destruct Hcase as [[Hlt ->]|[_ Hexp]].
  - (* noise *)
    split; simpl.
    + intros j Hj. same_or_other j i.
      * rewrite list_lookup_insert_eq by done. by eauto.
      * rewrite list_lookup_insert_ne in Hj by done.
        rewrite list_lookup_insert_ne by done. by apply Hlab.
    + intros j Hj. same_or_other j i.
      * intros (p' & Hp' & Hc). rewrite Hp in Hp'. injection Hp' as <-. lia.
      * rewrite list_lookup_insert_ne in Hj by done. by apply Hnoise.
  - (* a new cluster *)
    set (c := C st) in *.
    set (P := fun (k : nat) (seeds : list nat) (st1 : dbstate) =>
      seeds_ok N c seeds st1 /\ settled points eps minPts st1).
    destruct (seed_set_ok points eps i p Hp) as (Hnd & Hall & _).
    destruct (expand_rule points eps minPts (Z.of_nat c) P) with
      (fuel := N) (k := 0%nat)
      (seeds := set_delete i (set_of_array (regionQuery_from eps p points 0)))
      (st := mkState (<[i := true]> (visited st))
               (<[i := Some (Z.of_nat c)]> (labels st)) (S c))
      (st' := st')
      as (k' & seeds' & (_ & Hset) & _); [| |done|done].
    + clear Hexp. intros k seeds st1 n seeds1 v1 (Hok & [Hlab1 Hnoise1])
        Hk Hprobe.
      destruct (seeds_ok_step points eps minPts c k seeds st1 n seeds1 v1
                  Hok Hk Hprobe)
        as (Hok' & Hn & Hnl & _ & _ & Hvn & Hoth).
      split; [done|]. split; simpl.
      * intros j Hj. same_or_other j n.
        -- destruct (claim_same (Z.of_nat c) n (labels st1) Hnl)
             as [[_ Hs]|(z & _ & Hz & Heq)]; [by eauto|].
           rewrite Heq. by eauto.
        -- rewrite claim_other by done. apply Hlab1. by rewrite <- Hoth.
      * intros j [Hj|[_ Hj]]%claim_lookup_inv; [by apply Hnoise1| |done].
        unfold noise in Hj. lia.
    + split.
      * split; [by apply seed_state_wf|]. simpl. split; [lia|done].
      * split; simpl.
        -- intros j Hj. same_or_other j i.
           ++ rewrite list_lookup_insert_eq by done. by eauto.
           ++ rewrite list_lookup_insert_ne in Hj by done.
              rewrite list_lookup_insert_ne by done. by apply Hlab.
        -- intros j Hj. same_or_other j i.
           ++ rewrite list_lookup_insert_eq in Hj by done.
              injection Hj as Hj. unfold noise in Hj. lia.
           ++ rewrite list_lookup_insert_ne in Hj by done. by apply Hnoise.
Qed.

Lemma label_pass_settled st :
  label_pass points eps minPts = Ok st ->
  wf N st /\ settled points eps minPts st.
Proof.
  apply (label_pass_rule points eps minPts
           (fun st => wf N st /\ settled points eps minPts st)).
  - apply visit_settled.
  - split; [apply initial_wf|]. split; simpl.
    + intros j (H & _)%lookup_replicate. done.
    + intros j (H & _)%lookup_replicate. done.
Qed.

End Noise.


(** X4.  With [minPts <= 0] no point is ever marked as noise, whatever the
    coordinates (NaN included) and whatever [eps]: every point ends with a
    cluster id and the output consists of cluster tiles only. *)
Theorem nonpositive_minPts_no_noise (points : list point) (eps : num)
    (minPts : Z) :
  (minPts <= 0)%Z ->
  exists st,
    label_pass points eps minPts = Ok st /\
    let N := length points in
    (forall i, (i < N)%nat ->
       exists c, (c < C st)%nat /\ label_at (labels st) i = Some (Z.of_nat c)) /\
    dbscan points eps minPts =
      Ok (cluster_members points (labels st) N <$> seq 0 (C st)).
Proof.
  intros Hm.
  pose proof (nonpositive_all_core points eps minPts Hm) as Hcore.
  destruct (pass_summary points eps minPts) as (st & Hrun & Hwf & Hvis & Hdb).
  destruct (label_pass_closed points eps minPts Hcore st Hrun) as (_ & Htag & _).
  destruct (tagged_all_clustered points st Hwf Htag Hvis) as [Hlab Hprom].
  exists st. split; [done|]. simpl. split.
  - intros i Hi. destruct (Hlab i Hi) as (c & Hc & Hl). exists c.
    split; [done|]. by apply label_at_lookup.
  - by rewrite Hprom, app_nil_r in Hdb.
Qed.

Lemma nonpositive_minPts_no_noise_witness :
  dbscan [mkPoint NaN (Fin 0) (Fin 5); dot5 0 0] (Fin 10) 0
  = Ok [[mkPoint NaN (Fin 0) (Fin 5)]; [dot5 0 0]].
Proof.
  destruct (nonpositive_minPts_no_noise
              [mkPoint NaN (Fin 0) (Fin 5); dot5 0 0] (Fin 10) 0)
    as (st & Hrun & _ & Hdb); [lia|].
  injection Hrun as <-. exact Hdb.
Defined.


Lemma on_a_line_linked a b :
  (a < 3)%nat -> (b < 3)%nat -> linked on_a_line (Fin 5) a b.
Proof.
  assert (H01 : near on_a_line (Fin 5) 0 1)
    by (eexists _, _; repeat split; reflexivity).
  assert (H12 : near on_a_line (Fin 5) 1 2)
    by (eexists _, _; repeat split; reflexivity).
  assert (L01 : linked on_a_line (Fin 5) 0 1) by by apply rtc_once.
  assert (L12 : linked on_a_line (Fin 5) 1 2) by by apply rtc_once.
  assert (L02 : linked on_a_line (Fin 5) 0 2) by by transitivity 1%nat.
  intros Ha Hb.
  destruct a as [|[|[|a]]]; [| | |lia];
    (destruct b as [|[|[|b]]]; [| | |lia]);
    first [apply rtc_refl | assumption | by apply linked_sym].
Defined.


(** ** Raising [eps] *)

Lemma within_mono (e e' : Q) (p q : point) :
  0 <= e -> e <= e' ->
  within (Fin e) p q = true -> within (Fin e') p q = true.
Proof.
  intros He Hee'. unfold within.
  destruct (Num.add _ _) as [s| | |]; simpl; try done.
  rewrite !Qle_bool_iff. intros Hs. nra.
Qed.

Lemma linked_mono points (e e' : Q) a b :
  0 <= e -> e <= e' ->
  linked points (Fin e) a b -> linked points (Fin e') a b.
Proof.
  intros He Hee'. induction 1 as [|a b c (p & q & Hp & Hq & Hw) _ IH];
    [apply rtc_refl|].
  eapply rtc_l; [|exact IH]. exists p, q.
  split; [done|]. split; [done|]. by eapply within_mono.
Qed.

(** X6.  Raising [eps] only merges tiles: for points with finite centers,
    [minPts = MIN_PTS = 1] and [0 <= eps <= eps'], two points that share a
    tile for [eps] share a tile for [eps']. *)
Theorem larger_eps_merges (points : list point) (e e' : Q) :
  Forall finite_center points -> 0 <= e -> e <= e' ->
  exists st st',
    label_pass points (Fin e) MIN_PTS = Ok st /\
    label_pass points (Fin e') MIN_PTS = Ok st' /\
    forall a b, (a < length points)%nat -> (b < length points)%nat ->
      label_at (labels st) a = label_at (labels st) b ->
      label_at (labels st') a = label_at (labels st') b.
Proof.
  intros Hfin He Hee'.
  assert (Hcore : forall x, all_core points (Fin x) MIN_PTS)
    by (intros x; apply finite_all_core; done).
  destruct (pass_summary points (Fin e) MIN_PTS) as (st & Hrun & Hwf & Hvis & _).
  destruct (pass_summary points (Fin e') MIN_PTS) as (st' & Hrun' & _).
  destruct (label_pass_closed points (Fin e) MIN_PTS (Hcore e) st Hrun)
    as (_ & Htag & _).
  destruct (label_pass_closed points (Fin e') MIN_PTS (Hcore e') st' Hrun')
    as (_ & _ & Hlink').
  destruct (label_pass_rooted points (Fin e) MIN_PTS st Hrun) as [_ Hroot].
  destruct (tagged_all_clustered points st Hwf Htag Hvis) as [Hlab _].
  exists st, st'. split; [done|]. split; [done|].
  intros a b Ha Hb Heq.
  destruct (Hlab a Ha) as (c & Hc & Hla).
  rewrite (label_at_lookup _ _ _ Hla) in Heq.
  destruct (Hroot c Hc) as (s & _ & _ & Hr).
  assert (Hab : linked points (Fin e) a b).
  { transitivity s.
    - apply linked_sym, (reach_linked _ _ MIN_PTS). by apply Hr.
    - apply (reach_linked _ _ MIN_PTS). apply Hr.
      rewrite label_at_lt by (by rewrite (wf_labels _ _ Hwf)).
      by rewrite <- Heq. }
  unfold label_at. f_equal. symmetry.
  apply Hlink'; [|done]. by apply (linked_mono _ e).
Qed.

Lemma larger_eps_merges_witness :
  exists st st',
    label_pass on_a_line (Fin 5) MIN_PTS = Ok st /\
    label_pass on_a_line (Fin 7) MIN_PTS = Ok st' /\
    (label_at (labels st) 0 = label_at (labels st) 2 ->
     label_at (labels st') 0 = label_at (labels st') 2).
Proof.
  destruct (larger_eps_merges on_a_line 5 7) as (st & st' & H1 & H2 & H).
  - repeat constructor.
  - discriminate.
  - discriminate.
  - exists st, st'. split; [exact H1|]. split; [exact H2|].
    apply H; simpl; lia.
Defined.

(** ** The neighbour query as a list *)

Lemma regionQuery_from_sorted eps p qs j :
  StronglySorted Nat.lt (regionQuery_from eps p qs j).
Proof.
  revert j. induction qs as [|q qs IH]; intros j; simpl; [constructor|].
  destruct (within eps p q); [|done].
  constructor; [done|].
  apply Forall_forall. intros x Hx%regionQuery_from_bounds. lia.
Qed.

(** X7.  The answer of [regionQuery(i)] lists indices below [N] in
    strictly increasing order; the query is symmetric, whatever the
    numbers involved: [j] is in the answer for [i] exactly when [i] is in
    the answer for [j]; on a non-empty array an index out of range makes
    the call throw. *)
Theorem regionQuery_answer (points : list point) (eps : num) (i : nat) :
  (forall nbs, regionQuery points eps i = Ok nbs ->
     StronglySorted Nat.lt nbs /\
     Forall (fun j => (j < length points)%nat) nbs) /\
  (forall j nbs nbs',
     (i < length points)%nat -> (j < length points)%nat ->
     regionQuery points eps i = Ok nbs ->
     regionQuery points eps j = Ok nbs' ->
     j ∈ nbs <-> i ∈ nbs') /\
  (points <> [] -> (length points <= i)%nat ->
   regionQuery points eps i = TypeError).
Proof.
  split; [|split].
  - unfold regionQuery. intros nbs.
    destruct (points !! i) as [p|] eqn:Hp.
    + intros [= <-]. split; [apply regionQuery_from_sorted|].
      apply Forall_forall. intros j Hj%regionQuery_from_bounds. lia.
    + destruct points; [|done]. intros [= <-]. split; constructor.
  - intros j nbs nbs' Hi Hj.
    destruct (lookup_lt_is_Some_2 points i Hi) as [p Hp].
    destruct (lookup_lt_is_Some_2 points j Hj) as [q Hq].
    unfold regionQuery. rewrite Hp, Hq. intros [= <-] [= <-].
    rewrite <- (near_regionQuery points eps i j p Hp).
    rewrite <- (near_regionQuery points eps j i q Hq).
    split; apply near_sym.
  - intros Hne Hi. unfold regionQuery.
    rewrite (lookup_ge_None_2 points i Hi). by destruct points.
Qed.

(** ** What [analyzeFrame] reports *)

Lemma length_concat_sum (tiles : list (list point)) :
  length (concat tiles) = sum_list (length <$> tiles).
Proof.
  induction tiles as [|t tiles IH]; simpl; [done|].
  by rewrite length_app, IH.
Qed.

Lemma length_le_sum (l : list nat) :
  Forall (fun n => (1 <= n)%nat) l -> (length l <= sum_list l)%nat.
Proof. induction 1 as [|n l Hn _ IH]; simpl; lia. Qed.

Lemma dbscan_tiles_nonempty points eps minPts tiles :
  dbscan points eps minPts = Ok tiles ->
  Forall (fun t => (1 <= length t)%nat) tiles.
Proof.
  unfold dbscan.
  destruct (label_pass points eps minPts) as [st| |]; simpl; try done.
  destruct (collect _ _ _ _) as [cl| |]; simpl; try done.
  intros [= <-]. apply Forall_forall.
  intros t (Ht & _)%list_elem_of_filter. lia.
Qed.

(** X8.  [analyzeFrame] always returns a result; the total it reports is
    the number of contours accepted by the filter, hence at most the
    number of contours, and it is the sum of the tile counts; every tile
    count is at least 1, so there are at most as many tiles as dots. *)
Theorem frame_counts_add_up (cfg : config) (width height : Z)
    (cands : list candidate) :
  exists r,
    analyzeFrame cfg width height cands = Ok r /\
    total r = length (filter (fun c => accepts (MIN_AREA cfg) (MAX_AREA cfg) c
                                       = true) cands) /\
    (total r <= length cands)%nat /\
    total r = sum_list (clusters r) /\
    Forall (fun n => (1 <= n)%nat) (clusters r) /\
    (length (clusters r) <= total r)%nat.
Proof.
  unfold analyzeFrame.
  set (dots := filterDots (MIN_AREA cfg) (MAX_AREA cfg) cands).
  destruct (dbscan_perm dots (effective_eps cfg width height) MIN_PTS)
    as (tiles & Hrun & Hperm).
  rewrite Hrun. simpl. eexists. split; [done|]. simpl.
  pose proof (dbscan_tiles_nonempty _ _ _ _ Hrun) as Hne.
  assert (Hsum : length dots = sum_list (length <$> tiles)).
  { by rewrite <- length_concat_sum, Hperm. }
  assert (Hones : Forall (fun n => (1 <= n)%nat)
                    (map (fun c : list point => length c) tiles)).
  { apply Forall_fmap. eapply Forall_impl; [exact Hne|]. done. }
  split; [|split; [|split; [done|split; [done|]]]].
  - unfold dots. by rewrite filterDots_filter, length_fmap.
  - unfold dots. rewrite filterDots_filter, length_fmap. apply length_filter.
  - rewrite Hsum. by apply length_le_sum.
Qed.

(** ** The contour filter at its edges *)

(** X9.  When [MIN_AREA] is above [MAX_AREA] (both finite) the filter
    rejects every contour, whatever its area, and [analyzeFrame] reports no
    dot and no tile. *)
Theorem inverted_area_bounds (cfg : config) (lo hi : Q) (width height : Z)
    (cands : list candidate) :
  MIN_AREA cfg = Fin lo -> MAX_AREA cfg = Fin hi -> hi < lo ->
  filterDots (MIN_AREA cfg) (MAX_AREA cfg) cands = [] /\
  analyzeFrame cfg width height cands = Ok (mkFrameResult 0 []).
Proof.
  intros Hlo Hhi Hlt. unfold analyzeFrame. rewrite Hlo, Hhi.
  assert (Hnone : filterDots (Fin lo) (Fin hi) cands = []).
  { rewrite filterDots_filter.
    replace (filter _ cands) with (@nil candidate); [done|].
    symmetry. apply elem_of_nil_inv.
    intros c (Hc & _)%list_elem_of_filter.
    unfold accepts, Num.ge in Hc.
    apply andb_true_iff in Hc as [[H1 H2]%andb_true_iff _].
    destruct (c_area c) as [a| | |]; simpl in *; try done.
    apply Qle_bool_iff in H1, H2. lra. }
  by rewrite Hnone.
Qed.

Lemma inverted_area_bounds_witness :
  analyzeFrame (mkConfig (Fin 200) (Fin 50) None) 1280 720
    [round_contour (Fin 1) (Fin 2) (Fin 5)] = Ok (mkFrameResult 0 []).
Proof.
  apply (inverted_area_bounds _ 200 50); reflexivity.
Defined.

Lemma accepts_wider (lo hi lo' hi' : Q) (c : candidate) :
  lo' <= lo -> hi <= hi' ->
  accepts (Fin lo) (Fin hi) c = true -> accepts (Fin lo') (Fin hi') c = true.
Proof.
  intros Hlo Hhi. unfold accepts, Num.ge.
  rewrite !andb_true_iff. intros [[H1 H2] H3]. split; [|done].
  destruct (c_area c) as [a| | |]; simpl in *; try done.
  rewrite !Qle_bool_iff in *. split; lra.
Qed.

(** X10.  Widening the area bounds never loses a dot: for finite bounds
    with [lo' <= lo] and [hi <= hi'], the dots emitted for [lo, hi] are,
    in the same order, among the dots emitted for [lo', hi']. *)
Theorem wider_bounds_keep_dots (lo hi lo' hi' : Q) (cands : list candidate) :
  lo' <= lo -> hi <= hi' ->
  filterDots (Fin lo) (Fin hi) cands
    `sublist_of` filterDots (Fin lo') (Fin hi') cands.
Proof.
  intros Hlo Hhi. rewrite !filterDots_filter. apply fmap_sublist.
  rewrite <- (list_filter_filter_l
                (fun c => accepts (Fin lo) (Fin hi) c = true)
                (fun c => accepts (Fin lo') (Fin hi') c = true)).
  - apply sublist_filter.
  - intros c. by apply accepts_wider.
Qed.

Lemma wider_bounds_keep_dots_witness :
  filterDots (Fin 150) (Fin 5000) [round_contour (Fin 1) (Fin 2) (Fin 5)]
    `sublist_of`
  filterDots (Fin 30) (Fin 5000) [round_contour (Fin 1) (Fin 2) (Fin 5)].
Proof.
  apply wider_bounds_keep_dots; discriminate.
Defined.

(** X11.  A contour whose bounding box has height 0 is rejected whatever
    the bounds and the width (the ratio is an infinity or NaN), and so is
    a contour whose area, width or height is NaN. *)
Theorem degenerate_contour_rejected (lo hi : num) (c : candidate) :
  (exists h, c_height c = Fin h /\ h == 0) \/
  c_area c = NaN \/ c_width c = NaN \/ c_height c = NaN ->
  accepts lo hi c = false /\ filterDots lo hi [c] = [].
Proof.
  intros H.
  assert (Hrej : accepts lo hi c = false).
  { unfold accepts, Num.ge, Num.gt.
    destruct H as [(h & Hh & Hz)|[Ha|[Hw|Hh]]].
    - apply andb_false_iff. right. rewrite Hh.
      assert (Hs : Num.sgn h = Eq) by (by apply Qeq_alt).
      assert (Hle : Qle_bool 0 h = true) by (apply Qle_bool_iff; lra).
      destruct (c_width c) as [w| | |]; simpl; rewrite ?Hs, ?Hle; try done.
      unfold Num.inf_times. by destruct (Num.sgn w).
    - rewrite Ha. by destruct lo.
    - rewrite Hw. simpl. apply andb_false_iff. by right.
    - rewrite Hh. apply andb_false_iff. right. by destruct (c_width c). }
  split; [done|]. unfold filterDots. simpl. by rewrite Hrej.
Qed.

Lemma degenerate_contour_rejected_witness :
  accepts (Fin 30) (Fin 5000)
    (mkCandidate (Fin 100) (Fin 10) (Fin 0) (Fin 1) (Fin 2) (Fin 5)) = false.
Proof.
  apply (degenerate_contour_rejected (Fin 30) (Fin 5000)).
  left. exists 0. split; reflexivity.
Defined.

(** ** The box of a tile, further *)

Lemma fold_min_nan (f : point -> num) (l : list point) : forall a0,
  a0 = NaN \/ (exists p, p ∈ l /\ f p = NaN) ->
  foldl (fun a p => Num.min a (f p)) a0 l = NaN.
Proof.
  induction l as [|q l IH]; intros a0 H; simpl.
  - destruct H as [->|(p & Hp%elem_of_nil & _)]; done.
  - apply IH. destruct H as [->|(p & [->|Hp]%elem_of_cons & Hf)].
    + by left.
    + left. rewrite Hf. by destruct a0.
    + right. by exists p.
Qed.

Lemma fold_max_nan (f : point -> num) (l : list point) : forall a0,
  a0 = NaN \/ (exists p, p ∈ l /\ f p = NaN) ->
  foldl (fun a p => Num.max a (f p)) a0 l = NaN.
Proof.
  induction l as [|q l IH]; intros a0 H; simpl.
  - destruct H as [->|(p & Hp%elem_of_nil & _)]; done.
  - apply IH. destruct H as [->|(p & [->|Hp]%elem_of_cons & Hf)].
    + by left.
    + left. rewrite Hf. by destruct a0.
    + right. by exists p.
Qed.

(** X13.  One member with a NaN abscissa or a NaN radius is enough for the
    left and right sides of the box of its tile to be NaN, whatever the
    other members (and likewise a NaN ordinate or radius for the top and
    bottom sides). *)
Theorem nan_member_spoils_box (tile : list point) (p : point) :
  p ∈ tile ->
  (px p = NaN \/ pr p = NaN ->
   minx (tile_box tile) = NaN /\ maxx (tile_box tile) = NaN) /\
  (py p = NaN \/ pr p = NaN ->
   miny (tile_box tile) = NaN /\ maxy (tile_box tile) = NaN).
Proof.
  intros Hp. unfold tile_box. rewrite foldl_widen. cbn [minx miny maxx maxy].
  assert (Hsub : forall x, x = NaN \/ pr p = NaN -> Num.sub x (pr p) = NaN).
  { intros x [->| ->]; [done|]. by destruct x. }
  assert (Hadd : forall x, x = NaN \/ pr p = NaN -> Num.add x (pr p) = NaN).
  { intros x [->| ->]; [done|]. by destruct x. }
  split; intros H.
  - rewrite fold_min_nan, fold_max_nan; [done| |];
      right; exists p; (split; [done|auto]).
  - rewrite fold_min_nan, fold_max_nan; [done| |];
      right; exists p; (split; [done|auto]).
Qed.

Lemma nan_member_spoils_box_witness :
  minx (tile_box [dot5 0 0; mkPoint NaN (Fin 7) (Fin 5)]) = NaN /\
  maxx (tile_box [dot5 0 0; mkPoint NaN (Fin 7) (Fin 5)]) = NaN.
Proof.
  apply (nan_member_spoils_box _ (mkPoint NaN (Fin 7) (Fin 5))).
  - right. by left.
  - by left.
Defined.

(** ** The sliders and the canvases *)

Lemma setAutoEps_cfg pg : page_cfg (setAutoEps pg) = page_cfg pg.
Proof. unfold setAutoEps. by destruct (EPS (page_cfg pg)). Qed.

Lemma setAutoEps_work pg :
  work_width (setAutoEps pg) = work_width pg /\
  work_height (setAutoEps pg) = work_height pg.
Proof. unfold setAutoEps. by destruct (EPS (page_cfg pg)). Qed.

Lemma handle_EPS pg ev :
  EPS (page_cfg (handle pg ev)) =
  match ev with EpsInput v => Some v | _ => EPS (page_cfg pg) end.
Proof.
  destruct ev; simpl; try done.
  unfold resizeCanvases. by rewrite setAutoEps_cfg.
Qed.

(** X14.  After any sequence of slider and resize events, [EPS] is the
    value of the last eps event, or what it was before when there is
    none: the area sliders and the resizes never change it, and once a
    value is set nothing brings the automatic eps back.  The eps of the
    next analysis is then that value, whatever the canvas size. *)
Theorem eps_follows_last_input (evs : list event) (pg : page) :
  let pg' := foldl handle pg evs in
  EPS (page_cfg pg') = last_eps_input evs (EPS (page_cfg pg)) /\
  (EPS (page_cfg pg) <> None -> EPS (page_cfg pg') <> None) /\
  (forall v, last_eps_input evs (EPS (page_cfg pg)) = Some v ->
     page_eps pg' = v).
Proof.
  simpl.
  assert (Hlast : forall evs pg,
            EPS (page_cfg (foldl handle pg evs))
            = last_eps_input evs (EPS (page_cfg pg))).
  { clear. induction evs as [|ev evs IH]; intros pg; simpl; [done|].
    rewrite IH, handle_EPS. by destruct ev. }
  split; [apply Hlast|]. split.
  - rewrite Hlast. clear. revert pg.
    induction evs as [|ev evs IH]; intros pg Hpg; simpl; [done|].
    destruct ev; simpl; try (by apply IH).
    specialize (IH (handle pg (EpsInput value))). simpl in IH. by apply IH.
  - intros v Hv. unfold page_eps, effective_eps. by rewrite Hlast, Hv.
Qed.

Lemma handle_in_sync pg ev : in_sync pg -> in_sync (handle pg ev).
Proof.
  unfold in_sync. destruct ev; simpl; try done.
  unfold resizeCanvases, setAutoEps. simpl.
  destruct (EPS (page_cfg pg)) as [v|] eqn:HE; simpl; by rewrite HE.
Qed.

(** X15.  From the first [resizeCanvases()] on (with [EPS] still [null]
    before it, as the script starts), whatever slider and resize events
    follow, the number shown beside the eps slider is the eps that
    [analyzeFrame] takes. *)
Theorem shown_eps_is_used (pg : page) (videoWidth videoHeight : Z)
    (evs : list event) :
  EPS (page_cfg pg) = None ->
  let pg' := foldl handle pg (Resize videoWidth videoHeight :: evs) in
  shown (epsVal pg') = Some (page_eps pg').
Proof.
  intros Hnull. simpl.
  assert (Hsync : in_sync (resizeCanvases videoWidth videoHeight pg)).
  { unfold in_sync, resizeCanvases, setAutoEps. simpl. rewrite Hnull. simpl.
    by rewrite Hnull. }
  assert (Hall : forall evs pg, in_sync pg -> in_sync (foldl handle pg evs)).
  { clear. induction evs as [|ev evs IH]; intros pg Hpg; simpl; [done|].
    by apply IH, handle_in_sync. }
  specialize (Hall evs _ Hsync). revert Hall.
  generalize (foldl handle (resizeCanvases videoWidth videoHeight pg) evs).
  intros pg'. unfold in_sync, page_eps, effective_eps.
  destruct (EPS (page_cfg pg')); by intros ->.
Qed.

Lemma shown_eps_is_used_witness :
  let pg := mkPage default_config 0 0 0 0 NoText in
  let pg' := foldl handle pg [Resize 0 0; MinInput (Fin 40); Resize 640 480] in
  shown (epsVal pg') = Some (page_eps pg') /\ page_eps pg' = Fin 42.
Proof.
  split; [|reflexivity].
  apply (shown_eps_is_used (mkPage default_config 0 0 0 0 NoText) 0 0
           [MinInput (Fin 40); Resize 640 480]).
  reflexivity.
Defined.

(** X16.  The automatic eps is the nearest integer to 6.5 percent of the
    longer side of the canvas: it differs from that value by at most one
    half, it is not negative for a canvas whose sides are not negative,
    and it does not decrease when the longer side grows. *)
Theorem auto_eps_bounds (w h : Z) :
  (0 <= w)%Z -> (0 <= h)%Z ->
  let m := inject_Z (Z.max w h) * (65 # 1000) in
  m - (1 # 2) < inject_Z (auto_eps w h) /\
  inject_Z (auto_eps w h) <= m + (1 # 2) /\
  (0 <= auto_eps w h)%Z /\
  (forall w' h', (Z.max w h <= Z.max w' h')%Z ->
     (auto_eps w h <= auto_eps w' h')%Z).
Proof.
  intros Hw Hh m. unfold auto_eps, round. fold m.
  pose proof (Qfloor_le (m + (1 # 2))) as Hle.
  pose proof (Qlt_floor (m + (1 # 2))) as Hlt.
  rewrite inject_Z_plus in Hlt.
  assert (Hm : 0 <= m).
  { unfold m. apply Qmult_le_0_compat; [|discriminate].
    change (inject_Z 0 <= inject_Z (Z.max w h)). rewrite <- Zle_Qle. lia. }
  split; [|split; [|split]].
  - change (inject_Z 1) with 1 in Hlt. lra.
  - done.
  - change 0%Z with (Qfloor 0). apply Qfloor_resp_le. lra.
  - intros w' h' Hmax. apply Qfloor_resp_le.
    apply Qplus_le_l, Qmult_le_compat_r; [|discriminate].
    by rewrite <- Zle_Qle.
Qed.

Lemma auto_eps_bounds_witness :
  inject_Z (auto_eps 1280 720) <= inject_Z 1280 * (65 # 1000) + (1 # 2) /\
  auto_eps 1280 720 = 83%Z.
Proof.
  split; [|reflexivity].
  destruct (auto_eps_bounds 1280 720) as (_ & H & _); [lia|lia|exact H].
Defined.

(** ** The same grouping for pictures with the same neighbours *)

Section SameQueries.

Variables points1 points2 : list point.
Variables eps1 eps2 : num.
Variable minPts : Z.
Hypothesis Hlen : length points1 = length points2.
Hypothesis Hrq : forall i,
  regionQuery points1 eps1 i = regionQuery points2 eps2 i.

Lemma expand_same cid fuel : forall k seeds st,
  expand points1 eps1 minPts cid fuel k seeds st =
  expand points2 eps2 minPts cid fuel k seeds st.
Proof using Hrq.
  induction fuel as [|fuel IH]; intros k seeds st; simpl; [done|].
  destruct (seeds !! k) as [n|]; [|done].
  unfold probe. rewrite Hrq.
  destruct (truthy_at (visited st) n); simpl; [apply IH|].
  destruct (regionQuery points2 eps2 n) as [nbs| |]; simpl; try done.
  destruct (minPts <=? Z.of_nat (length nbs))%Z; simpl; apply IH.
Qed.

Lemma scan_same idxs : forall st,
  scan points1 eps1 minPts idxs st = scan points2 eps2 minPts idxs st.
Proof using Hrq Hlen.
  induction idxs as [|i idxs IH]; intros st; simpl; [done|].
  assert (Hv : visit points1 eps1 minPts i st = visit points2 eps2 minPts i st).
  { unfold visit. rewrite Hrq, Hlen.
    destruct (truthy_at (visited st) i); [done|].
    destruct (regionQuery points2 eps2 i) as [nbs| |]; simpl; try done.
    destruct (Z.of_nat (length nbs) <? minPts)%Z; [done|].
    apply expand_same. }
  rewrite Hv.
  destruct (visit points2 eps2 minPts i st); simpl; [apply IH|done|done].
Qed.

Lemma label_pass_same :
  label_pass points1 eps1 minPts = label_pass points2 eps2 minPts.
Proof using Hrq Hlen.
  unfold label_pass. rewrite Hlen. apply scan_same.
Qed.

End SameQueries.

Lemma regionQuery_from_same eps1 eps2 p p' : forall qs qs' j,
  Forall2 (fun q q' => within eps1 p q = within eps2 p' q') qs qs' ->
  regionQuery_from eps1 p qs j = regionQuery_from eps2 p' qs' j.
Proof.
  induction qs as [|q qs IH]; intros qs' j H.
  - by apply Forall2_nil_inv_l in H as ->.
  - apply Forall2_cons_inv_l in H as (q' & qs'' & Hq & Hqs & ->). simpl.
    by rewrite Hq, (IH qs'' (S j) Hqs).
Qed.

Lemma collect_fmap (f : point -> point) ls ps : forall i cl cl',
  collect ls ps i cl = Ok cl' ->
  collect ls (f <$> ps) i (map_tiles f cl) = Ok (map_tiles f cl').
Proof.
  induction ps as [|p ps IH]; intros i cl cl'; simpl.
  - by intros [= <-].
  - destruct (unlabelled (label_at ls i)).
    + intros H%IH. unfold map_tiles in *. by rewrite fmap_app in H.
    + destruct (label_at ls i) as [z|]; [|done].
      destruct (decide (0 <= z)%Z); [|done].
      unfold map_tiles in *. rewrite list_lookup_fmap.
      destruct (cl !! Z.to_nat z) as [arr|]; simpl; [|done].
      intros H%IH. by rewrite list_fmap_insert, fmap_app in H.
Qed.

(** A map of the dots that keeps every answer of the neighbour test maps
    the tiles: same grouping, same order. *)
Lemma dbscan_transport (f : point -> point) points eps eps' minPts tiles :
  (forall p q, p ∈ points -> q ∈ points ->
     within eps p q = within eps' (f p) (f q)) ->
  dbscan points eps minPts = Ok tiles ->
  dbscan (f <$> points) eps' minPts = Ok (map_tiles f tiles).
Proof.
  intros Hw.
  assert (Hrq : forall i,
            regionQuery points eps i = regionQuery (f <$> points) eps' i).
  { intros i. unfold regionQuery. rewrite list_lookup_fmap.
    destruct (points !! i) as [p|] eqn:Hp; simpl; [|by destruct points].
    f_equal. apply regionQuery_from_same.
    apply Forall2_fmap_r, Forall_Forall2_diag, Forall_forall.
    intros q Hq. apply Hw; [|done]. by eapply list_elem_of_lookup_2. }
  unfold dbscan.
  rewrite <- (label_pass_same points (f <$> points) eps eps' minPts)
    by (by rewrite ?length_fmap).
  destruct (label_pass points eps minPts) as [st| |]; simpl; try done.
  destruct (collect (labels st) points 0 (replicate (C st) [])) as [cl| |]
    eqn:Hcl; simpl; try done.
  intros [= <-].
  apply (collect_fmap f) in Hcl. unfold map_tiles in *.
  rewrite fmap_replicate in Hcl. simpl in Hcl.
  rewrite Hcl. simpl. f_equal.
  clear. induction cl as [|t cl IH]; [done|].
  rewrite fmap_cons, !filter_cons, length_fmap.
  destruct (decide _); by rewrite IH.
Qed.

Lemma sub_translate (x y : num) (a : Q) :
  num_eqv (Num.sub (Num.add x (Fin a)) (Num.add y (Fin a))) (Num.sub x y).
Proof. destruct x, y; simpl; try done. ring. Qed.

Lemma num_eqv_mul a a' b b' :
  num_eqv a a' -> num_eqv b b' -> num_eqv (Num.mul a b) (Num.mul a' b').
Proof.
  destruct a, a', b, b'; simpl; try done; intros Ha Hb;
    unfold Num.inf_times, Num.sgn; rewrite ?Ha, ?Hb;
    first [reflexivity | by destruct (_ ?= _)].
Qed.

Lemma within_translate eps (a b : Q) (p q : point) :
  within eps (translate a b p) (translate a b q) = within eps p q.
Proof.
  unfold within, translate. simpl.
  apply num_eqv_le, num_eqv_add; apply num_eqv_mul; apply sub_translate.
Qed.

(** X17.  The grouping does not depend on where the picture lies: moving
    every dot by the same finite vector moves the tiles and changes
    nothing else (same tiles, same order), for every [eps] and [minPts]. *)
Theorem translation_invariant (a b : Q) (points : list point) (eps : num)
    (minPts : Z) :
  exists tiles,
    dbscan points eps minPts = Ok tiles /\
    dbscan (translate a b <$> points) eps minPts
      = Ok (map_tiles (translate a b) tiles).
Proof.
  destruct (dbscan_perm points eps minPts) as (tiles & Hrun & _).
  exists tiles. split; [done|].
  apply (dbscan_transport _ points eps); [|done].
  intros p q _ _. by rewrite within_translate.
Qed.

(** X18.  The radii play no part in the grouping: giving the dots any
    other radii leaves the tiles as they are, radii apart. *)
Theorem radius_irrelevant (g : point -> num) (points : list point)
    (eps : num) (minPts : Z) :
  exists tiles,
    dbscan points eps minPts = Ok tiles /\
    dbscan (with_radius g <$> points) eps minPts
      = Ok (map_tiles (with_radius g) tiles).
Proof.
  destruct (dbscan_perm points eps minPts) as (tiles & Hrun & _).
  exists tiles. split; [done|].
  by apply (dbscan_transport _ points eps).
Qed.

(** ** The overlay *)

Lemma rings_of_rings dots :
  rings_of ((fun d => Ring (px d) (py d) (pr d)) <$> dots) = dots.
Proof.
  unfold rings_of. induction dots as [|[x y r] dots IH]; [done|].
  csimpl. by rewrite IH.
Qed.

Lemma labels_of_rings dots :
  labels_of ((fun d => Ring (px d) (py d) (pr d)) <$> dots) = [].
Proof. unfold labels_of. induction dots as [|d dots IH]; [done|]. by csimpl. Qed.

Lemma rings_of_app l1 l2 : rings_of (l1 ++ l2) = rings_of l1 ++ rings_of l2.
Proof. apply omap_app. Qed.

Lemma labels_of_app l1 l2 :
  labels_of (l1 ++ l2) = labels_of l1 ++ labels_of l2.
Proof. apply omap_app. Qed.

Lemma overlay_tiles measureText clusters :
  rings_of (concat (draw_tile measureText <$> clusters)) = [] /\
  labels_of (concat (draw_tile measureText <$> clusters))
    = (fun c : list point => length c) <$> clusters.
Proof.
  unfold rings_of, labels_of.
  induction clusters as [|t clusters [IH1 IH2]]; [done|].
  csimpl. by rewrite IH1, IH2.
Qed.

(** X20.  On the overlay every dot gets exactly one ring, drawn at its
    center with its radius, in the order of the dots; every tile gets one
    label, the number of its members, in the order of the tiles; and when
    the tiles are those [dbscan] makes of the dots, the labels add up to
    the number of rings. *)
Theorem overlay_shows_every_dot (measureText : nat -> num)
    (width height : Z) (dots : list point) (eps : num) (minPts : Z) :
  exists tiles,
    dbscan dots eps minPts = Ok tiles /\
    let cmds := drawOverlay measureText width height dots tiles in
    rings_of cmds = dots /\
    labels_of cmds = (fun c : list point => length c) <$> tiles /\
    sum_list (labels_of cmds) = length (rings_of cmds).
Proof.
  destruct (dbscan_perm dots eps minPts) as (tiles & Hrun & Hperm).
  exists tiles. split; [done|]. cbv zeta.
  assert (Hr : rings_of (drawOverlay measureText width height dots tiles) = dots).
  { transitivity
      (rings_of (((fun d => Ring (px d) (py d) (pr d)) <$> dots) ++
                 concat (draw_tile measureText <$> tiles))); [done|].
    rewrite rings_of_app, rings_of_rings, (proj1 (overlay_tiles _ _)).
    by rewrite app_nil_r. }
  assert (Hl : labels_of (drawOverlay measureText width height dots tiles)
               = (fun c : list point => length c) <$> tiles).
  { transitivity
      (labels_of (((fun d => Ring (px d) (py d) (pr d)) <$> dots) ++
                  concat (draw_tile measureText <$> tiles))); [done|].
    by rewrite labels_of_app, labels_of_rings, (proj2 (overlay_tiles _ _)). }
  split; [done|]. split; [done|].
  by rewrite Hr, Hl, <- length_concat_sum, Hperm.
Qed.

(** ** The service worker *)

Module WorkerFacts.

Import Worker.

Section Caches.

Variable response : Type.


Lemma find_cache_None name (cs : Worker.storage response) :
  find_cache response name cs = None <-> name ∉ cs.*1.
Proof.
  induction cs as [|[k c] cs IH]; simpl.
  - split; [by intros _ ?%elem_of_nil|done].
  - destruct (decide (k = name)) as [->|Hne].
    + split; [done|]. intros H. destruct H. by left.
    + rewrite IH, not_elem_of_cons.
      split; [intros ?; split; [congruence|done]|by intros [_ ?]].
Qed.

Lemma filter_absent name (cs : Worker.storage response) :
  name ∉ cs.*1 -> filter (fun entry => entry.1 = name) cs = [].
Proof.
  intros Hn. apply elem_of_nil_inv. intros [k c] [Hk Hin]%list_elem_of_filter.
  simpl in Hk. subst. apply Hn. apply list_elem_of_fmap. by exists (name, c).
Qed.

Lemma activate_names (cs : Worker.storage response) :
  Forall (fun entry => entry.1 = CACHE) (activate response cs).
Proof.
  apply Forall_forall. by intros e [He _]%list_elem_of_filter.
Qed.

Lemma find_cache_filter name (cs : Worker.storage response) :
  find_cache response name (filter (fun entry => entry.1 = name) cs)
  = find_cache response name cs.
Proof.
  induction cs as [|[k c] cs IH]; [done|].
  rewrite filter_cons. simpl. destruct (decide (k = name)) as [->|Hne].
  - simpl. by rewrite decide_True.
  - done.
Qed.

(** The storage after [activate], for a storage whose cache names are
    distinct. *)
Lemma activate_single (f : Worker.cache response -> Worker.cache response)
    (cs : Worker.storage response) (c : Worker.cache response) :
  NoDup cs.*1 -> find_cache response CACHE cs = Some c ->
  activate response
    ((fun entry : string * Worker.cache response =>
        if decide (entry.1 = CACHE) then (entry.1, f entry.2) else entry)
     <$> cs)
  = [(CACHE, f c)].
Proof.
  unfold activate. induction cs as [|[k c'] cs IH]; [done|].
  rewrite fmap_cons. intros [Hk Hnd]%NoDup_cons. simpl.
  destruct (decide (k = CACHE)) as [->|Hne].
  - intros [= ->]. rewrite filter_cons_True by done. f_equal.
    apply filter_absent. intros Hin. apply Hk.
    apply list_elem_of_fmap in Hin as ([k1 c1] & Hk1 & Hin).
    apply list_elem_of_fmap in Hin as ([k2 c2] & Heq & Hin).
    apply list_elem_of_fmap. exists (k2, c2). split; [|done].
    simpl in *. destruct (decide (k2 = CACHE)); simplify_eq; done.
  - intros Hfind. rewrite filter_cons_False by (simpl; congruence).
    by apply IH.
Qed.

Lemma open_spec name (cs : Worker.storage response) :
  NoDup cs.*1 ->
  NoDup (open response name cs).*1 /\
  find_cache response name (open response name cs)
    = Some (default ∅ (find_cache response name cs)) /\
  (forall other, other <> name ->
     find_cache response other (open response name cs)
     = find_cache response other cs).
Proof.
  intros Hnd. unfold open.
  destruct (find_cache response name cs) as [c|] eqn:Hfind; simpl.
  - by rewrite Hfind.
  - apply find_cache_None in Hfind.
    assert (Happ : forall n c0,
              find_cache response n (cs ++ [(name, c0)])
              = match find_cache response n cs with
                | Some c => Some c
                | None => if decide (name = n) then Some c0 else None
                end).
    { intros n c0. clear. induction cs as [|[k c] cs IH]; simpl; [done|].
      destruct (decide (k = n)); [done|apply IH]. }
    split; [|split].
    + rewrite fmap_app. simpl. apply NoDup_app. split; [done|].
      split; [|apply NoDup_singleton].
      by intros x Hx ->%list_elem_of_singleton.
    + rewrite Happ. rewrite (proj2 (find_cache_None name cs) Hfind).
      by rewrite decide_True.
    + intros other Hne. rewrite Happ.
      destruct (find_cache response other cs); [done|].
      by rewrite decide_False.
Qed.

Lemma fetch_all_Some (net : Worker.network response) (urls : list string) :
  Forall (fun u => is_Some (net u)) urls ->
  exists entries,
    fetch_all response net urls = Some entries /\
    entries.*1 = urls /\
    Forall (fun entry => net entry.1 = Some entry.2) entries.
Proof.
  induction 1 as [|u us [r Hr] _ (es & Hes & Hkeys & Hall)]; simpl.
  - by exists [].
  - rewrite Hr, Hes. simpl. exists ((u, r) :: es).
    split; [done|]. split; [by rewrite fmap_cons, Hkeys|].
    by constructor.
Qed.

Lemma fetch_all_None (net : Worker.network response) (urls : list string) (u : string) :
  u ∈ urls -> net u = None -> fetch_all response net urls = None.
Proof.
  induction urls as [|v vs IH]; [by intros ?%elem_of_nil|].
  intros [->|Hin]%elem_of_cons Hu; simpl.
  - by rewrite Hu.
  - destruct (net v); simpl; [|done]. by rewrite IH.
Qed.

Lemma put_all_lookup (net : Worker.network response) entries : forall (c : Worker.cache response) u,
  Forall (fun entry => net entry.1 = Some entry.2) entries ->
  u ∈ entries.*1 -> put_all response c entries !! u = net u.
Proof.
  unfold put_all.
  induction entries as [|[v r] es IH] using rev_ind; intros c u Hall Hin.
  - by apply elem_of_nil in Hin.
  - rewrite foldl_app. simpl.
    apply Forall_app in Hall as [Hall Hlast].
    rewrite Forall_singleton in Hlast. simpl in Hlast.
    destruct (decide (u = v)) as [->|Hne].
    + rewrite lookup_insert_eq. by symmetry.
    + rewrite lookup_insert_ne by done. apply IH; [done|].
      rewrite fmap_app in Hin. apply elem_of_app in Hin as [?|Hin]; [done|].
      apply list_elem_of_singleton in Hin. simpl in Hin. done.
Qed.

End Caches.

End WorkerFacts.

(** X22.  [activate] leaves only caches with the name of the current
    version, keeps that cache with what it holds, and doing it again
    changes nothing. *)
Theorem activate_keeps_current_cache (response : Type)
    (cs : Worker.storage response) :
  Forall (fun entry => entry.1 = Worker.CACHE) (Worker.activate response cs) /\
  Worker.find_cache response Worker.CACHE (Worker.activate response cs)
    = Worker.find_cache response Worker.CACHE cs /\
  Worker.activate response (Worker.activate response cs)
    = Worker.activate response cs.
Proof.
  split; [apply WorkerFacts.activate_names|]. split.
  - apply WorkerFacts.find_cache_filter.
  - unfold Worker.activate. apply filter_all.
    apply (WorkerFacts.activate_names response cs).
Qed.

(** X23.  Offline mode.  When every file of [ASSETS] can be fetched at
    install time (cache names being distinct, as in a cache storage),
    [install] succeeds, and after [activate] the [fetch] listener answers
    the request for each of these files with the response fetched at
    install time, whatever the network does by then. *)
Theorem assets_served_offline (response : Type) (resolve : string -> string)
    (net later : Worker.network response) (cs : Worker.storage response) :
  NoDup cs.*1 ->
  Forall (fun a => is_Some (net (resolve a))) Worker.ASSETS ->
  exists cs1,
    Worker.install response resolve net cs = (cs1, true) /\
    forall a, a ∈ Worker.ASSETS ->
      Worker.on_fetch response later (Worker.activate response cs1) (resolve a)
      = net (resolve a).
Proof.
  intros Hnd Hnet. unfold Worker.install, Worker.addAll.
  destruct (WorkerFacts.open_spec response Worker.CACHE cs Hnd)
    as (Hnd1 & Hfind & _).
  destruct (WorkerFacts.fetch_all_Some response net (resolve <$> Worker.ASSETS))
    as (entries & -> & Hkeys & Hall).
  { by apply Forall_fmap. }
  cbn [mbind option_bind]. eexists. split; [done|]. intros a Ha.
  rewrite (WorkerFacts.activate_single response
             (fun c => Worker.put_all response c entries) _ _ Hnd1 Hfind).
  unfold Worker.on_fetch. cbn [Worker.caches_match].
  rewrite (WorkerFacts.put_all_lookup response net entries _ (resolve a) Hall).
  - destruct (net (resolve a)) as [r|] eqn:Hr; [done|].
    rewrite Forall_forall in Hnet. destruct (Hnet a Ha) as [x Hx]. congruence.
  - rewrite Hkeys. apply list_elem_of_fmap. by exists a.
Qed.

Lemma assets_served_offline_witness :
  let net := fun u : string => Some (String.length u) in
  let dead := fun _ : string => @None nat in
  exists cs1,
    Worker.install nat (fun u => u) net [("domino-cache-v0", ∅)] = (cs1, true) /\
    Worker.on_fetch nat dead (Worker.activate nat cs1) "./app.js" = Some 8%nat.
Proof.
  destruct (assets_served_offline nat (fun u => u)
              (fun u : string => Some (String.length u))
              (fun _ : string => @None nat)
              [("domino-cache-v0"%string, ∅)])
    as (cs1 & Hok & Hget).
  - apply NoDup_singleton.
  - repeat constructor; by eexists.
  - exists cs1. split; [exact Hok|].
    apply (Hget "./app.js"%string). unfold Worker.ASSETS.
    do 3 right. by left.
Defined.

(** X24.  When one file of [ASSETS] cannot be fetched, [install] fails
    and stores nothing: the cache of the current version is as [open]
    found or made it, and every other cache is as it was. *)
Theorem failed_install_stores_nothing (response : Type)
    (resolve : string -> string) (net : Worker.network response)
    (cs : Worker.storage response) (a : string) :
  NoDup cs.*1 -> a ∈ Worker.ASSETS -> net (resolve a) = None ->
  exists cs1,
    Worker.install response resolve net cs = (cs1, false) /\
    Worker.find_cache response Worker.CACHE cs1
      = Some (default ∅ (Worker.find_cache response Worker.CACHE cs)) /\
    forall other, other <> Worker.CACHE ->
      Worker.find_cache response other cs1
      = Worker.find_cache response other cs.
Proof.
  intros Hnd Ha Hnone. unfold Worker.install, Worker.addAll.
  rewrite (WorkerFacts.fetch_all_None response net _ (resolve a)).
  - cbn [mbind option_bind]. eexists. split; [done|].
    by destruct (WorkerFacts.open_spec response Worker.CACHE cs Hnd)
      as (_ & ? & ?).
  - apply list_elem_of_fmap. by exists a.
  - done.
Qed.

Lemma failed_install_stores_nothing_witness :
  exists cs1,
    Worker.install nat (fun u => u) (fun _ => None) [] = (cs1, false) /\
    Worker.find_cache nat Worker.CACHE cs1 = Some ∅.
Proof.
  destruct (failed_install_stores_nothing nat (fun u => u) (fun _ => None) []
              "./app.js"%string)
    as (cs1 & Hrun & Hfind & _).
  - apply NoDup_nil_2.
  - unfold Worker.ASSETS. do 3 right. by left.
  - reflexivity.
  - exists cs1. split; [exact Hrun|exact Hfind].
Defined.
